(** * Rated-list DHT: the scoring node of [simulator/node.py]

    A shallow embedding of the class [Node] and of the records it owns
    ([NodeRecord], [ScoreKeeper], [RatedListDHT]), followed by the
    properties of the peer graph, the reputation ledger, the scoring
    engine and the peer filter.

    Conventions of the embedding.
    - Python dictionaries are finite maps ([gmap]), Python sets are finite
      sets ([gset]); [children] and [parents] are lists, because the code
      appends to them, removes the first occurrence of an element and
      iterates over them by position.
    - A method is a computation [M A] over the state of the node.  It
      either returns, raises one of the Python exceptions the code can
      raise (the state reached so far is kept: Python does not roll
      mutations back), or runs out of the fuel given to its [while] loop.
    - Scores are the exact rational values of the quotients the code
      computes; the rounding of Python floats is not modelled.
    - [utils] and [dascore] are not part of the sources at hand:
      identifiers are numbers, and the iteration protocol of a node
      identifier and [get_custody_columns] are parameters of the methods
      that use them. *)

From Stdlib Require Import QArith.
From stdpp Require Import gmap list fin_maps fin_sets.

Close Scope Q_scope.

(** ** Python values shared by all methods *)

Inductive exn : Type :=
  | KeyError
  | ValueError
  | TypeError
  | ZeroDivisionError.

(** [list.remove(x)]: drops the first occurrence, [None] where Python
    raises [ValueError]. *)
Fixpoint list_remove {A} `{EqDecision A} (x : A) (l : list A) : option (list A) :=
  match l with
  | [] => None
  | y :: l' =>
      if decide (x = y) then Some l'
      else match list_remove x l' with
           | Some r => Some (y :: r)
           | None => None
           end
  end.

(** A small insertion-ordered dictionary, for the local dictionaries the
    code iterates over with [items()]. *)
Fixpoint dict_get {K V} `{EqDecision K} (k : K) (d : list (K * V)) : option V :=
  match d with
  | [] => None
  | (k', v) :: d' => if decide (k = k') then Some v else dict_get k d'
  end.

Fixpoint dict_set {K V} `{EqDecision K} (k : K) (v : V) (d : list (K * V)) : list (K * V) :=
  match d with
  | [] => [(k, v)]
  | (k', v') :: d' =>
      if decide (k = k') then (k, v) :: d' else (k', v') :: dict_set k v d'
  end.

(** Comparisons and [max] on scores, as Python evaluates them. *)
Definition Qlt_bool (a b : Q) : bool := negb (Qle_bool b a).

Definition py_max (a b : Q) : Q := if Qlt_bool a b then b else a.

(** [len(r) / len(c)] for a non-empty [c]. *)
Definition ratio (r c : nat) : Q := Qmake (Z.of_nat r) (Pos.of_nat c).

(** ** Identifiers

    Modelled from the spec: [utils], which declares [NodeId], [SampleId]
    and [Root], is not among the sources.  The spec describes them as
    opaque, comparable, hashable values; they are numbers here.  [Item] is
    the type of what iterating over a node identifier yields. *)

Definition NodeId : Type := N.
Definition SampleId : Type := N.
Definition Root : Type := N.
Definition Item : Type := N.

#[global] Instance NodeId_eq_dec : EqDecision NodeId := N.eq_dec.
#[global] Instance NodeId_countable : Countable NodeId := N_countable.
#[global] Instance SampleId_eq_dec : EqDecision SampleId := N.eq_dec.
#[global] Instance SampleId_countable : Countable SampleId := N_countable.
#[global] Instance Root_eq_dec : EqDecision Root := N.eq_dec.
#[global] Instance Root_countable : Countable Root := N_countable.
#[global] Instance Item_eq_dec : EqDecision Item := N.eq_dec.
#[global] Instance Item_countable : Countable Item := N_countable.

(** ** Data model *)

Record NodeRecord : Type := mkNodeRecord {
  node_id : NodeId;
  children : list NodeId;
  parents : list NodeId
}.

Record ScoreKeeper : Type := mkScoreKeeper {
  descendants_contacted : gmap NodeId (gset (NodeId * SampleId));
  descendants_replied : gmap NodeId (gset (NodeId * SampleId))
}.

Record RatedListDHT : Type := mkRatedListDHT {
  sample_mapping : gmap SampleId (gset NodeId);
  nodes : gmap NodeId NodeRecord;
  scores : gmap Root ScoreKeeper
}.

Record Node : Type := mkNode {
  own_id : NodeId;
  dht : RatedListDHT
}.

Definition with_children (r : NodeRecord) (cs : list NodeId) : NodeRecord :=
  mkNodeRecord (node_id r) cs (parents r).

Definition with_parents (r : NodeRecord) (ps : list NodeId) : NodeRecord :=
  mkNodeRecord (node_id r) (children r) ps.

Definition with_nodes (s : Node) (ns : gmap NodeId NodeRecord) : Node :=
  mkNode (own_id s) (mkRatedListDHT (sample_mapping (dht s)) ns (scores (dht s))).

Definition with_scores (s : Node) (sc : gmap Root ScoreKeeper) : Node :=
  mkNode (own_id s) (mkRatedListDHT (sample_mapping (dht s)) (nodes (dht s)) sc).

Definition with_sample_mapping (s : Node) (sm : gmap SampleId (gset NodeId)) : Node :=
  mkNode (own_id s) (mkRatedListDHT sm (nodes (dht s)) (scores (dht s))).

(** ** The monad of methods *)

Inductive outcome (A : Type) : Type :=
  | Ret (a : A) (s : Node)
  | Raise (e : exn) (s : Node)
  | OutOfFuel.

Arguments Ret {A} a s.
Arguments Raise {A} e s.
Arguments OutOfFuel {A}.

Definition M (A : Type) : Type := Node → outcome A.

Definition ret {A} (a : A) : M A := λ s, Ret a s.

Definition raise {A} (e : exn) : M A := λ s, Raise e s.

Definition timeout {A} : M A := λ _, OutOfFuel.

Definition bind {A B} (m : M A) (k : A → M B) : M B :=
  λ s, match m s with
       | Ret a s' => k a s'
       | Raise e s' => Raise e s'
       | OutOfFuel => OutOfFuel
       end.

Notation "'let*' x ':=' m 'in' k" := (bind m (λ x, k))
  (at level 10, x name, m at level 100, k at level 200, only parsing).
Notation "m ;;; k" := (bind m (λ _, k))
  (at level 100, k at level 200, only parsing, right associativity).

Definition gets {A} (f : Node → A) : M A := λ s, Ret (f s) s.

Definition modify (f : Node → Node) : M unit := λ s, Ret tt (f s).

(** [d[k]] on a dictionary. *)
Definition subscript {K V} `{Countable K} (d : gmap K V) (k : K) : M V :=
  match d !! k with
  | Some v => ret v
  | None => raise KeyError
  end.

Definition get_nodes : M (gmap NodeId NodeRecord) := gets (λ s, nodes (dht s)).
Definition set_nodes (ns : gmap NodeId NodeRecord) : M unit :=
  modify (λ s, with_nodes s ns).
Definition get_scores : M (gmap Root ScoreKeeper) := gets (λ s, scores (dht s)).
Definition set_scores (sc : gmap Root ScoreKeeper) : M unit :=
  modify (λ s, with_scores s sc).
Definition get_sample_mapping : M (gmap SampleId (gset NodeId)) :=
  gets (λ s, sample_mapping (dht s)).
Definition set_sample_mapping (sm : gmap SampleId (gset NodeId)) : M unit :=
  modify (λ s, with_sample_mapping s sm).

(** [for x in l: acc = body x acc], over a sequence that the body does
    not mutate. *)
Fixpoint for_fold {A B} (l : list A) (acc : B) (body : A → B → M B) : M B :=
  match l with
  | [] => ret acc
  | x :: l' => let* acc' := body x acc in for_fold l' acc' body
  end.

Definition for_each {A} (l : list A) (body : A → M unit) : M unit :=
  for_fold l tt (λ x _, body x).

Section RatedList.

(** What [for x in node_id] yields, [None] when a node identifier is not
    iterable; and the custody assignment of [dascore]. *)
Variable iter_node_id : NodeId → option (list Item).
Variable get_custody_columns : NodeId → list SampleId.

(** ** [Node.__init__] *)

Definition new_node (id : NodeId) : Node :=
  mkNode id (mkRatedListDHT ∅ {[ id := mkNodeRecord id [] [] ]} ∅).

(** ** [compute_descendant_score]

    The conditional expression evaluates its test first: the contacted
    entry is looked up before the replied one, and the replied entry is
    not looked up at all when the contacted set is empty. *)

Definition compute_descendant_score (block_root : Root) (n : NodeId) : M Q :=
  let* sc := get_scores in
  let* score_keeper := subscript sc block_root in
  let* contacted := subscript (descendants_contacted score_keeper) n in
  if decide (0 < size contacted) then
    let* replied := subscript (descendants_replied score_keeper) n in
    ret (ratio (size replied) (size contacted))
  else ret 0%Q.

(** ** [on_get_peers_response]

    The first loop links every reported peer under [n], creating the
    record of a peer that is not known yet.  Every statement goes through
    [self.dht.nodes] again, as in the code. *)

Definition link_peer (n peer_id : NodeId) : M unit :=
  let* ns := get_nodes in
  match ns !! peer_id with
  | None => set_nodes (<[peer_id := mkNodeRecord peer_id [] []]> ns)
  | Some _ => ret tt
  end ;;;
  let* ns := get_nodes in
  let* peer := subscript ns peer_id in
  set_nodes (<[peer_id := with_parents peer (parents peer ++ [n])]> ns) ;;;
  let* ns := get_nodes in
  let* record := subscript ns n in
  set_nodes (<[n := with_children record (children record ++ [peer_id])]> ns).

(** The body of the second loop for a child that is not among the peers.
    It returns the children list after the removal: the list object the
    loop iterates over is the one stored in the record of [n]. *)
Definition unlink_child (n child_id : NodeId) : M (list NodeId) :=
  let* ns := get_nodes in
  let* record := subscript ns n in
  match list_remove child_id (children record) with
  | None => raise ValueError
  | Some cs =>
      set_nodes (<[n := with_children record cs]> ns) ;;;
      let* ns := get_nodes in
      let* child := subscript ns child_id in
      match list_remove n (parents child) with
      | None => raise ValueError
      | Some ps =>
          set_nodes (<[child_id := with_parents child ps]> ns) ;;;
          let* ns := get_nodes in
          let* child := subscript ns child_id in
          (if decide (length (parents child) = 0)
           then set_nodes (delete child_id ns)
           else ret tt) ;;;
          ret cs
      end
  end.

(** [for child_id in self.dht.nodes[n].children] while the body removes
    from that very list: the iterator keeps a position [i] into the list
    object [lst] and stops when [i] is past its current end.  [lst] stays
    the list of the record of [n] for as long as that record is in the
    map; once the record is deleted the iterator still walks the detached
    list, and [unlink_child] raises [KeyError] on the next stale child. *)
Fixpoint unlink_loop (fuel : nat) (n : NodeId) (peers : list NodeId)
    (lst : list NodeId) (i : nat) : M unit :=
  match fuel with
  | 0 => timeout
  | S fuel' =>
      match lst !! i with
      | None => ret tt
      | Some child_id =>
          if decide (child_id ∈ peers) then unlink_loop fuel' n peers lst (S i)
          else
            let* lst' := unlink_child n child_id in
            unlink_loop fuel' n peers lst' (S i)
      end
  end.

Definition on_get_peers_response (n : NodeId) (peers : list NodeId) : M unit :=
  for_each peers (link_peer n) ;;;
  let* ns := get_nodes in
  let* record := subscript ns n in
  unlink_loop (S (length (children record))) n peers (children record) 0.

(** ** [compute_node_score] *)

(** The innermost body: one [parent] of a node of the current frontier
    that carries [score]. *)
Definition visit_parent (block_root : Root) (score : Q) (parent : NodeId)
    (acc : list (NodeId * Q) * Q) : M (list (NodeId * Q) * Q) :=
  let new_path_scores := acc.1 in
  let best_score := acc.2 in
  let* own := gets own_id in
  if decide (parent = own) then ret (new_path_scores, py_max best_score score)
  else
    let* par_score := compute_descendant_score block_root parent in
    match dict_get parent new_path_scores with
    | None => ret (dict_set parent par_score new_path_scores, best_score)
    | Some old =>
        if Qlt_bool old par_score
        then ret (dict_set parent par_score new_path_scores, best_score)
        else ret (new_path_scores, best_score)
    end.

Definition visit_frontier_entry (block_root : Root) (entry : NodeId * Q)
    (acc : list (NodeId * Q) * Q) : M (list (NodeId * Q) * Q) :=
  let* ns := get_nodes in
  let* record := subscript ns entry.1 in
  for_fold (parents record) acc (visit_parent block_root entry.2).

Fixpoint path_loop (fuel : nat) (block_root : Root)
    (cur_path_scores : list (NodeId * Q)) (best_score : Q) : M Q :=
  match fuel with
  | 0 => timeout
  | S fuel' =>
      match cur_path_scores with
      | [] => ret best_score
      | _ =>
          let* r := for_fold cur_path_scores ([], best_score)
                      (visit_frontier_entry block_root) in
          path_loop fuel' block_root r.1 r.2
      end
  end.

Definition compute_node_score (fuel : nat) (block_root : Root) (n : NodeId) : M Q :=
  let* score := compute_descendant_score block_root n in
  let* ns := get_nodes in
  let* record := subscript ns n in
  let cur_path_scores :=
    foldl (λ d parent, dict_set parent score d) [] (parents record) in
  path_loop fuel block_root cur_path_scores 0%Q.

(** ** [on_request_score_update] and [on_response_score_update]

    The two methods run the same loops; they differ in the dictionary of
    the score keeper they write to, and in how they obtain the score
    keeper.  [score_keeper] is the object stored under [block_root]:
    every mutation is written through to the state at once.  Python does
    not fix the order in which a set is iterated; the frontier is visited
    in the order of [elements], the same for both methods. *)

Inductive ledger : Type := Contacted | Replied.

Definition ledger_get (w : ledger) (sk : ScoreKeeper)
    : gmap NodeId (gset (NodeId * SampleId)) :=
  match w with
  | Contacted => descendants_contacted sk
  | Replied => descendants_replied sk
  end.

Definition ledger_set (w : ledger) (sk : ScoreKeeper)
    (d : gmap NodeId (gset (NodeId * SampleId))) : ScoreKeeper :=
  match w with
  | Contacted => mkScoreKeeper d (descendants_replied sk)
  | Replied => mkScoreKeeper (descendants_contacted sk) d
  end.

Definition store_score_keeper (block_root : Root) (sk : ScoreKeeper) : M unit :=
  let* sc := get_scores in set_scores (<[block_root := sk]> sc).

Definition add_pair (w : ledger) (ancestor : NodeId) (pair : NodeId * SampleId)
    (sk : ScoreKeeper) : ScoreKeeper :=
  let d := ledger_get w sk in
  let d1 := match d !! ancestor with
            | None => <[ancestor := ∅]> d
            | Some _ => d
            end in
  ledger_set w sk (<[ancestor := default ∅ (d1 !! ancestor) ∪ {[pair]}]> d1).

Definition visit_ancestor (w : ledger) (block_root : Root)
    (pair : NodeId * SampleId) (ancestor : NodeId)
    (acc : ScoreKeeper * gset NodeId) : M (ScoreKeeper * gset NodeId) :=
  let score_keeper := add_pair w ancestor pair acc.1 in
  store_score_keeper block_root score_keeper ;;;
  let* ns := get_nodes in
  let* record := subscript ns ancestor in
  ret (score_keeper, acc.2 ∪ list_to_set (parents record)).

Fixpoint ancestor_walk (fuel : nat) (w : ledger) (block_root : Root)
    (pair : NodeId * SampleId) (score_keeper : ScoreKeeper)
    (cur_ancestors : gset NodeId) : M unit :=
  match fuel with
  | 0 => timeout
  | S fuel' =>
      if decide (cur_ancestors = ∅) then ret tt
      else
        let* r := for_fold (elements cur_ancestors) (score_keeper, ∅)
                    (visit_ancestor w block_root pair) in
        ancestor_walk fuel' w block_root pair r.1 r.2
  end.

Definition on_request_score_update (fuel : nat) (block_root : Root)
    (n : NodeId) (sample_id : SampleId) : M unit :=
  let* ns := get_nodes in
  let* node_record := subscript ns n in
  let* sc := get_scores in
  match sc !! block_root with
  | None => set_scores (<[block_root := mkScoreKeeper ∅ ∅]> sc)
  | Some _ => ret tt
  end ;;;
  let* sc := get_scores in
  let* score_keeper := subscript sc block_root in
  ancestor_walk fuel Contacted block_root (n, sample_id) score_keeper
    (list_to_set (parents node_record)).

Definition on_response_score_update (fuel : nat) (block_root : Root)
    (n : NodeId) (sample_id : SampleId) : M unit :=
  let* ns := get_nodes in
  let* node_record := subscript ns n in
  let* sc := get_scores in
  let* score_keeper := subscript sc block_root in
  ancestor_walk fuel Replied block_root (n, sample_id) score_keeper
    (list_to_set (parents node_record)).

(** ** [add_samples_on_entry] and [remove_samples_on_exit] *)

Definition add_samples_on_entry (n : NodeId) : M unit :=
  for_each (get_custody_columns n) (λ id,
    let* sm := get_sample_mapping in
    match sm !! id with
    | None => set_sample_mapping (<[id := ∅]> sm)
    | Some _ => ret tt
    end ;;;
    let* sm := get_sample_mapping in
    let* holders := subscript sm id in
    set_sample_mapping (<[id := holders ∪ {[n]}]> sm)).

Definition remove_samples_on_exit (n : NodeId) : M unit :=
  for_each (get_custody_columns n) (λ id,
    let* sm := get_sample_mapping in
    match sm !! id with
    | None => ret tt
    | Some holders =>
        if decide (n ∈ holders)
        then set_sample_mapping (<[id := holders ∖ {[n]}]> sm)
        else raise KeyError
    end).

(** ** [filter_nodes]

    [filtered_nodes.update(node_id)] adds what iterating over the node
    identifier yields, and raises [TypeError] when a node identifier is
    not iterable.  [evicted_nodes.update(self.dht.nodes[node_id])] is
    given a [NodeRecord], a plain dataclass, which is not iterable: the
    statement raises [TypeError] once the record has been looked up, so
    the statement after it is never reached and [evicted_nodes] is empty
    whenever it is consulted. *)

Definition mean_minus_tenth (scores_seen : list (NodeId * Q)) : M Q :=
  match scores_seen with
  | [] => raise ZeroDivisionError
  | _ =>
      ret (Qminus
             (Qdiv (foldl Qplus 0%Q scores_seen.*2)
                   (inject_Z (Z.of_nat (length scores_seen))))
             (1 # 10)%Q)
  end.

Definition filter_candidate (fuel : nat) (block_root : Root) (filter_score : Q)
    (evicted_nodes : gset NodeId) (candidate : NodeId)
    (acc : list (NodeId * Q) * gset Item) : M (list (NodeId * Q) * gset Item) :=
  let* score := compute_node_score fuel block_root candidate in
  let scores_seen := acc.1 ++ [(candidate, score)] in
  if decide (Qle_bool filter_score score = true ∧ candidate ∉ evicted_nodes) then
    match iter_node_id candidate with
    | None => raise TypeError
    | Some items => ret (scores_seen, acc.2 ∪ list_to_set items)
    end
  else if Qlt_bool score filter_score then
    let* ns := get_nodes in
    let* record := subscript ns candidate in
    raise TypeError
  else ret (scores_seen, acc.2).

Fixpoint filter_loop (fuel : nat) (block_root : Root) (sample_id : SampleId)
    (scores_seen : list (NodeId * Q)) (filter_score : Q)
    (filtered_nodes : gset Item) (evicted_nodes : gset NodeId) : M (gset Item) :=
  match fuel with
  | 0 => timeout
  | S fuel' =>
      if decide (size filtered_nodes = 0) then
        let* sm := get_sample_mapping in
        let* candidates := subscript sm sample_id in
        let* r := for_fold (elements candidates) (scores_seen, filtered_nodes)
                    (filter_candidate fuel' block_root filter_score evicted_nodes) in
        let* filter_score' := mean_minus_tenth r.1 in
        filter_loop fuel' block_root sample_id r.1 filter_score' r.2 evicted_nodes
      else ret filtered_nodes
  end.

Definition filter_nodes (fuel : nat) (block_root : Root) (sample_id : SampleId)
    : M (gset Item) :=
  filter_loop fuel block_root sample_id [] (9 # 10)%Q ∅ ∅.

End RatedList.

(** ** Notions used to state the properties *)

Section Specification.

Implicit Types (s : Node) (ns : gmap NodeId NodeRecord).

(** A computation is read-only when the state it ends in, by returning or
    by raising, is the state it started from. *)
Definition read_only {A} (m : M A) : Prop :=
  ∀ s, match m s with
       | Ret _ s' => s' = s
       | Raise _ s' => s' = s
       | OutOfFuel => True
       end.

(** The state a call leaves behind, whether it returned or raised. *)
Definition final_state {A} (o : outcome A) s' : Prop :=
  match o with
  | Ret _ s1 => s1 = s'
  | Raise _ s1 => s1 = s'
  | OutOfFuel => False
  end.

(** *** The discovery graph seen from below *)

Definition parents_of ns n : list NodeId :=
  match ns !! n with
  | Some r => parents r
  | None => []
  end.

(** One step upward: [p] is listed among the parents of [n]. *)
Definition parent_step ns : relation NodeId :=
  λ n p, p ∈ parents_of ns n.

(** [a] is reached from [n] by following parent links, at least one. *)
Definition ancestor ns (n a : NodeId) : Prop := tc (parent_step ns) n a.

(** No infinite chain of parent links starts at [n]; in a finite graph,
    no cycle is reachable upward from [n]. *)
Definition acyclic_above ns (n : NodeId) : Prop := sn (parent_step ns) n.

(** No ancestor of [n] is a dangling reference. *)
Definition ancestors_known ns (n : NodeId) : Prop :=
  ∀ a, ancestor ns n a → is_Some (ns !! a).

(** Every chain of parent links from [n] has fewer than [d] links. *)
Inductive height_le ns : nat → NodeId → Prop :=
  | height_le_intro d n :
      (∀ p, parent_step ns n p → height_le ns d p) →
      height_le ns (S d) n.

(** *** The ledger *)

(** [pair] is recorded under [a] in the dictionary [w] of the score
    keeper of [block_root]. *)
Definition recorded (w : ledger) s (block_root : Root) (a : NodeId)
    (pair : NodeId * SampleId) : Prop :=
  ∃ sk st, scores (dht s) !! block_root = Some sk
           ∧ ledger_get w sk !! a = Some st
           ∧ pair ∈ st.

(** The score keeper of [block_root] is [sk]; the rest is unchanged. *)
Definition put_score_keeper (block_root : Root) (sk : ScoreKeeper) s : Node :=
  with_scores s (<[block_root := sk]> (scores (dht s))).

(** The score keeper after the walk wrote [pair] under each of [vis]. *)
Definition add_pairs (w : ledger) (pair : NodeId * SampleId)
    (sk : ScoreKeeper) (vis : list NodeId) : ScoreKeeper :=
  foldl (λ k a, add_pair w a pair k) sk vis.

(** The ancestors one pass of the walk writes to, in order, and the next
    frontier; [None] for the frontier when the record of the last one
    written to is missing. *)
Fixpoint visit_all ns (l : list NodeId) (new_ancestors : gset NodeId)
    : list NodeId * option (gset NodeId) :=
  match l with
  | [] => ([], Some new_ancestors)
  | a :: l' =>
      match ns !! a with
      | None => ([a], None)
      | Some r =>
          let rest := visit_all ns l' (new_ancestors ∪ list_to_set (parents r)) in
          (a :: rest.1, rest.2)
      end
  end.

(** The ancestors the whole walk writes to, and whether it returns
    ([true]) or raises [KeyError] ([false]); [None] when the fuel does not
    suffice. *)
Fixpoint walk_trace (fuel : nat) ns (cur_ancestors : gset NodeId)
    : option (list NodeId * bool) :=
  match fuel with
  | 0 => None
  | S fuel' =>
      if decide (cur_ancestors = ∅) then Some ([], true)
      else
        let pass := visit_all ns (elements cur_ancestors) ∅ in
        match pass.2 with
        | None => Some (pass.1, false)
        | Some new_ancestors =>
            match walk_trace fuel' ns new_ancestors with
            | None => None
            | Some rest => Some (pass.1 ++ rest.1, rest.2)
            end
        end
  end.

(** Replies are among contacts, everywhere in the ledger. *)
Definition replies_within_contacts s : Prop :=
  ∀ (block_root : Root) sk a rs,
    scores (dht s) !! block_root = Some sk →
    descendants_replied sk !! a = Some rs →
    ∃ cs, descendants_contacted sk !! a = Some cs ∧ rs ⊆ cs.

(** The states reached from [s0] by calls of the two recording methods in
    which a reply is recorded only for a contact that was recorded before.
    A call that raises leaves its state behind as well.  The log lists the
    contacts recorded so far. *)
Inductive ledger_run s0 : list (Root * NodeId * SampleId) → Node → Prop :=
  | run_start : ledger_run s0 [] s0
  | run_request log s fuel block_root n sample_id s' :
      ledger_run s0 log s →
      final_state (on_request_score_update fuel block_root n sample_id s) s' →
      ledger_run s0 ((block_root, n, sample_id) :: log) s'
  | run_response log s fuel block_root n sample_id s' :
      ledger_run s0 log s →
      (block_root, n, sample_id) ∈ log →
      final_state (on_response_score_update fuel block_root n sample_id s) s' →
      ledger_run s0 log s'.

(** *** Links of the discovery graph *)

(** How many times [x] is listed in [l]. *)
Definition occurrences (x : NodeId) (l : list NodeId) : nat :=
  count_occ NodeId_eq_dec l x.

(** A node lists a child no more often than the child lists it as a
    parent; a child that has no record is listed by nobody. *)
Definition links_counted ns : Prop :=
  ∀ a ra b, ns !! a = Some ra →
    occurrences b (children ra) ≤ occurrences a (parents_of ns b).

(** The same, with one occurrence of [n] among the parents of [p] that is
    not matched by an occurrence of [p] among the children of [n]: the
    graph between the two statements that add or remove a link. *)
Definition links_counted_but (n p : NodeId) ns : Prop :=
  ∀ a ra b, ns !! a = Some ra →
    occurrences b (children ra) + (if decide (a = n ∧ b = p) then 1 else 0)
    ≤ occurrences a (parents_of ns b).

(** Link symmetry, one direction at a time. *)
Definition children_linked ns : Prop :=
  ∀ a ra b, ns !! a = Some ra → b ∈ children ra →
    ∃ rb, ns !! b = Some rb ∧ a ∈ parents rb.

Definition parents_linked ns : Prop :=
  ∀ b rb p, ns !! b = Some rb → p ∈ parents rb →
    ∃ rp, ns !! p = Some rp ∧ b ∈ children rp.

(** The states reached from a fresh node by calls of
    [on_get_peers_response], returned or raised. *)
Inductive peers_run (id : NodeId) : Node → Prop :=
  | peers_start : peers_run id (new_node id)
  | peers_step s n peers s' :
      peers_run id s →
      final_state (on_get_peers_response n peers s) s' →
      peers_run id s'.

(** No node of [ns'] without parents had parents, or no record, in [ns]. *)
Definition orphans_deleted ns ns' : Prop :=
  ∀ c rc', ns' !! c = Some rc' → parents rc' = [] →
    ∃ rc, ns !! c = Some rc ∧ parents rc = [].

(** No two consecutive entries of [l] are absent from [peers]. *)
Fixpoint no_adjacent_stale (peers l : list NodeId) : Prop :=
  match l with
  | x :: l' =>
      match l' with
      | y :: _ => (x ∈ peers ∨ y ∈ peers) ∧ no_adjacent_stale peers l'
      | [] => True
      end
  | [] => True
  end.

(** *** The custody index *)

(** [m] is registered as a holder of the sample [id]. *)
Definition holds s (id : SampleId) (m : NodeId) : Prop :=
  ∃ h, sample_mapping (dht s) !! id = Some h ∧ m ∈ h.

(** The index after [n] was added to, or removed from, the holders of
    [id]. *)
Definition add_holder (n : NodeId) sm (id : SampleId) : gmap SampleId (gset NodeId) :=
  <[id := default ∅ (sm !! id) ∪ {[ n ]}]> sm.

Definition remove_holder (n : NodeId) sm (id : SampleId) : gmap SampleId (gset NodeId) :=
  <[id := default ∅ (sm !! id) ∖ {[ n ]}]> sm.

(** *** Further notions for the discovery graph *)

(** Every record is stored under its own [node_id]. *)
Definition self_keyed ns : Prop :=
  ∀ k r, ns !! k = Some r → node_id r = k.

(** [p] is linked under [n]: [p] has a record that lists [n] among its
    parents, and the record of [n], if there is one, lists [p] among its
    children. *)
Definition linked_under ns (n p : NodeId) : Prop :=
  (∃ rp, ns !! p = Some rp ∧ n ∈ parents rp)
  ∧ ∀ r, ns !! n = Some r → p ∈ children r.

(** *** Further notions for the ledger *)

(** The recording method that writes to the dictionary [w]. *)
Definition record_update (w : ledger)
    : nat → Root → NodeId → SampleId → M unit :=
  match w with
  | Contacted => on_request_score_update
  | Replied => on_response_score_update
  end.

(** *** Further notions for the node score *)

(** The score [v] that the frontier of [compute_node_score] carries for
    the node [k]: the descendant score [q0] of [n] itself when [k] is a
    parent of [n], the descendant score of [k] when [k] is an ancestor
    further up. *)
Definition carried s (block_root : Root) (n : NodeId) (q0 : Q)
    (k : NodeId) (v : Q) : Prop :=
  parent_step (nodes (dht s)) n k ∧ v = q0
  ∨ ancestor (nodes (dht s)) n k
    ∧ compute_descendant_score block_root k s = Ret v s.

(** A best score: zero, or a score carried for a node that lists the
    local node among its parents. *)
Definition best_of s (block_root : Root) (n : NodeId) (q0 : Q) (q : Q) : Prop :=
  q = 0%Q
  ∨ ∃ k, carried s block_root n q0 k q
         ∧ parent_step (nodes (dht s)) k (own_id s).

End Specification.

(** ** A concrete network

    [L] is the local node, [A] the peer it reported, [B] a peer reported
    by [A]. *)

Module Scenario.

Definition L : NodeId := 0%N.
Definition A : NodeId := 1%N.
Definition B : NodeId := 2%N.
Definition root : Root := 7%N.
Definition sample : SampleId := 5%N.
Definition sample' : SampleId := 6%N.

(** The state after a call, returned or raised. *)
Definition after {T} (m : M T) (s : Node) : Node :=
  match m s with
  | Ret _ s' => s'
  | Raise _ s' => s'
  | OutOfFuel => s
  end.

(** [L] knows [A], and [A] reported [B]. *)
Definition chain : Node :=
  after (on_get_peers_response A [B])
    (after (on_get_peers_response L [A]) (new_node L)).

(** A request for [sample] was sent to [B]... *)
Definition chain_contacted : Node :=
  after (on_request_score_update 3 root B sample) chain.

(** ... and answered. *)
Definition chain_replied : Node :=
  after (on_response_score_update 3 root B sample) chain_contacted.

(** [B] then answers for a sample it was never asked for. *)
Definition chain_unasked : Node :=
  after (on_response_score_update 3 root B sample') chain_replied.

(** A fresh node that recorded a request sent to itself: the score keeper
    of [root] exists and is empty. *)
Definition lonely : Node :=
  after (on_request_score_update 3 root L sample) (new_node L).

(** [A] is registered as a holder of the samples it has custody of,
    which here is [sample] alone. *)
Definition custody (n : NodeId) : list SampleId := [sample].

Definition chain_custody : Node :=
  after (add_samples_on_entry custody A) chain_replied.

(** [A] leaves again: the entry of [sample] stays, with no holder. *)
Definition chain_vacated : Node :=
  after (remove_samples_on_exit custody A) chain_custody.

(** A longer chain: [B] reported [C], which was contacted and replied;
    [B] holds [sample]. *)
Definition C : NodeId := 3%N.

Definition long_chain : Node :=
  after (on_get_peers_response B [C]) chain.

Definition long_chain_replied : Node :=
  after (on_response_score_update 4 root C sample)
    (after (on_request_score_update 4 root C sample) long_chain).

Definition long_chain_custody : Node :=
  after (add_samples_on_entry custody B) long_chain_replied.

(** An identifier that iterates to itself alone. *)
Definition iter_self (n : NodeId) : option (list Item) := Some [n].

(** [L] then reports no peer at all: [A] loses its only parent and its
    record is deleted, while [B] still lists [A] as its parent. *)
Definition dangling : Node :=
  after (on_get_peers_response L []) chain.

(** [L] reports [A] again: [A] gets a new record, with no children,
    while [B] still lists [A] as its parent. *)
Definition relinked : Node :=
  after (on_get_peers_response L [A]) dangling.

(** Two nodes that reported each other: [L] lists [A] and [A] lists [L],
    so that the parents of [L] are [[A]] and the parents of [A] are
    [[L]]. *)
Definition mutual : Node :=
  after (on_get_peers_response A [L])
    (after (on_get_peers_response L [A]) (new_node L)).

(** [L] reported [A] and [B] at once, then reports no peer at all. *)
Definition two_peers : Node :=
  after (on_get_peers_response L [A; B]) (new_node L).

Definition two_peers_cleared : Node :=
  after (on_get_peers_response L []) two_peers.

(** In [mutual], [A] then reports no peer at all. *)
Definition orphaned_self : Node :=
  after (on_get_peers_response A []) mutual.

End Scenario.

Create HintDb read_only discriminated.

(** ** Properties *)

Section Properties.

Implicit Types (s : Node) (ns : gmap NodeId NodeRecord) (n a b : NodeId).

(** *** Scores *)

Lemma ratio_nonneg (r c : nat) : (0 <= ratio r c)%Q.
Proof. unfold ratio, Qle. simpl. lia. Qed.

Lemma ratio_le_1 (r c : nat) : r ≤ c → 0 < c → (ratio r c <= 1)%Q.
Proof.
  intros Hrc Hc. unfold ratio, Qle. simpl.
  lia.
Qed.

Lemma subscript_Some {K V} `{Countable K} (d : gmap K V) (k : K) (v : V) s :
  d !! k = Some v → subscript d k s = Ret v s.
Proof. intros Hk. unfold subscript. by rewrite Hk. Qed.

(** C1, as amended.  For a content root that has a score keeper and a
    node identifier that has an entry in the contacted dictionary:
    [compute_descendant_score] returns 0 when the contacted set is empty;
    when it is not, and the identifier has an entry in the replied
    dictionary too, it returns the number of replied pairs over the number
    of contacted pairs, which is at least 0, and at most 1 as soon as the
    replied pairs are among the contacted ones. *)
Theorem C1_descendant_score s (block_root : Root) n (sk : ScoreKeeper)
    (contacted : gset (NodeId * SampleId)) :
  scores (dht s) !! block_root = Some sk →
  descendants_contacted sk !! n = Some contacted →
  (size contacted = 0 →
     compute_descendant_score block_root n s = Ret 0%Q s) ∧
  (∀ replied : gset (NodeId * SampleId),
     0 < size contacted →
     descendants_replied sk !! n = Some replied →
     compute_descendant_score block_root n s
       = Ret (ratio (size replied) (size contacted)) s
     ∧ (0 <= ratio (size replied) (size contacted))%Q
     ∧ (replied ⊆ contacted →
        (ratio (size replied) (size contacted) <= 1)%Q)).
Proof.
  intros Hsk Hc. unfold compute_descendant_score, bind, get_scores, gets.
  rewrite (subscript_Some _ _ _ _ Hsk), (subscript_Some _ _ _ _ Hc).
  split.
  - intros Hz. destruct (decide (0 < size contacted)); [lia | done].
  - intros replied Hpos Hr.
    destruct (decide (0 < size contacted)); [| lia].
    rewrite (subscript_Some _ _ _ _ Hr). split; [done |].
    split; [apply ratio_nonneg |].
    intros Hsub. apply ratio_le_1; [| done]. by apply subseteq_size.
Qed.

(** *** Read-only computations *)

Lemma read_only_ret {T} (x : T) : read_only (ret x).
Proof. by intros s. Qed.

Lemma read_only_raise {T} (e : exn) : read_only (raise (A:=T) e).
Proof. by intros s. Qed.

Lemma read_only_timeout {T} : read_only (timeout (A:=T)).
Proof. by intros s. Qed.

Lemma read_only_gets {T} (f : Node → T) : read_only (gets f).
Proof. by intros s. Qed.

Lemma read_only_subscript {K V} `{Countable K} (d : gmap K V) (k : K) :
  read_only (subscript d k).
Proof. intros s. unfold subscript. by destruct (d !! k). Qed.

Lemma read_only_bind {T U} (m : M T) (k : T → M U) :
  read_only m → (∀ x, read_only (k x)) → read_only (bind m k).
Proof.
  intros Hm Hk s. unfold bind. specialize (Hm s).
  destruct (m s) as [x s1 | e s1 |]; subst; [apply Hk | done | done].
Qed.

Lemma read_only_for_fold {T U} (l : list T) (acc : U) (body : T → U → M U) :
  (∀ x acc', read_only (body x acc')) → read_only (for_fold l acc body).
Proof.
  intros Hbody. revert acc.
  induction l as [| x l IH]; intros acc; simpl.
  - apply read_only_ret.
  - apply read_only_bind; [apply Hbody | intros acc'; apply IH].
Qed.

Hint Resolve read_only_ret read_only_raise read_only_timeout read_only_gets
  read_only_subscript : read_only.

Lemma read_only_compute_descendant_score (block_root : Root) n :
  read_only (compute_descendant_score block_root n).
Proof.
  unfold compute_descendant_score, get_scores.
  apply read_only_bind; [auto with read_only | intros sc].
  apply read_only_bind; [auto with read_only | intros sk].
  apply read_only_bind; [auto with read_only | intros contacted].
  case_decide; [| auto with read_only].
  apply read_only_bind; auto with read_only.
Qed.

Lemma read_only_visit_parent (block_root : Root) (score : Q) a acc :
  read_only (visit_parent block_root score a acc).
Proof.
  unfold visit_parent.
  apply read_only_bind; [auto with read_only | intros own].
  case_decide; [auto with read_only |].
  apply read_only_bind; [apply read_only_compute_descendant_score |].
  intros par_score. destruct (dict_get _ _); [| auto with read_only].
  destruct (Qlt_bool _ _); auto with read_only.
Qed.

Lemma read_only_visit_frontier_entry (block_root : Root) entry acc :
  read_only (visit_frontier_entry block_root entry acc).
Proof.
  unfold visit_frontier_entry, get_nodes.
  apply read_only_bind; [auto with read_only | intros ns'].
  apply read_only_bind; [auto with read_only | intros record].
  apply read_only_for_fold. intros parent acc'. apply read_only_visit_parent.
Qed.

Lemma read_only_path_loop fuel (block_root : Root) cur (best : Q) :
  read_only (path_loop fuel block_root cur best).
Proof.
  revert cur best. induction fuel as [| fuel IH]; intros cur best; simpl.
  - apply read_only_timeout.
  - destruct cur as [| entry cur]; [apply read_only_ret |].
    apply read_only_bind; [| intros r; apply IH].
    apply read_only_for_fold. intros x acc. apply read_only_visit_frontier_entry.
Qed.

Lemma read_only_compute_node_score fuel (block_root : Root) n :
  read_only (compute_node_score fuel block_root n).
Proof.
  unfold compute_node_score, get_nodes.
  apply read_only_bind; [apply read_only_compute_descendant_score |].
  intros score.
  apply read_only_bind; [auto with read_only | intros ns'].
  apply read_only_bind; [auto with read_only | intros record].
  apply read_only_path_loop.
Qed.

Lemma read_only_mean_minus_tenth (l : list (NodeId * Q)) :
  read_only (mean_minus_tenth l).
Proof. unfold mean_minus_tenth. destruct l; auto with read_only. Qed.

Section Filter.

Variable iter_node_id : NodeId → option (list Item).

Lemma read_only_filter_candidate fuel (block_root : Root) (t : Q)
    (evicted : gset NodeId) n acc :
  read_only (filter_candidate iter_node_id fuel block_root t evicted n acc).
Proof.
  unfold filter_candidate, get_nodes.
  apply read_only_bind; [apply read_only_compute_node_score |].
  intros score. case_decide.
  - destruct (iter_node_id n); auto with read_only.
  - destruct (Qlt_bool _ _); [| auto with read_only].
    apply read_only_bind; [auto with read_only | intros ns'].
    apply read_only_bind; auto with read_only.
Qed.

Lemma read_only_filter_loop fuel (block_root : Root) (sample_id : SampleId)
    seen (t : Q) (filtered : gset Item) (evicted : gset NodeId) :
  read_only
    (filter_loop iter_node_id fuel block_root sample_id seen t filtered evicted).
Proof.
  revert seen t filtered.
  induction fuel as [| fuel IH]; intros seen t filtered; simpl.
  - apply read_only_timeout.
  - case_decide; [| apply read_only_ret].
    unfold get_sample_mapping.
    apply read_only_bind; [auto with read_only | intros sm].
    apply read_only_bind; [auto with read_only | intros candidates].
    apply read_only_bind.
    { apply read_only_for_fold. intros x acc. apply read_only_filter_candidate. }
    intros r. apply read_only_bind; [apply read_only_mean_minus_tenth |].
    intros t'. apply IH.
Qed.

(** C9.  The three queries leave the state of the node as it was: the
    state in which [compute_descendant_score], [compute_node_score] or
    [filter_nodes] returns a value is the state it was called in. *)
Theorem C9_queries_read_only fuel (block_root : Root) n (sample_id : SampleId) s :
  (∀ q s', compute_descendant_score block_root n s = Ret q s' → s' = s)
  ∧ (∀ q s', compute_node_score fuel block_root n s = Ret q s' → s' = s)
  ∧ (∀ r s', filter_nodes iter_node_id fuel block_root sample_id s = Ret r s'
             → s' = s).
Proof.
  split; [| split].
  - intros q s' Hret.
    pose proof (read_only_compute_descendant_score block_root n s) as Hro.
    by rewrite Hret in Hro.
  - intros q s' Hret.
    pose proof (read_only_compute_node_score fuel block_root n s) as Hro.
    by rewrite Hret in Hro.
  - intros r s' Hret.
    pose proof (read_only_filter_loop fuel block_root sample_id
                  [] (9 # 10)%Q ∅ ∅ s) as Hro.
    unfold filter_nodes in Hret. by rewrite Hret in Hro.
Qed.

End Filter.

(** *** The ledger walk as a function of the graph *)

Lemma nodes_put_score_keeper (block_root : Root) sk s :
  nodes (dht (put_score_keeper block_root sk s)) = nodes (dht s).
Proof. done. Qed.

Lemma scores_put_score_keeper (block_root : Root) sk s :
  scores (dht (put_score_keeper block_root sk s))
  = <[block_root := sk]> (scores (dht s)).
Proof. done. Qed.

Lemma put_score_keeper_twice (block_root : Root) sk1 sk2 s :
  put_score_keeper block_root sk2 (put_score_keeper block_root sk1 s)
  = put_score_keeper block_root sk2 s.
Proof.
  unfold put_score_keeper, with_scores. simpl. by rewrite insert_insert_eq.
Qed.

Lemma put_score_keeper_id (block_root : Root) sk s :
  scores (dht s) !! block_root = Some sk →
  put_score_keeper block_root sk s = s.
Proof.
  intros Hsk. destruct s as [own [sm ns sc]]. unfold put_score_keeper, with_scores.
  simpl in *. by rewrite insert_id.
Qed.

Lemma for_fold_visit_ancestor (w : ledger) (block_root : Root)
    (pair : NodeId * SampleId) (l : list NodeId) sk (new : gset NodeId) s :
  scores (dht s) !! block_root = Some sk →
  for_fold l (sk, new) (visit_ancestor w block_root pair) s
  = let pass := visit_all (nodes (dht s)) l new in
    let sk' := add_pairs w pair sk pass.1 in
    match pass.2 with
    | Some new' => Ret (sk', new') (put_score_keeper block_root sk' s)
    | None => Raise KeyError (put_score_keeper block_root sk' s)
    end.
Proof.
  revert sk new s. induction l as [| a l IH]; intros sk new s Hsk; simpl.
  - unfold ret. by rewrite put_score_keeper_id.
  - unfold bind at 1. unfold visit_ancestor at 1.
    unfold bind, store_score_keeper, bind, get_scores, get_nodes, gets,
      set_scores, modify. simpl.
    fold (put_score_keeper block_root (add_pair w a pair sk) s).
    unfold subscript. destruct (nodes (dht s) !! a) as [r |] eqn:Hr; simpl.
    + rewrite IH by (rewrite scores_put_score_keeper; apply lookup_insert_eq).
      rewrite nodes_put_score_keeper.
      destruct (visit_all (nodes (dht s)) l (new ∪ list_to_set (parents r))) as [vis [new' |]];
        simpl; by rewrite put_score_keeper_twice.
    + done.
Qed.

Lemma ancestor_walk_run (fuel : nat) (w : ledger) (block_root : Root)
    (pair : NodeId * SampleId) sk (cur : gset NodeId) s :
  scores (dht s) !! block_root = Some sk →
  ancestor_walk fuel w block_root pair sk cur s
  = match walk_trace fuel (nodes (dht s)) cur with
    | None => OutOfFuel
    | Some (vis, ok) =>
        let s' := put_score_keeper block_root (add_pairs w pair sk vis) s in
        if ok then Ret tt s' else Raise KeyError s'
    end.
Proof.
  revert sk cur s. induction fuel as [| fuel IH]; intros sk cur s Hsk; [done |].
  simpl. destruct (decide (cur = ∅)) as [-> | Hne].
  { unfold ret. simpl. by rewrite put_score_keeper_id. }
  unfold bind. rewrite for_fold_visit_ancestor by done. simpl.
  destruct (visit_all (nodes (dht s)) (elements cur) ∅) as [vis [new' |]]; simpl; [| done].
  rewrite IH by (rewrite scores_put_score_keeper; apply lookup_insert_eq).
  rewrite nodes_put_score_keeper.
  destruct (walk_trace fuel (nodes (dht s)) new') as [[vis' ok] |]; simpl; [| done].
  rewrite put_score_keeper_twice. unfold add_pairs. by rewrite foldl_app.
Qed.

Lemma on_request_score_update_run (fuel : nat) (block_root : Root) n
    (sample_id : SampleId) s :
  on_request_score_update fuel block_root n sample_id s
  = match nodes (dht s) !! n with
    | None => Raise KeyError s
    | Some r =>
        let sk0 := default (mkScoreKeeper ∅ ∅) (scores (dht s) !! block_root) in
        match walk_trace fuel (nodes (dht s)) (list_to_set (parents r)) with
        | None => OutOfFuel
        | Some (vis, ok) =>
            let s' := put_score_keeper block_root
                        (add_pairs Contacted (n, sample_id) sk0 vis) s in
            if ok then Ret tt s' else Raise KeyError s'
        end
    end.
Proof.
  unfold on_request_score_update, bind, get_nodes, get_scores, gets, subscript.
  destruct (nodes (dht s) !! n) as [r |]; simpl; [| done].
  destruct (scores (dht s) !! block_root) as [sk |] eqn:Hsk; simpl.
  - rewrite Hsk. simpl. by rewrite ancestor_walk_run.
  - unfold set_scores, modify. simpl. rewrite lookup_insert_eq. simpl.
    fold (put_score_keeper block_root (mkScoreKeeper ∅ ∅) s).
    rewrite ancestor_walk_run
      by (rewrite scores_put_score_keeper; apply lookup_insert_eq).
    rewrite nodes_put_score_keeper.
    destruct (walk_trace _ _ _) as [[vis ok] |]; [| done].
    simpl. by rewrite put_score_keeper_twice.
Qed.

Lemma on_response_score_update_run (fuel : nat) (block_root : Root) n
    (sample_id : SampleId) s :
  on_response_score_update fuel block_root n sample_id s
  = match nodes (dht s) !! n with
    | None => Raise KeyError s
    | Some r =>
        match scores (dht s) !! block_root with
        | None => Raise KeyError s
        | Some sk =>
            match walk_trace fuel (nodes (dht s)) (list_to_set (parents r)) with
            | None => OutOfFuel
            | Some (vis, ok) =>
                let s' := put_score_keeper block_root
                            (add_pairs Replied (n, sample_id) sk vis) s in
                if ok then Ret tt s' else Raise KeyError s'
            end
        end
    end.
Proof.
  unfold on_response_score_update, bind, get_nodes, get_scores, gets, subscript.
  destruct (nodes (dht s) !! n) as [r |]; simpl; [| done].
  destruct (scores (dht s) !! block_root) as [sk |] eqn:Hsk; simpl; [| done].
  by rewrite ancestor_walk_run.
Qed.

(** *** What the walk visits *)

Lemma walk_trace_S (fuel : nat) ns (cur : gset NodeId) :
  walk_trace (S fuel) ns cur
  = if decide (cur = ∅) then Some ([], true)
    else
      let pass := visit_all ns (elements cur) ∅ in
      match pass.2 with
      | None => Some (pass.1, false)
      | Some new_ancestors =>
          match walk_trace fuel ns new_ancestors with
          | None => None
          | Some rest => Some (pass.1 ++ rest.1, rest.2)
          end
      end.
Proof. done. Qed.

Lemma walk_trace_more_fuel (fuel fuel' : nat) ns (cur : gset NodeId) r :
  fuel ≤ fuel' → walk_trace fuel ns cur = Some r → walk_trace fuel' ns cur = Some r.
Proof.
  revert fuel' cur r. induction fuel as [| fuel IH]; intros fuel' cur r Hle Hw; [done |].
  destruct fuel' as [| fuel']; [lia |]. simpl in *.
  destruct (decide (cur = ∅)); [done |].
  destruct (visit_all ns (elements cur) ∅).2 as [new' |]; [| done].
  destruct (walk_trace fuel ns new') as [rest |] eqn:Hrest; [| done].
  by rewrite (IH fuel' new' rest) by (done || lia).
Qed.

Lemma walk_trace_deterministic (fuel fuel' : nat) ns (cur : gset NodeId) r r' :
  walk_trace fuel ns cur = Some r → walk_trace fuel' ns cur = Some r' → r = r'.
Proof.
  intros Hr Hr'.
  apply (walk_trace_more_fuel _ (fuel `max` fuel')) in Hr; [| lia].
  apply (walk_trace_more_fuel _ (fuel `max` fuel')) in Hr'; [| lia].
  congruence.
Qed.

Lemma visit_all_known ns (l : list NodeId) (new : gset NodeId) :
  (∀ a, a ∈ l → is_Some (ns !! a)) →
  ∃ new', visit_all ns l new = (l, Some new')
          ∧ ∀ p, p ∈ new' ↔ p ∈ new ∨ ∃ a, a ∈ l ∧ parent_step ns a p.
Proof.
  revert new. induction l as [| a l IH]; intros new Hknown; simpl.
  - exists new. split; [done |]. intros p. split; [by left |].
    intros [Hp | (a & Ha & _)]; [done | by apply elem_of_nil in Ha].
  - destruct (Hknown a) as [r Hr]; [left |]. rewrite Hr.
    destruct (IH (new ∪ list_to_set (parents r))) as (new' & Hv & Hnew').
    { intros a' Ha'. apply Hknown. by right. }
    exists new'. rewrite Hv. split; [done |].
    intros p. rewrite Hnew', elem_of_union, elem_of_list_to_set.
    unfold parent_step, parents_of. split.
    + intros [[Hp | Hp] | (a' & Ha' & Hp)].
      * by left.
      * right. exists a. rewrite Hr. split; [left | done].
      * right. exists a'. split; [by right | done].
    + intros [Hp | (a' & Ha' & Hp)]; [by left; left |].
      apply elem_of_cons in Ha' as [-> | Ha'].
      * rewrite Hr in Hp. by left; right.
      * right. by exists a'.
Qed.

Lemma height_le_mono ns (d d' : nat) n :
  height_le ns d n → d ≤ d' → height_le ns d' n.
Proof.
  intros Hh. revert d'. induction Hh as [d n _ IH]; intros d' Hle.
  destruct d' as [| d']; [lia |]. constructor. intros p Hp. apply IH; [done | lia].
Qed.

Lemma acyclic_above_height ns n :
  acyclic_above ns n → ∃ d, height_le ns d n.
Proof.
  unfold acyclic_above. induction 1 as [n _ IH].
  assert (∃ d, ∀ p, p ∈ parents_of ns n → height_le ns d p) as [d Hd].
  { assert (∀ p, p ∈ parents_of ns n → ∃ d, height_le ns d p) as Hall.
    { intros p Hp. by apply IH. }
    induction (parents_of ns n) as [| p l IHl].
    - exists 0. intros p Hp. by apply elem_of_nil in Hp.
    - destruct IHl as [d1 Hd1]; [intros q Hq; apply Hall; by right |].
      destruct (Hall p) as [d2 Hd2]; [left |].
      exists (d1 `max` d2). intros q Hq. apply elem_of_cons in Hq as [-> | Hq].
      + eapply height_le_mono; [done | lia].
      + eapply height_le_mono; [by apply Hd1 | lia]. }
  exists (S d). by constructor.
Qed.

Lemma walk_trace_terminates ns (d : nat) (cur : gset NodeId) :
  (∀ c, c ∈ cur → height_le ns d c) →
  (∀ c a, c ∈ cur → rtc (parent_step ns) c a → is_Some (ns !! a)) →
  ∃ vis, walk_trace (S d) ns cur = Some (vis, true)
         ∧ ∀ c a, c ∈ cur → rtc (parent_step ns) c a → a ∈ vis.
Proof.
  revert cur. induction d as [| d IH]; intros cur Hheight Hknown.
  - assert (cur = ∅) as ->.
    { apply set_eq. intros c. split; [| set_solver].
      intros Hc. specialize (Hheight c Hc). inversion Hheight. }
    exists []. split; [done |]. set_solver.
  - rewrite walk_trace_S. destruct (decide (cur = ∅)) as [-> | Hne].
    { exists []. split; [done |]. set_solver. }
    destruct (visit_all_known ns (elements cur) ∅) as (new' & Hv & Hnew').
    { intros a Ha. apply elem_of_elements in Ha. by apply (Hknown a a). }
    destruct (IH new') as (vis' & Hw & Hcover).
    { intros p Hp. apply Hnew' in Hp as [Hp | (c & Hc & Hstep)]; [set_solver |].
      apply elem_of_elements in Hc. specialize (Hheight c Hc).
      inversion Hheight; subst. auto. }
    { intros p a Hp Hrtc. apply Hnew' in Hp as [Hp | (c & Hc & Hstep)]; [set_solver |].
      apply elem_of_elements in Hc. apply (Hknown c a Hc).
      by eapply rtc_l. }
    exists (elements cur ++ vis'). rewrite Hv. cbn [fst snd]. rewrite Hw.
    split; [done |].
    intros c a Hc Hrtc. apply elem_of_app.
    apply rtc_inv in Hrtc as [-> | (p & Hstep & Hrtc)].
    + left. by apply elem_of_elements.
    + right. apply (Hcover p a); [| done].
      apply Hnew'. right. exists c. split; [by apply elem_of_elements | done].
Qed.

(** *** What the walk writes *)

Lemma ledger_get_set (w : ledger) sk d : ledger_get w (ledger_set w sk d) = d.
Proof. by destruct w. Qed.

Lemma ledger_get_set_other (w w' : ledger) sk d :
  w ≠ w' → ledger_get w' (ledger_set w sk d) = ledger_get w' sk.
Proof. by destruct w, w'. Qed.

Lemma ledger_get_add_pair (w : ledger) a (pair : NodeId * SampleId) sk a' :
  ledger_get w (add_pair w a pair sk) !! a'
  = if decide (a' = a)
    then Some (default ∅ (ledger_get w sk !! a) ∪ {[ pair ]})
    else ledger_get w sk !! a'.
Proof.
  unfold add_pair. rewrite ledger_get_set.
  destruct (decide (a' = a)) as [-> | Hne].
  - rewrite lookup_insert_eq. destruct (ledger_get w sk !! a) eqn:Ha; simpl.
    + by rewrite Ha.
    + by rewrite lookup_insert_eq.
  - rewrite lookup_insert_ne by done.
    destruct (ledger_get w sk !! a); [done |]. by rewrite lookup_insert_ne.
Qed.

Lemma ledger_get_add_pairs (w : ledger) (pair : NodeId * SampleId) sk vis a :
  ledger_get w (add_pairs w pair sk vis) !! a
  = if decide (a ∈ vis)
    then Some (default ∅ (ledger_get w sk !! a) ∪ {[ pair ]})
    else ledger_get w sk !! a.
Proof.
  revert sk. unfold add_pairs. induction vis as [| a0 vis IH]; intros sk; simpl.
  - destruct (decide (a ∈ [])) as [Hin | _]; [by apply elem_of_nil in Hin | done].
  - rewrite IH, !ledger_get_add_pair.
    destruct (decide (a ∈ a0 :: vis)) as [Hin | Hnin];
      destruct (decide (a ∈ vis)) as [Hin' | Hnin'];
      destruct (decide (a = a0)) as [-> | Hne]; simpl.
    + f_equal. by rewrite <- (assoc_L (∪)), (idemp_L (∪) {[ pair ]}).
    + done.
    + done.
    + apply elem_of_cons in Hin as [? | ?]; done.
    + destruct Hnin. left.
    + destruct Hnin. by right.
    + destruct Hnin. left.
    + done.
Qed.

Lemma ledger_get_add_pairs_other (w w' : ledger) (pair : NodeId * SampleId) sk vis :
  w ≠ w' → ledger_get w' (add_pairs w pair sk vis) = ledger_get w' sk.
Proof.
  intros Hne. revert sk. unfold add_pairs.
  induction vis as [| a0 vis IH]; intros sk; simpl; [done |].
  rewrite IH. unfold add_pair. by rewrite ledger_get_set_other.
Qed.

Lemma recorded_add_pairs (w : ledger) (block_root : Root)
    (pair : NodeId * SampleId) sk vis s a :
  a ∈ vis →
  recorded w (put_score_keeper block_root (add_pairs w pair sk vis) s)
    block_root a pair.
Proof.
  intros Ha. eexists _, _. split; [| split].
  - rewrite scores_put_score_keeper. apply lookup_insert_eq.
  - rewrite ledger_get_add_pairs. by rewrite decide_True.
  - apply elem_of_union. right. by apply elem_of_singleton.
Qed.

(** A walk only adds to the dictionary it writes to. *)
Lemma recorded_put_add_pairs (w w' : ledger) (block_root r : Root)
    (pair p : NodeId * SampleId) sk vis s a :
  (scores (dht s) !! block_root = Some sk
   ∨ scores (dht s) !! block_root = None ∧ sk = mkScoreKeeper ∅ ∅) →
  recorded w' s r a p →
  recorded w' (put_score_keeper block_root (add_pairs w pair sk vis) s) r a p.
Proof.
  intros Hsk (sk1 & st & Hsk1 & Hst & Hp).
  destruct (decide (r = block_root)) as [-> | Hne].
  - destruct Hsk as [Hsk | [Hsk _]]; [| congruence].
    assert (sk1 = sk) as -> by congruence.
    assert (w = w' ∨ w ≠ w') as [<- | Hw] by (destruct w, w'; auto).
    + exists (add_pairs w pair sk vis),
        (if decide (a ∈ vis) then st ∪ {[ pair ]} else st).
      split; [rewrite scores_put_score_keeper; apply lookup_insert_eq |].
      rewrite ledger_get_add_pairs, Hst. simpl.
      destruct (decide (a ∈ vis)); split; try done.
      apply elem_of_union. by left.
    + eexists _, st. split; [rewrite scores_put_score_keeper; apply lookup_insert_eq |].
      by rewrite ledger_get_add_pairs_other.
  - exists sk1, st. rewrite scores_put_score_keeper, lookup_insert_ne by done. done.
Qed.

(** *** C5: every ancestor is written to *)

Lemma ancestor_inv ns n a :
  ancestor ns n a → ∃ p, parent_step ns n p ∧ rtc (parent_step ns) p a.
Proof.
  unfold ancestor. intros Htc. inversion Htc as [? ? Hstep | ? p ? Hstep Hrest]; subst.
  - by exists a.
  - exists p. split; [done |]. by apply tc_rtc.
Qed.

Lemma parents_walk_terminates ns n r :
  ns !! n = Some r →
  acyclic_above ns n →
  ancestors_known ns n →
  ∃ fuel0 vis,
    (∀ fuel, fuel0 ≤ fuel →
       walk_trace fuel ns (list_to_set (parents r)) = Some (vis, true))
    ∧ ∀ a, ancestor ns n a → a ∈ vis.
Proof.
  intros Hr Hacyc Hknown.
  destruct (acyclic_above_height ns n Hacyc) as [d Hd].
  inversion Hd as [d' ? Hparents]; subst.
  assert (∀ c, c ∈ (list_to_set (parents r) : gset NodeId) → parent_step ns n c)
    as Hcur.
  { intros c Hc. apply elem_of_list_to_set in Hc.
    unfold parent_step, parents_of. by rewrite Hr. }
  destruct (walk_trace_terminates ns d' (list_to_set (parents r)))
    as (vis & Hw & Hcover).
  { intros c Hc. auto. }
  { intros c a Hc Hrtc. apply Hknown. eapply tc_rtc_r; [| done].
    apply tc_once. auto. }
  exists (S d'), vis. split.
  - intros fuel Hle. by apply (walk_trace_more_fuel (S d')).
  - intros a Ha. apply ancestor_inv in Ha as (p & Hstep & Hrtc).
    apply (Hcover p a); [| done]. apply elem_of_list_to_set.
    unfold parent_step, parents_of in Hstep. by rewrite Hr in Hstep.
Qed.

(** C5, as amended.  When [n] is in the node map, no infinite chain of
    parent links starts at [n], and every ancestor of [n] is in the node
    map, [on_request_score_update] returns, given enough fuel, in a state
    where the pair is recorded as contacted under every ancestor of [n];
    when the score keeper of the root exists already,
    [on_response_score_update] returns as well, in a state where the pair
    is recorded as replied under every ancestor of [n]. *)
Theorem C5_ancestors_recorded s (block_root : Root) n (sample_id : SampleId) :
  is_Some (nodes (dht s) !! n) →
  acyclic_above (nodes (dht s)) n →
  ancestors_known (nodes (dht s)) n →
  ∃ fuel0,
    (∀ fuel, fuel0 ≤ fuel →
       ∃ s', on_request_score_update fuel block_root n sample_id s = Ret tt s'
             ∧ ∀ a, ancestor (nodes (dht s)) n a →
                    recorded Contacted s' block_root a (n, sample_id))
    ∧ (is_Some (scores (dht s) !! block_root) →
       ∀ fuel, fuel0 ≤ fuel →
         ∃ s', on_response_score_update fuel block_root n sample_id s = Ret tt s'
               ∧ ∀ a, ancestor (nodes (dht s)) n a →
                      recorded Replied s' block_root a (n, sample_id)).
Proof.
  intros [r Hr] Hacyc Hknown.
  destruct (parents_walk_terminates _ n r Hr Hacyc Hknown)
    as (fuel0 & vis & Hw & Hcover).
  exists fuel0. split.
  - intros fuel Hle. rewrite on_request_score_update_run, Hr, (Hw fuel Hle).
    eexists. split; [done |]. intros a Ha. apply recorded_add_pairs. auto.
  - intros [sk Hsk] fuel Hle.
    rewrite on_response_score_update_run, Hr, Hsk, (Hw fuel Hle).
    eexists. split; [done |]. intros a Ha. apply recorded_add_pairs. auto.
Qed.

(** *** C8: replies stay within contacts *)

(** What a call of either recording method leaves behind: the state it
    was called in, or that state with the pair written under the
    ancestors a terminating walk visits. *)
Lemma on_request_final (fuel : nat) (block_root : Root) n
    (sample_id : SampleId) s s' :
  final_state (on_request_score_update fuel block_root n sample_id s) s' →
  s' = s ∧ nodes (dht s) !! n = None
  ∨ ∃ r vis ok,
      nodes (dht s) !! n = Some r
      ∧ walk_trace fuel (nodes (dht s)) (list_to_set (parents r)) = Some (vis, ok)
      ∧ s' = put_score_keeper block_root
               (add_pairs Contacted (n, sample_id)
                  (default (mkScoreKeeper ∅ ∅) (scores (dht s) !! block_root)) vis) s.
Proof.
  rewrite on_request_score_update_run.
  destruct (nodes (dht s) !! n) as [r |]; simpl; [| intros <-; by left].
  destruct (walk_trace _ _ _) as [[vis ok] |] eqn:Hw; [| done].
  intros Hfin. right. exists r, vis, ok. split; [done |]. split; [done |].
  by destruct ok.
Qed.

Lemma on_response_final (fuel : nat) (block_root : Root) n
    (sample_id : SampleId) s s' :
  final_state (on_response_score_update fuel block_root n sample_id s) s' →
  s' = s
  ∨ ∃ r sk vis ok,
      nodes (dht s) !! n = Some r
      ∧ scores (dht s) !! block_root = Some sk
      ∧ walk_trace fuel (nodes (dht s)) (list_to_set (parents r)) = Some (vis, ok)
      ∧ s' = put_score_keeper block_root
               (add_pairs Replied (n, sample_id) sk vis) s.
Proof.
  rewrite on_response_score_update_run.
  destruct (nodes (dht s) !! n) as [r |]; simpl; [| intros <-; by left].
  destruct (scores (dht s) !! block_root) as [sk |]; simpl; [| intros <-; by left].
  destruct (walk_trace _ _ _) as [[vis ok] |] eqn:Hw; [| done].
  intros Hfin. right. exists r, sk, vis, ok. repeat (split; [done |]).
  by destruct ok.
Qed.

Lemma default_score_keeper (block_root : Root) s :
  scores (dht s) !! block_root
    = Some (default (mkScoreKeeper ∅ ∅) (scores (dht s) !! block_root))
  ∨ scores (dht s) !! block_root = None
    ∧ default (mkScoreKeeper ∅ ∅) (scores (dht s) !! block_root)
      = mkScoreKeeper ∅ ∅.
Proof. destruct (scores (dht s) !! block_root); [by left | by right]. Qed.

Lemma replies_within_contacts_request (block_root : Root)
    (pair : NodeId * SampleId) vis s :
  replies_within_contacts s →
  replies_within_contacts
    (put_score_keeper block_root
       (add_pairs Contacted pair
          (default (mkScoreKeeper ∅ ∅) (scores (dht s) !! block_root)) vis) s).
Proof.
  intros Hinv r sk a rs Hsk Hrs. rewrite scores_put_score_keeper in Hsk.
  destruct (decide (r = block_root)) as [-> | Hne].
  - rewrite lookup_insert_eq in Hsk. injection Hsk as <-.
    change (descendants_replied ?k) with (ledger_get Replied k) in Hrs.
    rewrite ledger_get_add_pairs_other in Hrs by done.
    change (descendants_contacted ?k) with (ledger_get Contacted k).
    rewrite ledger_get_add_pairs.
    destruct (scores (dht s) !! block_root) as [sk0 |] eqn:Hsk0; simpl in *.
    + destruct (Hinv block_root sk0 a rs Hsk0 Hrs) as (cs & Hcs & Hsub).
      rewrite Hcs. simpl. destruct (decide (a ∈ vis)).
      * eexists. split; [done |]. by apply union_subseteq_l'.
      * by exists cs.
    + by rewrite lookup_empty in Hrs.
  - rewrite lookup_insert_ne in Hsk by done. eauto.
Qed.

Lemma replies_within_contacts_response (block_root : Root)
    (pair : NodeId * SampleId) sk vis s :
  scores (dht s) !! block_root = Some sk →
  (∀ a, a ∈ vis → recorded Contacted s block_root a pair) →
  replies_within_contacts s →
  replies_within_contacts
    (put_score_keeper block_root (add_pairs Replied pair sk vis) s).
Proof.
  intros Hsk0 Hlogged Hinv r sk' a rs Hsk Hrs. rewrite scores_put_score_keeper in Hsk.
  destruct (decide (r = block_root)) as [-> | Hne].
  - rewrite lookup_insert_eq in Hsk. injection Hsk as <-.
    change (descendants_replied ?k) with (ledger_get Replied k) in Hrs.
    rewrite ledger_get_add_pairs in Hrs.
    change (descendants_contacted ?k) with (ledger_get Contacted k).
    rewrite ledger_get_add_pairs_other by done. simpl in *.
    destruct (decide (a ∈ vis)) as [Hin | Hnin]; [| eauto].
    destruct (Hlogged a Hin) as (sk1 & st & Hsk1 & Hst & Hp).
    assert (sk1 = sk) as -> by congruence. simpl in Hst.
    exists st. split; [done |]. injection Hrs as <-.
    apply union_least; [| by apply singleton_subseteq_l].
    destruct (descendants_replied sk !! a) as [rs0 |] eqn:Hrs0; simpl.
    + destruct (Hinv block_root sk a rs0 Hsk0 Hrs0) as (cs & Hcs & Hsub).
      by assert (cs = st) as -> by congruence.
    + apply empty_subseteq.
  - rewrite lookup_insert_ne in Hsk by done. eauto.
Qed.

Lemma ledger_run_invariant s0 log s :
  replies_within_contacts s0 →
  ledger_run s0 log s →
  replies_within_contacts s
  ∧ nodes (dht s) = nodes (dht s0)
  ∧ ∀ (block_root : Root) n (sample_id : SampleId) r fuel vis ok a,
      (block_root, n, sample_id) ∈ log →
      nodes (dht s) !! n = Some r →
      walk_trace fuel (nodes (dht s)) (list_to_set (parents r)) = Some (vis, ok) →
      a ∈ vis →
      recorded Contacted s block_root a (n, sample_id).
Proof.
  intros Hinit Hrun.
  induction Hrun as [| log s fuel block_root n sample_id s' Hrun (Hinv & Hns & Hlog) Hfin
                     | log s fuel block_root n sample_id s' Hrun (Hinv & Hns & Hlog) Hin Hfin].
  - split; [done |]. split; [done |]. intros ? ? ? ? ? ? ? ? Hin.
    by apply elem_of_nil in Hin.
  - apply on_request_final in Hfin
      as [[-> Hnone] | (r & vis & ok & Hr & Hw & ->)].
    + split; [done |]. split; [done |].
      intros root1 n1 sample1 r1 fuel1 vis1 ok1 a Hin Hr1 Hw1 Ha.
      apply elem_of_cons in Hin as [[= -> -> ->] | Hin]; [congruence | eauto].
    + split; [by apply replies_within_contacts_request |].
      split; [done |].
      intros root1 n1 sample1 r1 fuel1 vis1 ok1 a Hin Hr1 Hw1 Ha.
      rewrite nodes_put_score_keeper in Hr1, Hw1.
      apply elem_of_cons in Hin as [[= -> -> ->] | Hin].
      * assert (r1 = r) as -> by congruence.
        assert ((vis1, ok1) = (vis, ok)) as [= -> ->]
          by (eapply walk_trace_deterministic; eassumption).
        by apply recorded_add_pairs.
      * apply recorded_put_add_pairs; [apply default_score_keeper | eauto].
  - apply on_response_final in Hfin
      as [-> | (r & sk & vis & ok & Hr & Hsk & Hw & ->)]; [done |].
    split; [| split; [done |]].
    + apply replies_within_contacts_response; [done | | done].
      intros a Ha. eauto.
    + intros root1 n1 sample1 r1 fuel1 vis1 ok1 a Hin1 Hr1 Hw1 Ha.
      rewrite nodes_put_score_keeper in Hr1, Hw1.
      apply recorded_put_add_pairs; [by left | eauto].
Qed.

(** C8, as amended.  When every call of [on_response_score_update] is
    made for a root, node and sample for which [on_request_score_update]
    was called before, replies remain among contacts: the property carries
    over from the initial state to every state such calls lead to, whether
    they return or raise. *)
Theorem C8_replies_within_contacts s0 log s :
  replies_within_contacts s0 →
  ledger_run s0 log s →
  replies_within_contacts s.
Proof. intros Hinit Hrun. by apply (ledger_run_invariant s0 log s). Qed.

(** *** C10: who creates the score keeper *)

Lemma replied_after_request (block_root r : Root) (pair : NodeId * SampleId)
    vis s :
  let s' := put_score_keeper block_root
              (add_pairs Contacted pair
                 (default (mkScoreKeeper ∅ ∅) (scores (dht s) !! block_root)) vis) s in
  descendants_replied <$> scores (dht s') !! r
    = descendants_replied <$> scores (dht s) !! r
  ∨ r = block_root ∧ scores (dht s) !! r = None
    ∧ descendants_replied <$> scores (dht s') !! r = Some ∅.
Proof.
  cbv zeta. rewrite scores_put_score_keeper.
  destruct (decide (r = block_root)) as [-> | Hne].
  - rewrite lookup_insert_eq. simpl.
    change (descendants_replied ?k) with (ledger_get Replied k).
    rewrite ledger_get_add_pairs_other by done.
    destruct (scores (dht s) !! block_root) as [sk |]; [by left | by right].
  - left. by rewrite lookup_insert_ne.
Qed.

Lemma contacted_after_response (block_root r : Root) (pair : NodeId * SampleId)
    sk vis s :
  scores (dht s) !! block_root = Some sk →
  descendants_contacted
    <$> scores (dht (put_score_keeper block_root
                       (add_pairs Replied pair sk vis) s)) !! r
  = descendants_contacted <$> scores (dht s) !! r.
Proof.
  intros Hsk. rewrite scores_put_score_keeper.
  destruct (decide (r = block_root)) as [-> | Hne].
  - rewrite lookup_insert_eq, Hsk. simpl.
    change (descendants_contacted ?k) with (ledger_get Contacted k).
    by rewrite ledger_get_add_pairs_other.
  - by rewrite lookup_insert_ne.
Qed.

(** C10, as amended.  Called with a root that has no score keeper and a
    node that is in the node map, [on_request_score_update] leaves a score
    keeper for the root that holds nothing but what its walk wrote to the
    fresh empty one, and it returns, given enough fuel, when no infinite
    chain of parent links starts at the node and every ancestor of the
    node is in the node map; whatever it is called with, it leaves every
    replied dictionary as it was.  Called with a root that has no score
    keeper, [on_response_score_update] raises [KeyError] in the state it
    was called in; whatever it is called with, it leaves every contacted
    dictionary as it was. *)
Theorem C10_score_keeper_creation (fuel : nat) (block_root : Root) n
    (sample_id : SampleId) s :
  (∀ s', final_state (on_request_score_update fuel block_root n sample_id s) s' →
     (scores (dht s) !! block_root = None →
      is_Some (nodes (dht s) !! n) →
      ∃ vis, scores (dht s') !! block_root
             = Some (add_pairs Contacted (n, sample_id) (mkScoreKeeper ∅ ∅) vis))
     ∧ ∀ r, descendants_replied <$> scores (dht s') !! r
              = descendants_replied <$> scores (dht s) !! r
            ∨ r = block_root ∧ scores (dht s) !! r = None
              ∧ descendants_replied <$> scores (dht s') !! r = Some ∅)
  ∧ (is_Some (nodes (dht s) !! n) →
     acyclic_above (nodes (dht s)) n →
     ancestors_known (nodes (dht s)) n →
     ∃ fuel0, ∀ fuel', fuel0 ≤ fuel' →
       ∃ s', on_request_score_update fuel' block_root n sample_id s = Ret tt s')
  ∧ (scores (dht s) !! block_root = None →
     on_response_score_update fuel block_root n sample_id s = Raise KeyError s)
  ∧ (∀ s', final_state (on_response_score_update fuel block_root n sample_id s) s' →
     ∀ r, descendants_contacted <$> scores (dht s') !! r
          = descendants_contacted <$> scores (dht s) !! r).
Proof.
  split; [| split; [| split]].
  - intros s' Hfin.
    apply on_request_final in Hfin
      as [[-> Hnone] | (r & vis & ok & Hr & Hw & ->)].
    + split; [| by left]. intros _ [r Hr]. congruence.
    + split; [| intros r'; apply replied_after_request].
      intros Hnone _. exists vis.
      rewrite scores_put_score_keeper, lookup_insert_eq. by rewrite Hnone.
  - intros [r Hr] Hacyc Hknown.
    destruct (parents_walk_terminates _ n r Hr Hacyc Hknown)
      as (fuel0 & vis & Hw & _).
    exists fuel0. intros fuel' Hle.
    rewrite on_request_score_update_run, Hr, (Hw fuel' Hle). by eexists.
  - intros Hnone. rewrite on_response_score_update_run.
    destruct (nodes (dht s) !! n); [| done]. by rewrite Hnone.
  - intros s' Hfin r.
    apply on_response_final in Hfin
      as [-> | (r' & sk & vis & ok & Hr & Hsk & Hw & ->)]; [done |].
    by apply contacted_after_response.
Qed.

(** *** The graph updates as functions of the node map *)

Lemma nodes_with_nodes s ns1 : nodes (dht (with_nodes s ns1)) = ns1.
Proof. done. Qed.

Lemma link_peer_run n (peer_id : NodeId) s :
  link_peer n peer_id s
  = let peer := default (mkNodeRecord peer_id [] []) (nodes (dht s) !! peer_id) in
    let ns1 := <[peer_id := with_parents peer (parents peer ++ [n])]> (nodes (dht s)) in
    match ns1 !! n with
    | None => Raise KeyError (with_nodes s ns1)
    | Some record =>
        Ret tt (with_nodes s
                  (<[n := with_children record (children record ++ [peer_id])]> ns1))
    end.
Proof.
  unfold link_peer, bind, get_nodes, gets, set_nodes, modify, subscript.
  destruct (nodes (dht s) !! peer_id) as [peer |] eqn:Hpeer; simpl.
  - rewrite Hpeer. simpl.
    by destruct (<[peer_id := _]> (nodes (dht s)) !! n).
  - rewrite lookup_insert_eq. simpl. rewrite insert_insert_eq.
    by destruct (<[peer_id := _]> (nodes (dht s)) !! n).
Qed.

Lemma unlink_child_run n (child_id : NodeId) s :
  unlink_child n child_id s
  = match nodes (dht s) !! n with
    | None => Raise KeyError s
    | Some record =>
        match list_remove child_id (children record) with
        | None => Raise ValueError s
        | Some cs =>
            let ns1 := <[n := with_children record cs]> (nodes (dht s)) in
            match ns1 !! child_id with
            | None => Raise KeyError (with_nodes s ns1)
            | Some child =>
                match list_remove n (parents child) with
                | None => Raise ValueError (with_nodes s ns1)
                | Some ps =>
                    let ns2 := <[child_id := with_parents child ps]> ns1 in
                    Ret cs (with_nodes s
                              (if decide (length ps = 0)
                               then delete child_id ns2 else ns2))
                end
            end
        end
    end.
Proof.
  unfold unlink_child, bind, get_nodes, gets, set_nodes, modify, subscript.
  destruct (nodes (dht s) !! n) as [record |]; simpl; [| done].
  destruct (list_remove child_id (children record)) as [cs |]; simpl; [| done].
  destruct (<[n := _]> (nodes (dht s)) !! child_id) as [child |]; simpl; [| done].
  destruct (list_remove n (parents child)) as [ps |]; simpl; [| done].
  rewrite lookup_insert_eq. simpl.
  by destruct (decide (length ps = 0)).
Qed.

Lemma for_each_cons {T} (x : T) (l : list T) (body : T → M unit) s :
  for_each (x :: l) body s
  = match body x s with
    | Ret _ s1 => for_each l body s1
    | Raise e s1 => Raise e s1
    | OutOfFuel => OutOfFuel
    end.
Proof.
  unfold for_each. simpl. unfold bind.
  by destruct (body x s) as [[] s1 | e s1 |].
Qed.

(** An invariant of the body is an invariant of the loop. *)
Lemma for_each_final {T} (P : Node → Prop) (l : list T) (body : T → M unit) :
  (∀ x s s', P s → final_state (body x s) s' → P s') →
  ∀ s s', P s → final_state (for_each l body s) s' → P s'.
Proof.
  intros Hbody. induction l as [| x l IH]; intros s s' HP Hfin.
  - simpl in Hfin. by subst.
  - rewrite for_each_cons in Hfin.
    destruct (body x s) as [[] s1 | e s1 |] eqn:Hx; [| | done].
    + apply (IH s1); [| done]. apply (Hbody x s); [done |]. by rewrite Hx.
    + simpl in Hfin. subst. apply (Hbody x s); [done |]. by rewrite Hx.
Qed.

Lemma unlink_loop_final (P : Node → Prop) n (peers : list NodeId) :
  (∀ c s s', P s → final_state (unlink_child n c s) s' → P s') →
  ∀ fuel lst i s s',
    P s → final_state (unlink_loop fuel n peers lst i s) s' → P s'.
Proof.
  intros Hbody. induction fuel as [| fuel IH]; intros lst i s s' HP Hfin; [done |].
  simpl in Hfin. destruct (lst !! i) as [c |]; [| simpl in Hfin; by subst].
  destruct (decide (c ∈ peers)); [by apply (IH lst (S i) s) |].
  unfold bind in Hfin.
  destruct (unlink_child n c s) as [lst' s1 | e s1 |] eqn:Hc; [| | done].
  - apply (IH lst' (S i) s1); [| done]. apply (Hbody c s); [done |]. by rewrite Hc.
  - simpl in Hfin. subst. apply (Hbody c s); [done |]. by rewrite Hc.
Qed.

Lemma on_get_peers_response_final (P : Node → Prop) n (peers : list NodeId) :
  (∀ p s s', P s → final_state (link_peer n p s) s' → P s') →
  (∀ c s s', P s → final_state (unlink_child n c s) s' → P s') →
  ∀ s s', P s → final_state (on_get_peers_response n peers s) s' → P s'.
Proof.
  intros Hlink Hunlink s s' HP Hfin.
  unfold on_get_peers_response, bind in Hfin.
  destruct (for_each peers (link_peer n) s) as [[] s1 | e s1 |] eqn:Hlinks;
    [| | done].
  - assert (P s1) as HP1.
    { apply (for_each_final P peers (link_peer n) Hlink s); [done |].
      by rewrite Hlinks. }
    unfold get_nodes, gets, subscript in Hfin.
    destruct (nodes (dht s1) !! n) as [record |]; [| simpl in Hfin; by subst].
    unfold ret in Hfin. cbv beta iota in Hfin.
    by eapply (unlink_loop_final P n peers Hunlink).
  - simpl in Hfin. subst.
    apply (for_each_final P peers (link_peer n) Hlink s); [done |].
    by rewrite Hlinks.
Qed.

(** *** Counting links *)

Lemma occurrences_app (x : NodeId) (l l' : list NodeId) :
  occurrences x (l ++ l') = occurrences x l + occurrences x l'.
Proof. apply count_occ_app. Qed.

Lemma occurrences_singleton (x y : NodeId) :
  occurrences x [y] = if decide (y = x) then 1 else 0.
Proof.
  unfold occurrences. simpl.
  destruct (NodeId_eq_dec y x), (decide (y = x)); done.
Qed.

Lemma occurrences_pos (x : NodeId) (l : list NodeId) :
  x ∈ l ↔ 0 < occurrences x l.
Proof. rewrite list_elem_of_In. apply count_occ_In. Qed.

Lemma list_remove_occurrences (x : NodeId) (l l' : list NodeId) :
  list_remove x l = Some l' →
  occurrences x l = S (occurrences x l')
  ∧ ∀ y, y ≠ x → occurrences y l' = occurrences y l.
Proof.
  revert l'. induction l as [| z l IH]; intros l' Hrm; [done |].
  simpl in Hrm. unfold occurrences in *.
  destruct (decide (x = z)) as [<- | Hne].
  - injection Hrm as <-. split.
    + by rewrite count_occ_cons_eq.
    + intros y Hy. by rewrite count_occ_cons_neq.
  - destruct (list_remove x l) as [r |]; [| done]. injection Hrm as <-.
    destruct (IH r eq_refl) as [Hx Hy]. split.
    + by rewrite !count_occ_cons_neq.
    + intros y Hyx. simpl. destruct (NodeId_eq_dec z y); auto.
Qed.

Lemma list_remove_length (x : NodeId) (l l' : list NodeId) :
  list_remove x l = Some l' → length l = S (length l').
Proof.
  revert l'. induction l as [| z l IH]; intros l' Hrm; [done |].
  simpl in Hrm. destruct (decide (x = z)); [by injection Hrm as <- |].
  destruct (list_remove x l) as [r |]; [| done]. injection Hrm as <-.
  simpl. by rewrite (IH r).
Qed.

Lemma parents_of_insert ns (p : NodeId) (r : NodeRecord) b :
  parents_of (<[p := r]> ns) b
  = if decide (b = p) then parents r else parents_of ns b.
Proof.
  unfold parents_of. destruct (decide (b = p)) as [-> | Hne].
  - by rewrite lookup_insert_eq.
  - by rewrite lookup_insert_ne.
Qed.

Lemma parents_of_delete ns (c : NodeId) b :
  parents_of (delete c ns) b = if decide (b = c) then [] else parents_of ns b.
Proof.
  unfold parents_of. destruct (decide (b = c)) as [-> | Hne].
  - by rewrite lookup_delete_eq.
  - by rewrite lookup_delete_ne.
Qed.

Lemma parents_of_default ns (p : NodeId) :
  parents (default (mkNodeRecord p [] []) (ns !! p)) = parents_of ns p.
Proof. unfold parents_of. by destruct (ns !! p). Qed.

Lemma links_counted_but_weaken (n p : NodeId) ns :
  links_counted_but n p ns → links_counted ns.
Proof. intros Hbut a ra b Ha. specialize (Hbut a ra b Ha). lia. Qed.

Lemma links_add_parent n (p : NodeId) ns :
  let peer := default (mkNodeRecord p [] []) (ns !! p) in
  links_counted ns →
  links_counted_but n p (<[p := with_parents peer (parents peer ++ [n])]> ns).
Proof.
  intros peer Hinv a ra b Ha. rewrite parents_of_insert.
  assert (occurrences b (children ra) ≤ occurrences a (parents_of ns b)) as Hle.
  { destruct (decide (a = p)) as [-> | Hne].
    - rewrite lookup_insert_eq in Ha. injection Ha as <-. simpl.
      subst peer. destruct (ns !! p) as [r |] eqn:Hr; simpl.
      + by apply Hinv.
      + unfold occurrences. simpl. lia.
    - rewrite lookup_insert_ne in Ha by done. by apply Hinv. }
  destruct (decide (b = p)) as [-> | Hb].
  - simpl. subst peer. rewrite parents_of_default, occurrences_app,
      occurrences_singleton.
    destruct (decide (a = n ∧ p = p)) as [[-> _] | Hno].
    + rewrite decide_True by done. lia.
    + destruct (decide (n = a)) as [-> | _]; [by destruct Hno | lia].
  - rewrite decide_False by (by intros [_ ?]). lia.
Qed.

Lemma links_add_child n (p : NodeId) ns (r : NodeRecord) :
  links_counted_but n p ns →
  ns !! n = Some r →
  links_counted (<[n := with_children r (children r ++ [p])]> ns).
Proof.
  intros Hbut Hr a ra b Ha.
  assert (parents_of (<[n := with_children r (children r ++ [p])]> ns) b
          = parents_of ns b) as ->.
  { rewrite parents_of_insert. destruct (decide (b = n)) as [-> | _]; [| done].
    unfold parents_of. by rewrite Hr. }
  destruct (decide (a = n)) as [-> | Hne].
  - rewrite lookup_insert_eq in Ha. injection Ha as <-. simpl.
    rewrite occurrences_app, occurrences_singleton.
    specialize (Hbut n r b Hr).
    destruct (decide (p = b)) as [-> | Hpb].
    + by rewrite decide_True in Hbut by done.
    + lia.
  - rewrite lookup_insert_ne in Ha by done. specialize (Hbut a ra b Ha). lia.
Qed.

Lemma links_remove_child n (c : NodeId) ns (r : NodeRecord) cs :
  links_counted ns →
  ns !! n = Some r →
  list_remove c (children r) = Some cs →
  links_counted_but n c (<[n := with_children r cs]> ns).
Proof.
  intros Hinv Hr Hrm a ra b Ha.
  assert (parents_of (<[n := with_children r cs]> ns) b = parents_of ns b) as ->.
  { rewrite parents_of_insert. destruct (decide (b = n)) as [-> | _]; [| done].
    unfold parents_of. by rewrite Hr. }
  destruct (list_remove_occurrences c (children r) cs Hrm) as [Hc Hother].
  destruct (decide (a = n)) as [-> | Hne].
  - rewrite lookup_insert_eq in Ha. injection Ha as <-. simpl.
    specialize (Hinv n r b Hr).
    destruct (decide (n = n ∧ b = c)) as [[_ ->] | Hno]; [lia |].
    rewrite Hother; [lia |]. intros ->. by destruct Hno.
  - rewrite lookup_insert_ne in Ha by done.
    rewrite decide_False by (by intros [? _]). specialize (Hinv a ra b Ha). lia.
Qed.

Lemma links_remove_parent n (c : NodeId) ns (rc : NodeRecord) ps :
  links_counted_but n c ns →
  ns !! c = Some rc →
  list_remove n (parents rc) = Some ps →
  links_counted (<[c := with_parents rc ps]> ns).
Proof.
  intros Hbut Hrc Hrm a ra b Ha. rewrite parents_of_insert.
  destruct (list_remove_occurrences n (parents rc) ps Hrm) as [Hn Hother].
  assert (∃ ra0, ns !! a = Some ra0 ∧ children ra0 = children ra) as (ra0 & Ha0 & <-).
  { destruct (decide (a = c)) as [-> | Hne].
    - rewrite lookup_insert_eq in Ha. injection Ha as <-. by exists rc.
    - rewrite lookup_insert_ne in Ha by done. by exists ra. }
  specialize (Hbut a ra0 b Ha0).
  destruct (decide (b = c)) as [-> | Hb].
  - simpl. unfold parents_of in Hbut. rewrite Hrc in Hbut.
    destruct (decide (a = n)) as [-> | Hne].
    + rewrite decide_True in Hbut by done. lia.
    + rewrite Hother by done. lia.
  - lia.
Qed.

Lemma links_delete (c : NodeId) ns (rc : NodeRecord) :
  links_counted ns →
  ns !! c = Some rc →
  parents rc = [] →
  links_counted (delete c ns).
Proof.
  intros Hinv Hrc Hps a ra b Ha. rewrite parents_of_delete.
  apply lookup_delete_Some in Ha as [Hne Ha]. specialize (Hinv a ra b Ha).
  destruct (decide (b = c)) as [-> | _]; [| done].
  unfold parents_of in Hinv. by rewrite Hrc, Hps in Hinv.
Qed.

Lemma links_counted_link_peer n (p : NodeId) s s' :
  links_counted (nodes (dht s)) →
  final_state (link_peer n p s) s' →
  links_counted (nodes (dht s')).
Proof.
  intros Hinv Hfin. rewrite link_peer_run in Hfin. cbv zeta in Hfin.
  pose proof (links_add_parent n p (nodes (dht s)) Hinv) as Hbut.
  cbv zeta in Hbut.
  destruct (<[p := _]> (nodes (dht s)) !! n) as [record |] eqn:Hn;
    simpl in Hfin; subst s'; rewrite nodes_with_nodes.
  - by apply (links_add_child n p).
  - by apply (links_counted_but_weaken n p).
Qed.

Lemma links_counted_unlink_child n (c : NodeId) s s' :
  links_counted (nodes (dht s)) →
  final_state (unlink_child n c s) s' →
  links_counted (nodes (dht s')).
Proof.
  intros Hinv Hfin. rewrite unlink_child_run in Hfin.
  destruct (nodes (dht s) !! n) as [record |] eqn:Hn;
    [| simpl in Hfin; by subst].
  destruct (list_remove c (children record)) as [cs |] eqn:Hcs;
    [| simpl in Hfin; by subst].
  cbv zeta in Hfin.
  pose proof (links_remove_child n c _ record cs Hinv Hn Hcs) as Hbut.
  destruct (<[n := _]> (nodes (dht s)) !! c) as [child |] eqn:Hc;
    [| simpl in Hfin; subst; by apply (links_counted_but_weaken n c)].
  destruct (list_remove n (parents child)) as [ps |] eqn:Hps;
    [| simpl in Hfin; subst; by apply (links_counted_but_weaken n c)].
  pose proof (links_remove_parent n c _ child ps Hbut Hc Hps) as Hinv'.
  simpl in Hfin. subst s'. rewrite nodes_with_nodes.
  destruct (decide (length ps = 0)) as [Hlen | _]; [| done].
  apply (links_delete c _ (with_parents child ps)); [done | | ].
  - apply lookup_insert_eq.
  - simpl. by apply nil_length_inv.
Qed.

Lemma links_counted_new_node (id : NodeId) :
  links_counted (nodes (dht (new_node id))).
Proof.
  intros a ra b Ha. simpl in Ha.
  apply lookup_singleton_Some in Ha as [<- <-]. unfold occurrences. simpl. lia.
Qed.

Lemma links_counted_children_linked ns : links_counted ns → children_linked ns.
Proof.
  intros Hinv a ra b Ha Hb. specialize (Hinv a ra b Ha).
  apply occurrences_pos in Hb.
  assert (a ∈ parents_of ns b) as Hin by (apply occurrences_pos; lia).
  unfold parents_of in Hin. destruct (ns !! b) as [rb |]; [by exists rb |].
  by apply elem_of_nil in Hin.
Qed.

Lemma peers_run_links_counted (id : NodeId) s :
  peers_run id s → links_counted (nodes (dht s)).
Proof.
  induction 1 as [| s n peers s' _ IH Hfin]; [apply links_counted_new_node |].
  revert IH Hfin.
  apply (on_get_peers_response_final (λ s, links_counted (nodes (dht s)))).
  - intros p s1 s2. apply links_counted_link_peer.
  - intros c s1 s2. apply links_counted_unlink_child.
Qed.

(** C6, as amended.  In every state reached from a freshly constructed
    node by calls of [on_get_peers_response], for every node [a] of the
    node map and every child [b] of [a], [b] is in the node map and [a]
    is among the parents of [b]. *)
Theorem C6_children_linked (id : NodeId) s :
  peers_run id s → children_linked (nodes (dht s)).
Proof.
  intros Hrun. by apply links_counted_children_linked, (peers_run_links_counted id).
Qed.

(** *** C7: what a call unlinks and deletes *)

(** What a returning [unlink_child] did: the record of [n] lost one
    occurrence of the child, the child lost one occurrence of [n], and
    nothing else changed in the lists. *)
Lemma unlink_child_Ret n (c : NodeId) s cs s' :
  unlink_child n c s = Ret cs s' →
  ∃ r, nodes (dht s) !! n = Some r
       ∧ list_remove c (children r) = Some cs
       ∧ (∀ r', nodes (dht s') !! n = Some r' → children r' = cs)
       ∧ ∀ x rx', nodes (dht s') !! x = Some rx' →
           ∃ rx, nodes (dht s) !! x = Some rx
                 ∧ occurrences n (parents rx') + occurrences x (children r)
                   = occurrences n (parents rx) + occurrences x cs.
Proof.
  rewrite unlink_child_run.
  destruct (nodes (dht s) !! n) as [r |] eqn:Hn; [| done].
  destruct (list_remove c (children r)) as [cs0 |] eqn:Hcs; [| done].
  cbv zeta.
  destruct (<[n := _]> (nodes (dht s)) !! c) as [child |] eqn:Hc; [| done].
  destruct (list_remove n (parents child)) as [ps |] eqn:Hps; [| done].
  intros [= <- <-]. exists r. split; [done |]. split; [done |].
  destruct (list_remove_occurrences c (children r) cs0 Hcs) as [Hcc Hcother].
  destruct (list_remove_occurrences n (parents child) ps Hps) as [Hnn _].
  set (ns2 := <[c := with_parents child ps]>
                (<[n := with_children r cs0]> (nodes (dht s)))).
  assert (∀ x rx', (if decide (length ps = 0) then delete c ns2 else ns2) !! x
                   = Some rx' → ns2 !! x = Some rx') as Hkept.
  { intros x rx'. destruct (decide (length ps = 0)); [| done].
    intros Hx. by apply lookup_delete_Some in Hx as [_ Hx]. }
  rewrite nodes_with_nodes. split.
  - intros r' Hr'. apply Hkept in Hr'. subst ns2.
    destruct (decide (c = n)) as [-> | Hne].
    + rewrite lookup_insert_eq in Hr', Hc. injection Hc as <-.
      by injection Hr' as <-.
    + rewrite lookup_insert_ne, lookup_insert_eq in Hr' by done.
      by injection Hr' as <-.
  - intros x rx' Hx. apply Hkept in Hx. subst ns2.
    destruct (decide (x = c)) as [-> | Hxc].
    + rewrite lookup_insert_eq in Hx. injection Hx as <-. simpl.
      destruct (decide (c = n)) as [-> | Hne].
      * rewrite lookup_insert_eq in Hc. injection Hc as <-.
        exists r. split; [done |]. simpl in Hnn. lia.
      * rewrite lookup_insert_ne in Hc by done.
        exists child. split; [done |]. lia.
    + rewrite lookup_insert_ne in Hx by done.
      destruct (decide (x = n)) as [-> | Hxn].
      * rewrite lookup_insert_eq in Hx. injection Hx as <-.
        exists r. split; [done |]. simpl. by rewrite Hcother.
      * rewrite lookup_insert_ne in Hx by done.
        exists rx'. split; [done |]. by rewrite Hcother.
Qed.

Lemma unlink_child_terminates n (c : NodeId) s :
  unlink_child n c s ≠ OutOfFuel.
Proof.
  rewrite unlink_child_run.
  destruct (nodes (dht s) !! n) as [r |]; [| done].
  destruct (list_remove c (children r)) as [cs |]; [| done]. cbv zeta.
  destruct (<[n := _]> (nodes (dht s)) !! c) as [child |]; [| done].
  by destruct (list_remove n (parents child)).
Qed.

Lemma unlink_loop_terminates n (peers : list NodeId) (fuel : nat) lst (i : nat) s :
  0 < fuel →
  length lst < i + fuel →
  (∀ r, nodes (dht s) !! n = Some r → children r = lst) →
  unlink_loop fuel n peers lst i s ≠ OutOfFuel.
Proof.
  revert lst i s. induction fuel as [| fuel IH]; intros lst i s Hpos Hlen Hsync; [lia |].
  simpl. destruct (lst !! i) as [c |] eqn:Hi; [| done].
  apply lookup_lt_Some in Hi.
  destruct (decide (c ∈ peers)).
  - apply IH; [lia | lia | done].
  - unfold bind.
    destruct (unlink_child n c s) as [cs s1 | e s1 |] eqn:Hc; [| done |].
    + destruct (unlink_child_Ret n c s cs s1 Hc) as (r & Hr & Hcs & Hsync1 & _).
      apply list_remove_length in Hcs. rewrite (Hsync r Hr) in Hcs.
      apply IH; [lia | lia | done].
    + by apply unlink_child_terminates in Hc.
Qed.

Lemma link_peers_terminates n (peers : list NodeId) s :
  for_each peers (link_peer n) s ≠ OutOfFuel.
Proof.
  revert s. induction peers as [| p peers IH]; intros s; [done |].
  rewrite for_each_cons, link_peer_run. cbv zeta.
  destruct (<[p := _]> (nodes (dht s)) !! n); [apply IH | done].
Qed.

Lemma on_get_peers_response_terminates n (peers : list NodeId) s :
  on_get_peers_response n peers s ≠ OutOfFuel.
Proof.
  unfold on_get_peers_response, bind.
  destruct (for_each peers (link_peer n) s) as [[] s1 | e s1 |] eqn:Hlinks;
    [| done | by apply link_peers_terminates in Hlinks].
  unfold get_nodes, gets, subscript.
  destruct (nodes (dht s1) !! n) as [record |] eqn:Hn; [| done].
  unfold ret. cbv beta iota.
  apply unlink_loop_terminates; [lia | lia |].
  intros r Hr. congruence.
Qed.

(** Orphans. *)
Lemma orphans_deleted_refl ns : orphans_deleted ns ns.
Proof. intros c rc' Hc Hps. by exists rc'. Qed.

Lemma orphans_deleted_trans ns1 ns2 ns3 :
  orphans_deleted ns1 ns2 → orphans_deleted ns2 ns3 → orphans_deleted ns1 ns3.
Proof.
  intros H12 H23 c rc3 Hc Hps.
  destruct (H23 c rc3 Hc Hps) as (rc2 & Hc2 & Hps2). eauto.
Qed.

Lemma orphans_deleted_link_peer n (p : NodeId) s s' :
  final_state (link_peer n p s) s' →
  orphans_deleted (nodes (dht s)) (nodes (dht s')).
Proof.
  rewrite link_peer_run. cbv zeta.
  set (peer := default (mkNodeRecord p [] []) (nodes (dht s) !! p)).
  set (ns1 := <[p := with_parents peer (parents peer ++ [n])]> (nodes (dht s))).
  assert (orphans_deleted (nodes (dht s)) ns1) as H1.
  { intros c rc' Hc Hps. subst ns1.
    destruct (decide (c = p)) as [-> | Hne].
    - rewrite lookup_insert_eq in Hc. injection Hc as <-. simpl in Hps.
      by apply app_nil in Hps as [_ ?].
    - rewrite lookup_insert_ne in Hc by done. by exists rc'. }
  destruct (ns1 !! n) as [record |] eqn:Hn; simpl; intros <-;
    rewrite nodes_with_nodes; [| done].
  apply (orphans_deleted_trans _ ns1); [done |].
  intros c rc' Hc Hps. destruct (decide (c = n)) as [-> | Hne].
  - rewrite lookup_insert_eq in Hc. injection Hc as <-. by exists record.
  - rewrite lookup_insert_ne in Hc by done. by exists rc'.
Qed.

Lemma orphans_deleted_unlink_child n (c : NodeId) s s' :
  final_state (unlink_child n c s) s' →
  orphans_deleted (nodes (dht s)) (nodes (dht s')).
Proof.
  rewrite unlink_child_run.
  destruct (nodes (dht s) !! n) as [r |] eqn:Hn;
    [| simpl; intros <-; apply orphans_deleted_refl].
  destruct (list_remove c (children r)) as [cs |] eqn:Hcs;
    [| simpl; intros <-; apply orphans_deleted_refl].
  cbv zeta. set (ns1 := <[n := with_children r cs]> (nodes (dht s))).
  assert (orphans_deleted (nodes (dht s)) ns1) as H1.
  { intros x rx' Hx Hps. subst ns1. destruct (decide (x = n)) as [-> | Hne].
    - rewrite lookup_insert_eq in Hx. injection Hx as <-. by exists r.
    - rewrite lookup_insert_ne in Hx by done. by exists rx'. }
  destruct (ns1 !! c) as [child |] eqn:Hc; [| simpl; by intros <-].
  destruct (list_remove n (parents child)) as [ps |] eqn:Hps;
    [| simpl; by intros <-].
  simpl. intros <-. rewrite nodes_with_nodes.
  apply (orphans_deleted_trans _ ns1); [done |].
  intros x rx' Hx Hnil.
  assert (x ≠ c ∧ ns1 !! x = Some rx') as [_ ?]; [| by exists rx'].
  destruct (decide (length ps = 0)) as [Hlen | Hlen].
  - apply lookup_delete_Some in Hx as [Hne Hx].
    by rewrite lookup_insert_ne in Hx.
  - destruct (decide (x = c)) as [-> | Hne].
    + rewrite lookup_insert_eq in Hx. injection Hx as <-. simpl in Hnil.
      by subst ps.
    + by rewrite lookup_insert_ne in Hx.
Qed.

Lemma orphans_deleted_on_get_peers_response n (peers : list NodeId) s s' :
  final_state (on_get_peers_response n peers s) s' →
  orphans_deleted (nodes (dht s)) (nodes (dht s')).
Proof.
  apply (on_get_peers_response_final
           (λ s1, orphans_deleted (nodes (dht s)) (nodes (dht s1)))).
  - intros p s1 s2 H1 Hfin.
    eapply orphans_deleted_trans; [done | by eapply orphans_deleted_link_peer].
  - intros c s1 s2 H1 Hfin.
    eapply orphans_deleted_trans; [done | by eapply orphans_deleted_unlink_child].
  - apply orphans_deleted_refl.
Qed.

(** The first loop, when it returns: the peers are appended to the
    children of [n], and the parents of a node that is not among the
    peers are left alone. *)
Lemma link_peers_Ret n (peers : list NodeId) s s1 (r : NodeRecord) :
  for_each peers (link_peer n) s = Ret tt s1 →
  nodes (dht s) !! n = Some r →
  (∃ r1, nodes (dht s1) !! n = Some r1 ∧ children r1 = children r ++ peers)
  ∧ ∀ c rc1, c ∉ peers → nodes (dht s1) !! c = Some rc1 →
      ∃ rc, nodes (dht s) !! c = Some rc ∧ parents rc1 = parents rc.
Proof.
  revert s r. induction peers as [| p peers IH]; intros s r Hret Hr.
  - injection Hret as <-. split.
    + exists r. by rewrite app_nil_r.
    + intros c rc1 _ Hc. by exists rc1.
  - rewrite for_each_cons, link_peer_run in Hret. cbv zeta in Hret.
    set (peer := default (mkNodeRecord p [] []) (nodes (dht s) !! p)) in *.
    set (ns1 := <[p := with_parents peer (parents peer ++ [n])]> (nodes (dht s))) in *.
    assert (∃ record, ns1 !! n = Some record
                      ∧ children record = children r
                      ∧ (p ≠ n → record = r)) as (record & Hn & Hch & Hsame).
    { subst ns1. destruct (decide (p = n)) as [-> | Hne].
      - rewrite lookup_insert_eq. eexists. split; [done |]. split; [| done].
        subst peer. by rewrite Hr.
      - rewrite lookup_insert_ne by done. by exists r. }
    rewrite Hn in Hret.
    set (r2 := with_children record (children record ++ [p])) in *.
    destruct (IH _ r2 Hret) as [(r1 & Hr1 & Hch1) Hothers].
    { rewrite nodes_with_nodes. apply lookup_insert_eq. }
    split.
    + exists r1. split; [done |]. rewrite Hch1. subst r2. simpl.
      by rewrite Hch, <- app_assoc.
    + intros c rc1 Hc Hc1.
      apply not_elem_of_cons in Hc as [Hcp Hc].
      destruct (Hothers c rc1 Hc Hc1) as (rc2 & Hc2 & Hps).
      rewrite nodes_with_nodes in Hc2.
      destruct (decide (c = n)) as [-> | Hcn].
      * rewrite lookup_insert_eq in Hc2. injection Hc2 as <-.
        exists r. split; [done |]. rewrite Hps. subst r2. simpl.
        by rewrite Hsame by done.
      * rewrite lookup_insert_ne in Hc2 by done. subst ns1.
        rewrite lookup_insert_ne in Hc2 by done. by exists rc2.
Qed.

Lemma list_remove_first (c : NodeId) (l1 l2 : list NodeId) :
  c ∉ l1 → list_remove c (l1 ++ c :: l2) = Some (l1 ++ l2).
Proof.
  induction l1 as [| x l1 IH]; intros Hc; simpl.
  - by rewrite decide_True.
  - apply not_elem_of_cons in Hc as [Hne Hc].
    rewrite decide_False by done. by rewrite IH.
Qed.

Lemma filter_peers_all (peers l : list NodeId) :
  Forall (.∈ peers) l → filter (.∈ peers) l = l.
Proof.
  induction 1 as [| x l Hx _ IH]; [done |].
  by rewrite filter_cons_True, IH.
Qed.

Lemma no_adjacent_stale_tail (peers : list NodeId) x l :
  no_adjacent_stale peers (x :: l) → no_adjacent_stale peers l.
Proof. destruct l as [| y l]; [done |]. simpl. tauto. Qed.

(** The second loop, when it returns from a list in which no two
    consecutive entries are stale: it keeps the entries that are peers,
    and what a child lost among its parents is what [n] lost among its
    children. *)
Lemma unlink_loop_sparse n (peers : list NodeId) (fuel : nat)
    (l1 l2 : list NodeId) s s' :
  unlink_loop fuel n peers (l1 ++ l2) (length l1) s = Ret tt s' →
  (∀ r, nodes (dht s) !! n = Some r → children r = l1 ++ l2) →
  Forall (.∈ peers) l1 →
  no_adjacent_stale peers l2 →
  (∀ r', nodes (dht s') !! n = Some r' →
     children r' = filter (.∈ peers) (l1 ++ l2))
  ∧ ∀ x rx', nodes (dht s') !! x = Some rx' →
      ∃ rx, nodes (dht s) !! x = Some rx
            ∧ occurrences n (parents rx') + occurrences x (l1 ++ l2)
              = occurrences n (parents rx)
                + occurrences x (filter (.∈ peers) (l1 ++ l2)).
Proof.
  revert l1 l2 s. induction fuel as [| fuel IH]; intros l1 l2 s Hret Hsync Hl1 Hl2;
    [done |].
  simpl in Hret.
  destruct l2 as [| c l2].
  - rewrite lookup_ge_None_2 in Hret by (rewrite length_app; simpl; lia).
    injection Hret as <-. rewrite app_nil_r in *.
    rewrite filter_peers_all by done. split; [done |].
    intros x rx' Hx. by exists rx'.
  - rewrite list_lookup_middle in Hret by done.
    destruct (decide (c ∈ peers)) as [Hc | Hc].
    + rewrite (cons_middle c l1 l2), app_assoc in *.
      replace (S (length l1)) with (length (l1 ++ [c])) in Hret
        by (rewrite length_app; simpl; lia).
      apply (IH (l1 ++ [c]) l2 s Hret Hsync).
      * apply Forall_app. split; [done |]. by apply Forall_singleton.
      * by apply no_adjacent_stale_tail in Hl2.
    + unfold bind in Hret.
      destruct (unlink_child n c s) as [cs s1 | e s1 |] eqn:Hunlink; [| done | done].
      destruct (unlink_child_Ret n c s cs s1 Hunlink)
        as (r & Hr & Hcs & Hsync1 & Hcons).
      rewrite (Hsync r Hr) in Hcs, Hcons.
      rewrite list_remove_first in Hcs
        by (intros Hin; by apply (Forall_forall (.∈ peers) l1) in Hin).
      injection Hcs as <-.
      assert (filter (.∈ peers) (l1 ++ c :: l2) = filter (.∈ peers) (l1 ++ l2))
        as Hfilter.
      { by rewrite !filter_app, filter_cons_False. }
      rewrite Hfilter.
      assert ((∀ r', nodes (dht s') !! n = Some r' →
                 children r' = filter (.∈ peers) (l1 ++ l2))
              ∧ ∀ x rx', nodes (dht s') !! x = Some rx' →
                  ∃ rx, nodes (dht s1) !! x = Some rx
                        ∧ occurrences n (parents rx') + occurrences x (l1 ++ l2)
                          = occurrences n (parents rx)
                            + occurrences x (filter (.∈ peers) (l1 ++ l2)))
        as [Hchildren Hrest].
      { destruct l2 as [| y l2].
        - rewrite app_nil_r in *.
          destruct fuel as [| fuel]; [done |]. simpl in Hret.
          rewrite lookup_ge_None_2 in Hret by lia. injection Hret as <-.
          rewrite filter_peers_all by done. split; [done |].
          intros x rx' Hx. by exists rx'.
        - assert (y ∈ peers) as Hy by (simpl in Hl2; tauto).
          rewrite (cons_middle y l1 l2), app_assoc in *.
          replace (S (length l1)) with (length (l1 ++ [y])) in Hret
            by (rewrite length_app; simpl; lia).
          apply (IH (l1 ++ [y]) l2 s1 Hret Hsync1).
          + apply Forall_app. split; [done |]. by apply Forall_singleton.
          + by do 2 apply no_adjacent_stale_tail in Hl2. }
      split; [done |].
      intros x rx' Hx.
      destruct (Hrest x rx' Hx) as (rx1 & Hx1 & Heq1).
      destruct (Hcons x rx1 Hx1) as (rx & Hx0 & Heq0).
      exists rx. split; [done |]. lia.
Qed.

(** C7, as amended.  A call of [on_get_peers_response] returns or raises.
    Whichever it does, a node that is in the node map afterwards with no
    parents had none before: the call deletes every node it leaves
    without parents, the local node's own id included.  When it returns,
    [n] was in the node map, and no two consecutive entries of the
    children list of [n], with the peers appended, are absent from the
    peers, then the children of [n] are the entries that are among the
    peers, and a node absent from the peers that is still in the node map
    has lost as many occurrences of [n] among its parents as it had
    occurrences among the children of [n]. *)
Theorem C7_unlink_and_delete n (peers : list NodeId) s :
  on_get_peers_response n peers s ≠ OutOfFuel
  ∧ (∀ s', final_state (on_get_peers_response n peers s) s' →
       orphans_deleted (nodes (dht s)) (nodes (dht s')))
  ∧ ∀ r s',
      nodes (dht s) !! n = Some r →
      no_adjacent_stale peers (children r ++ peers) →
      on_get_peers_response n peers s = Ret tt s' →
      (∀ r', nodes (dht s') !! n = Some r' →
         children r' = filter (.∈ peers) (children r ++ peers))
      ∧ ∀ c rc', c ∉ peers → nodes (dht s') !! c = Some rc' →
          ∃ rc, nodes (dht s) !! c = Some rc
                ∧ occurrences n (parents rc') + occurrences c (children r)
                  = occurrences n (parents rc).
Proof.
  split; [apply on_get_peers_response_terminates |].
  split; [intros s'; apply orphans_deleted_on_get_peers_response |].
  intros r s' Hr Hsparse Hret.
  unfold on_get_peers_response, bind in Hret.
  destruct (for_each peers (link_peer n) s) as [[] s1 | e s1 |] eqn:Hlinks;
    [| done | done].
  destruct (link_peers_Ret n peers s s1 r Hlinks Hr)
    as [(r1 & Hr1 & Hch1) Hothers].
  unfold get_nodes, gets, subscript in Hret. rewrite Hr1 in Hret.
  unfold ret in Hret. cbv beta iota in Hret. rewrite Hch1 in Hret.
  destruct (unlink_loop_sparse n peers _ [] (children r ++ peers) s1 s' Hret)
    as [Hchildren Hcons]; [intros r' Hr'; simpl; congruence | done | done |].
  simpl in *. split; [done |].
  intros c rc' Hc Hc'.
  destruct (Hcons c rc' Hc') as (rc1 & Hc1 & Heq).
  destruct (Hothers c rc1 Hc Hc1) as (rc & Hc0 & Hps).
  exists rc. split; [done |]. rewrite <- Hps.
  assert (occurrences c (filter (.∈ peers) (children r ++ peers)) = 0) as Hzero.
  { destruct (occurrences c (filter (.∈ peers) (children r ++ peers))) eqn:Hocc;
      [done |].
    assert (c ∈ filter (.∈ peers) (children r ++ peers)) as Hin
      by (apply occurrences_pos; lia).
    by apply list_elem_of_filter in Hin as [? _]. }
  assert (occurrences c peers = 0) as Hzero'.
  { destruct (occurrences c peers) eqn:Hocc; [done |].
    destruct Hc. apply occurrences_pos. lia. }
  rewrite occurrences_app in Heq. lia.
Qed.

End Properties.

(** ** The properties on the concrete network *)

Section Concrete.

Import Scenario.

(** C1 applied to [A] once [B] has been contacted and has replied. *)
Lemma C1_descendant_score_witness :
  scores (dht chain_replied) !! root
    = Some (mkScoreKeeper
              {[ A := {[ (B, sample) ]}; L := {[ (B, sample) ]} ]}
              {[ A := {[ (B, sample) ]}; L := {[ (B, sample) ]} ]})
  ∧ compute_descendant_score root A chain_replied = Ret 1%Q chain_replied.
Proof.
  split; [vm_compute; reflexivity |].
  refine (proj1 (proj2 (C1_descendant_score chain_replied root A
            (mkScoreKeeper
               {[ A := {[ (B, sample) ]}; L := {[ (B, sample) ]} ]}
               {[ A := {[ (B, sample) ]}; L := {[ (B, sample) ]} ]})
            {[ (B, sample) ]} _ _) {[ (B, sample) ]} _ _)).
  - vm_compute; reflexivity.
  - vm_compute; reflexivity.
  - vm_compute; lia.
  - vm_compute; reflexivity.
Defined.

(** C1 fails as stated.  In [lonely] the score keeper of [root] exists
    and [L] has no contacted entry, yet the call raises [KeyError] instead
    of returning 0; in [chain_unasked] the score of [A] is 2. *)
Lemma C1_counterexample :
  (scores (dht lonely) !! root = Some (mkScoreKeeper ∅ ∅)
   ∧ compute_descendant_score root L lonely = Raise KeyError lonely)
  ∧ (compute_descendant_score root A chain_unasked = Ret (2 # 1)%Q chain_unasked
     ∧ ¬ (2 # 1 <= 1)%Q).
Proof.
  repeat split; try (vm_compute; reflexivity).
  intros Hle. vm_compute in Hle. by apply Hle.
Qed.

(** C2 fails on the code.  In [chain_replied] the only parent of [A] is
    the local node [L], the descendant score of [A] is 1, and the node
    score of [A] is 0 whatever the fuel. *)
Theorem C2_direct_peer_scores_zero (k : nat) :
  own_id chain_replied = L
  ∧ parents <$> nodes (dht chain_replied) !! A = Some [L]
  ∧ compute_descendant_score root A chain_replied = Ret 1%Q chain_replied
  ∧ compute_node_score (2 + k) root A chain_replied = Ret 0%Q chain_replied.
Proof. repeat split; reflexivity. Qed.

(** C3 fails on the code.  [A] is the only holder of [sample] and its
    node score is below the initial threshold: the first pass raises
    [TypeError] on [evicted_nodes.update(self.dht.nodes[node_id])],
    whatever a node identifier iterates to and whatever the fuel. *)
Theorem C3_filter_raises (iter : NodeId → option (list Item)) (k : nat) :
  sample_mapping (dht chain_custody) !! sample = Some {[ A ]}
  ∧ filter_nodes iter (3 + k) root sample chain_custody
    = Raise TypeError chain_custody.
Proof. split; reflexivity. Qed.

Lemma mutual_nodes :
  nodes (dht mutual)
  = {[ L := mkNodeRecord L [A] [A]; A := mkNodeRecord A [L] [L] ]}.
Proof. vm_compute. reflexivity. Qed.

Lemma mutual_walk_diverges (fuel : nat) (w : ledger) (pair : NodeId * SampleId)
    (sk : ScoreKeeper) (cur : gset NodeId) (s : Node) :
  nodes (dht s) = nodes (dht mutual) →
  cur = {[ A ]} ∨ cur = {[ L ]} →
  ancestor_walk fuel w root pair sk cur s = OutOfFuel.
Proof.
  revert sk cur s. induction fuel as [| fuel IH]; intros sk cur s Hns Hcur; [done |].
  simpl. destruct (decide (cur = ∅)) as [-> | _].
  { destruct Hcur as [Hc | Hc]; symmetry in Hc; by apply non_empty_singleton_L in Hc. }
  unfold bind at 1.
  destruct Hcur as [-> | ->]; rewrite elements_singleton; simpl;
    unfold bind, visit_ancestor, bind, store_score_keeper, bind, get_scores,
      get_nodes, gets, set_scores, modify; simpl; rewrite Hns, mutual_nodes.
  - rewrite (subscript_Some _ _ (mkNodeRecord A [L] [L])) by reflexivity.
    simpl. apply IH; [simpl; by rewrite Hns, mutual_nodes | right; set_solver].
  - rewrite (subscript_Some _ _ (mkNodeRecord L [A] [A])) by reflexivity.
    simpl. apply IH; [simpl; by rewrite Hns, mutual_nodes | left; set_solver].
Qed.

(** C4 fails on the code.  With the parents of [L] being [[A]] and the
    parents of [A] being [[L]], recording a contact of [L] raises no error:
    the walk alternates between the two frontiers and no amount of fuel
    lets it return or raise. *)
Theorem C4_cycle_never_returns (fuel : nat) :
  parents <$> nodes (dht mutual) !! L = Some [A]
  ∧ parents <$> nodes (dht mutual) !! A = Some [L]
  ∧ on_request_score_update fuel root L sample mutual = OutOfFuel.
Proof.
  split; [reflexivity |]. split; [reflexivity |].
  unfold on_request_score_update, bind, get_nodes, gets.
  rewrite mutual_nodes.
  rewrite (subscript_Some _ _ (mkNodeRecord L [A] [A])) by reflexivity.
  unfold get_scores, gets. simpl.
  apply mutual_walk_diverges; [reflexivity | left; set_solver].
Qed.

(** C9 applied to [B] in the longer chain, where the three queries
    return. *)
Lemma C9_queries_read_only_witness :
  (compute_descendant_score root B long_chain_custody
     = Ret 1%Q long_chain_custody
   ∧ compute_node_score 4 root B long_chain_custody
     = Ret 1%Q long_chain_custody
   ∧ filter_nodes iter_self 4 root sample long_chain_custody
     = Ret {[ B ]} long_chain_custody)
  ∧ (long_chain_custody = long_chain_custody
     ∧ long_chain_custody = long_chain_custody
     ∧ long_chain_custody = long_chain_custody).
Proof.
  split; [repeat split; vm_compute; reflexivity |].
  pose proof (C9_queries_read_only iter_self 4 root B sample
                long_chain_custody) as (Hd & Hn & Hf).
  split; [| split].
  - apply (Hd 1%Q). vm_compute; reflexivity.
  - apply (Hn 1%Q). vm_compute; reflexivity.
  - apply (Hf {[ B ]}). vm_compute; reflexivity.
Defined.

(** The parent links of the concrete graphs, followed by hand. *)
Ltac no_parent H :=
  unfold flip, parent_step, parents_of in H; vm_compute in H;
  repeat (apply elem_of_cons in H as [H | H]; [subst |]);
  try (by apply elem_of_nil in H).

Lemma chain_acyclic_above_B : acyclic_above (nodes (dht chain)) B.
Proof.
  constructor. intros p Hp. no_parent Hp.
  constructor. intros p Hp. no_parent Hp.
  constructor. intros p Hp. no_parent Hp.
Qed.

Lemma chain_ancestors_known_B : ancestors_known (nodes (dht chain)) B.
Proof.
  intros a Ha. apply ancestor_inv in Ha as (p & Hp & Hrtc). no_parent Hp.
  apply rtc_inv in Hrtc as [<- | (p & Hp & Hrtc)]; [by eexists |]. no_parent Hp.
  apply rtc_inv in Hrtc as [<- | (p & Hp & Hrtc)]; [by eexists |]. no_parent Hp.
Qed.

Lemma dangling_acyclic_above_B : acyclic_above (nodes (dht dangling)) B.
Proof.
  constructor. intros p Hp. no_parent Hp.
  constructor. intros p Hp. no_parent Hp.
Qed.

(** C5 applied to [B] in the chain. *)
Lemma C5_ancestors_recorded_witness :
  is_Some (nodes (dht chain) !! B)
  ∧ acyclic_above (nodes (dht chain)) B
  ∧ ancestors_known (nodes (dht chain)) B
  ∧ ∃ fuel0,
      (∀ fuel, fuel0 ≤ fuel →
         ∃ s', on_request_score_update fuel root B sample chain = Ret tt s'
               ∧ ∀ a, ancestor (nodes (dht chain)) B a →
                      recorded Contacted s' root a (B, sample))
      ∧ (is_Some (scores (dht chain) !! root) →
         ∀ fuel, fuel0 ≤ fuel →
           ∃ s', on_response_score_update fuel root B sample chain = Ret tt s'
                 ∧ ∀ a, ancestor (nodes (dht chain)) B a →
                        recorded Replied s' root a (B, sample)).
Proof.
  assert (is_Some (nodes (dht chain) !! B)) as Hin by (by eexists).
  split; [done |].
  split; [apply chain_acyclic_above_B |].
  split; [apply chain_ancestors_known_B |].
  exact (C5_ancestors_recorded chain root B sample Hin
           chain_acyclic_above_B chain_ancestors_known_B).
Defined.

(** C5 fails as stated.  In [dangling] the node [B] is in the node map
    and no chain of parent links from it is infinite, but its parent [A]
    has no record: the walk writes under [A] and raises [KeyError]. *)
Lemma C5_counterexample :
  is_Some (nodes (dht dangling) !! B)
  ∧ acyclic_above (nodes (dht dangling)) B
  ∧ nodes (dht dangling) !! A = None
  ∧ ∀ fuel s', on_request_score_update fuel root B sample dangling ≠ Ret tt s'.
Proof.
  split; [by eexists |]. split; [apply dangling_acyclic_above_B |].
  split; [reflexivity |].
  intros [| fuel] s'; [discriminate |].
  rewrite on_request_score_update_run. discriminate.
Qed.

Lemma chain_replies_within_contacts : replies_within_contacts chain.
Proof. intros r sk a rs Hsk. vm_compute in Hsk. discriminate. Qed.

Lemma chain_replied_run : ledger_run chain [(root, B, sample)] chain_replied.
Proof.
  eapply (run_response chain _ chain_contacted 3 root B sample).
  - eapply (run_request chain [] chain 3 root B sample); [constructor |].
    vm_compute. reflexivity.
  - left.
  - vm_compute. reflexivity.
Qed.

(** C8 applied to the contact of [B] followed by its reply. *)
Lemma C8_replies_within_contacts_witness :
  replies_within_contacts chain
  ∧ ledger_run chain [(root, B, sample)] chain_replied
  ∧ replies_within_contacts chain_replied.
Proof.
  split; [apply chain_replies_within_contacts |].
  split; [apply chain_replied_run |].
  exact (C8_replies_within_contacts chain [(root, B, sample)] chain_replied
           chain_replies_within_contacts chain_replied_run).
Defined.

(** C8 fails as stated.  Three calls that return lead from [chain] to
    [chain_unasked], where [(B, sample')] is among the replies recorded
    under [A] and not among the contacts. *)
Lemma C8_counterexample :
  on_request_score_update 3 root B sample chain = Ret tt chain_contacted
  ∧ on_response_score_update 3 root B sample chain_contacted
    = Ret tt chain_replied
  ∧ on_response_score_update 3 root B sample' chain_replied
    = Ret tt chain_unasked
  ∧ ¬ replies_within_contacts chain_unasked.
Proof.
  split; [vm_compute; reflexivity |].
  split; [vm_compute; reflexivity |].
  split; [vm_compute; reflexivity |].
  intros Hinv.
  destruct (Hinv root
              (mkScoreKeeper
                 {[ A := {[ (B, sample) ]}; L := {[ (B, sample) ]} ]}
                 {[ A := {[ (B, sample); (B, sample') ]};
                    L := {[ (B, sample); (B, sample') ]} ]})
              A {[ (B, sample); (B, sample') ]})
    as (cs & Hcs & Hsub); [vm_compute; reflexivity | vm_compute; reflexivity |].
  assert (Some cs = Some ({[ (B, sample) ]} : gset (NodeId * SampleId)))
    as [= ->] by (rewrite <- Hcs; vm_compute; reflexivity).
  assert ((B, sample') ∈ ({[ (B, sample) ]} : gset (NodeId * SampleId))) as Hin.
  { apply Hsub. apply elem_of_union. right. by apply elem_of_singleton. }
  apply elem_of_singleton in Hin. discriminate.
Qed.

(** C10 applied to the contact of [B] in the chain, then to its reply. *)
Lemma C10_score_keeper_creation_witness :
  (final_state (on_request_score_update 3 root B sample chain) chain_contacted
   ∧ scores (dht chain) !! root = None
   ∧ is_Some (nodes (dht chain) !! B)
   ∧ final_state (on_response_score_update 3 root B sample chain_contacted)
       chain_replied)
  ∧ (∃ vis, scores (dht chain_contacted) !! root
            = Some (add_pairs Contacted (B, sample) (mkScoreKeeper ∅ ∅) vis))
  ∧ (∃ fuel0, ∀ fuel', fuel0 ≤ fuel' →
       ∃ s', on_request_score_update fuel' root B sample chain = Ret tt s')
  ∧ on_response_score_update 3 root B sample chain = Raise KeyError chain
  ∧ ∀ r, descendants_contacted <$> scores (dht chain_replied) !! r
         = descendants_contacted <$> scores (dht chain_contacted) !! r.
Proof.
  assert (final_state (on_request_score_update 3 root B sample chain)
            chain_contacted) as Hreq by (vm_compute; reflexivity).
  assert (scores (dht chain) !! root = None) as Hnone by reflexivity.
  assert (is_Some (nodes (dht chain) !! B)) as Hin by (by eexists).
  assert (final_state (on_response_score_update 3 root B sample chain_contacted)
            chain_replied) as Hresp by (vm_compute; reflexivity).
  split; [done |].
  pose proof (C10_score_keeper_creation 3 root B sample chain)
    as (Hcreate & Hreturns & Hraises & _).
  pose proof (C10_score_keeper_creation 3 root B sample chain_contacted)
    as (_ & _ & _ & Hcontacted).
  split; [exact (proj1 (Hcreate chain_contacted Hreq) Hnone Hin) |].
  split; [exact (Hreturns Hin chain_acyclic_above_B chain_ancestors_known_B) |].
  split; [exact (Hraises Hnone) |].
  exact (Hcontacted chain_replied Hresp).
Defined.

(** C10 fails as stated.  The root has no score keeper in a fresh node;
    a request recorded for a node that is not in the node map raises
    [KeyError] in that very state: no score keeper is created. *)
Lemma C10_counterexample :
  scores (dht (new_node L)) !! root = None
  ∧ nodes (dht (new_node L)) !! B = None
  ∧ ∀ fuel, on_request_score_update fuel root B sample (new_node L)
            = Raise KeyError (new_node L).
Proof. repeat split. Qed.

Lemma chain_peers_run : peers_run L chain.
Proof.
  eapply (peers_step L _ A [B]).
  - eapply (peers_step L _ L [A]); [constructor |]. vm_compute. reflexivity.
  - vm_compute. reflexivity.
Qed.

Lemma relinked_peers_run : peers_run L relinked.
Proof.
  eapply (peers_step L dangling L [A]); [| vm_compute; reflexivity].
  eapply (peers_step L chain L []); [| vm_compute; reflexivity].
  apply chain_peers_run.
Qed.

(** C6 applied to the chain. *)
Lemma C6_children_linked_witness :
  peers_run L chain ∧ children_linked (nodes (dht chain)).
Proof.
  split; [apply chain_peers_run |].
  exact (C6_children_linked L chain chain_peers_run).
Defined.

(** C6 fails as stated.  Four calls lead from a fresh node to [relinked],
    where [A] is in the node map and is a parent of [B], while [B] is not
    a child of [A]. *)
Lemma C6_counterexample :
  peers_run L relinked
  ∧ nodes (dht relinked) !! B = Some (mkNodeRecord B [] [A])
  ∧ nodes (dht relinked) !! A = Some (mkNodeRecord A [] [L])
  ∧ ¬ parents_linked (nodes (dht relinked)).
Proof.
  split; [apply relinked_peers_run |].
  split; [reflexivity |]. split; [reflexivity |].
  intros Hsym.
  destruct (Hsym B (mkNodeRecord B [] [A]) A) as (rp & Hrp & Hin);
    [reflexivity | left |].
  assert (Some rp = Some (mkNodeRecord A [] [L])) as [= ->]
    by (rewrite <- Hrp; reflexivity).
  by apply elem_of_nil in Hin.
Qed.

(** C7 applied to [L] reporting no peer in the chain: [A] is unlinked and
    deleted. *)
Lemma C7_unlink_and_delete_witness :
  (final_state (on_get_peers_response L [] chain) dangling
   ∧ nodes (dht chain) !! L = Some (mkNodeRecord L [A] [])
   ∧ no_adjacent_stale [] ([A] ++ [])
   ∧ on_get_peers_response L [] chain = Ret tt dangling)
  ∧ orphans_deleted (nodes (dht chain)) (nodes (dht dangling))
  ∧ (∀ r', nodes (dht dangling) !! L = Some r' →
       children r' = filter (.∈ []) ([A] ++ []))
  ∧ ∀ c rc', c ∉ [] → nodes (dht dangling) !! c = Some rc' →
      ∃ rc, nodes (dht chain) !! c = Some rc
            ∧ occurrences L (parents rc') + occurrences c [A]
              = occurrences L (parents rc).
Proof.
  assert (final_state (on_get_peers_response L [] chain) dangling) as Hfin
    by (vm_compute; reflexivity).
  assert (nodes (dht chain) !! L = Some (mkNodeRecord L [A] [])) as HL
    by reflexivity.
  assert (no_adjacent_stale [] ([A] ++ [])) as Hsparse by exact I.
  assert (on_get_peers_response L [] chain = Ret tt dangling) as Hret
    by (vm_compute; reflexivity).
  split; [done |].
  pose proof (C7_unlink_and_delete L [] chain) as (_ & Horphans & Hunlink).
  split; [exact (Horphans dangling Hfin) |].
  exact (Hunlink (mkNodeRecord L [A] []) dangling HL Hsparse Hret).
Defined.

(** C7 fails as stated.  When [L], whose children are [A] and [B],
    reports no peer, the loop removes [A] and, the list having shrunk
    under the iterator, never visits [B]: [B] stays a child of [L] and [L]
    a parent of [B].  And in [mutual], where the local node [L] is a child
    of [A], [A] reporting no peer leaves [L] without parents and deletes
    the record of [L]. *)
Lemma C7_counterexample :
  (nodes (dht two_peers) !! L = Some (mkNodeRecord L [A; B] [])
   ∧ on_get_peers_response L [] two_peers = Ret tt two_peers_cleared
   ∧ nodes (dht two_peers_cleared) !! L = Some (mkNodeRecord L [B] [])
   ∧ nodes (dht two_peers_cleared) !! B = Some (mkNodeRecord B [] [L]))
  ∧ (own_id mutual = L
     ∧ on_get_peers_response A [] mutual = Ret tt orphaned_self
     ∧ own_id orphaned_self = L
     ∧ nodes (dht orphaned_self) !! L = None).
Proof. repeat split; vm_compute; reflexivity. Qed.

End Concrete.

(** ** Further properties of the methods *)

Section Further.

Implicit Types (s : Node) (ns : gmap NodeId NodeRecord) (n a b : NodeId).
Implicit Types (sm : gmap SampleId (gset NodeId)).

Section Custody.

Variable get_custody_columns : NodeId → list SampleId.

(** *** The custody index *)

Lemma with_sample_mapping_twice s sm1 sm2 :
  with_sample_mapping (with_sample_mapping s sm1) sm2 = with_sample_mapping s sm2.
Proof. done. Qed.

Lemma with_sample_mapping_id s :
  with_sample_mapping s (sample_mapping (dht s)) = s.
Proof. by destruct s as [own [sm ns sc]]. Qed.

Lemma add_holder_lookup n sm (id0 id : SampleId) :
  add_holder n sm id0 !! id
  = if decide (id = id0)
    then Some (default ∅ (sm !! id0) ∪ {[ n ]})
    else sm !! id.
Proof.
  unfold add_holder. destruct (decide (id = id0)) as [-> | Hne].
  - by rewrite lookup_insert_eq.
  - by rewrite lookup_insert_ne.
Qed.

Lemma add_holders_lookup n (l : list SampleId) sm (id : SampleId) :
  foldl (add_holder n) sm l !! id
  = if decide (id ∈ l)
    then Some (default ∅ (sm !! id) ∪ {[ n ]})
    else sm !! id.
Proof.
  revert sm. induction l as [| id0 l IH]; intros sm; simpl.
  - destruct (decide (id ∈ [])) as [Hin | _]; [by apply elem_of_nil in Hin | done].
  - rewrite IH, add_holder_lookup.
    destruct (decide (id ∈ id0 :: l)) as [Hin | Hnin];
      destruct (decide (id ∈ l)) as [Hin' | Hnin'];
      destruct (decide (id = id0)) as [-> | Hne]; simpl.
    + f_equal. by rewrite <- (assoc_L (∪)), (idemp_L (∪) {[ n ]}).
    + done.
    + done.
    + apply elem_of_cons in Hin as [? | ?]; done.
    + destruct Hnin. left.
    + destruct Hnin. by right.
    + destruct Hnin. left.
    + done.
Qed.

Lemma add_sample_run n (id : SampleId) s :
  (let* sm := get_sample_mapping in
   match sm !! id with
   | None => set_sample_mapping (<[id := ∅]> sm)
   | Some _ => ret tt
   end ;;;
   let* sm := get_sample_mapping in
   let* holders := subscript sm id in
   set_sample_mapping (<[id := holders ∪ {[n]}]> sm)) s
  = Ret tt (with_sample_mapping s (add_holder n (sample_mapping (dht s)) id)).
Proof.
  unfold bind, get_sample_mapping, gets, set_sample_mapping, modify, subscript,
    add_holder.
  destruct (sample_mapping (dht s) !! id) as [h |] eqn:Hid; simpl.
  - by rewrite Hid.
  - rewrite lookup_insert_eq. simpl. by rewrite insert_insert_eq.
Qed.

Lemma add_samples_on_entry_run n s :
  add_samples_on_entry get_custody_columns n s
  = Ret tt (with_sample_mapping s
              (foldl (add_holder n) (sample_mapping (dht s))
                 (get_custody_columns n))).
Proof.
  unfold add_samples_on_entry.
  generalize (get_custody_columns n) as l. intros l. revert s.
  induction l as [| id l IH]; intros s.
  - simpl. unfold ret. by rewrite with_sample_mapping_id.
  - rewrite for_each_cons, add_sample_run, IH. by rewrite with_sample_mapping_twice.
Qed.

Lemma add_samples_holds n (l : list SampleId) s (id : SampleId) (m : NodeId) :
  holds (with_sample_mapping s (foldl (add_holder n) (sample_mapping (dht s)) l))
    id m
  ↔ holds s id m ∨ m = n ∧ id ∈ l.
Proof.
  unfold holds. simpl. rewrite add_holders_lookup.
  destruct (decide (id ∈ l)) as [Hin | Hnin].
  - split.
    + intros (h & [= <-] & Hm). apply elem_of_union in Hm as [Hm | Hm].
      * left. destruct (sample_mapping (dht s) !! id) as [h |]; [by exists h |].
        by apply not_elem_of_empty in Hm.
      * right. by apply elem_of_singleton in Hm.
    + intros [(h & Hh & Hm) | [-> _]]; eexists; (split; [done |]).
      * rewrite Hh. simpl. apply elem_of_union. by left.
      * apply elem_of_union. right. by apply elem_of_singleton.
  - split; [by left | by intros [? | [_ ?]]].
Qed.

(** X1.  [add_samples_on_entry] always returns.  Afterwards the node is a
    holder of every sample it has custody of; a holder of a sample is one
    that was a holder before, or the node itself for a sample it has
    custody of, and no holder is lost; the graph and the ledger are as
    they were. *)
Theorem X1_add_samples_registers n s :
  ∃ s', add_samples_on_entry get_custody_columns n s = Ret tt s'
        ∧ (∀ id, id ∈ get_custody_columns n → holds s' id n)
        ∧ (∀ id m, holds s' id m ↔
             holds s id m ∨ m = n ∧ id ∈ get_custody_columns n)
        ∧ nodes (dht s') = nodes (dht s)
        ∧ scores (dht s') = scores (dht s)
        ∧ own_id s' = own_id s.
Proof.
  rewrite add_samples_on_entry_run. eexists. split; [done |].
  split; [| split; [apply add_samples_holds | done]].
  intros id Hin. apply add_samples_holds. by right.
Qed.

(** X2.  Registering a node twice is registering it once. *)
Theorem X2_add_samples_idempotent n s :
  ∃ s', add_samples_on_entry get_custody_columns n s = Ret tt s'
        ∧ add_samples_on_entry get_custody_columns n s' = Ret tt s'.
Proof.
  rewrite add_samples_on_entry_run. eexists. split; [done |].
  rewrite add_samples_on_entry_run. f_equal.
  rewrite with_sample_mapping_twice. f_equal. simpl.
  apply map_eq. intros id. rewrite !add_holders_lookup.
  destruct (decide (id ∈ get_custody_columns n)); [| done]. simpl.
  f_equal. by rewrite <- (assoc_L (∪)), (idemp_L (∪) {[ n ]}).
Qed.

Lemma remove_sample_run n (id : SampleId) s :
  (let* sm := get_sample_mapping in
   match sm !! id with
   | None => ret tt
   | Some holders =>
       if decide (n ∈ holders)
       then set_sample_mapping (<[id := holders ∖ {[n]}]> sm)
       else raise KeyError
   end) s
  = match sample_mapping (dht s) !! id with
    | None => Ret tt s
    | Some holders =>
        if decide (n ∈ holders)
        then Ret tt (with_sample_mapping s
                       (remove_holder n (sample_mapping (dht s)) id))
        else Raise KeyError s
    end.
Proof.
  unfold bind, get_sample_mapping, gets, set_sample_mapping, modify, remove_holder.
  destruct (sample_mapping (dht s) !! id) as [h |] eqn:Hid; simpl; [| done].
  by destruct (decide (n ∈ h)).
Qed.

Lemma remove_holder_lookup n sm (id0 id : SampleId) :
  remove_holder n sm id0 !! id
  = if decide (id = id0)
    then Some (default ∅ (sm !! id0) ∖ {[ n ]})
    else sm !! id.
Proof.
  unfold remove_holder. destruct (decide (id = id0)) as [-> | Hne].
  - by rewrite lookup_insert_eq.
  - by rewrite lookup_insert_ne.
Qed.

Lemma remove_holders_lookup n (l : list SampleId) sm (id : SampleId) :
  NoDup l →
  foldl (remove_holder n) sm l !! id
  = if decide (id ∈ l)
    then Some (default ∅ (sm !! id) ∖ {[ n ]})
    else sm !! id.
Proof.
  intros Hnodup. revert sm.
  induction Hnodup as [| id0 l Hnotin _ IH]; intros sm; simpl.
  - destruct (decide (id ∈ [])) as [Hin | _]; [by apply elem_of_nil in Hin | done].
  - rewrite IH, remove_holder_lookup.
    destruct (decide (id ∈ id0 :: l)) as [Hin | Hnin];
      destruct (decide (id ∈ l)) as [Hin' | Hnin'];
      destruct (decide (id = id0)) as [-> | Hne]; simpl;
      first [ done
            | by destruct Hnotin
            | destruct Hnin; by (left || right)
            | apply elem_of_cons in Hin as [? | ?]; done ].
Qed.

(** When every sample of the list has the node among its holders, and no
    sample is listed twice, the removals all succeed. *)
Lemma remove_samples_run n (l : list SampleId) s :
  NoDup l →
  (∀ id, id ∈ l → holds s id n) →
  for_each l (λ id,
    let* sm := get_sample_mapping in
    match sm !! id with
    | None => ret tt
    | Some holders =>
        if decide (n ∈ holders)
        then set_sample_mapping (<[id := holders ∖ {[n]}]> sm)
        else raise KeyError
    end) s
  = Ret tt (with_sample_mapping s
              (foldl (remove_holder n) (sample_mapping (dht s)) l)).
Proof.
  intros Hnodup. revert s.
  induction Hnodup as [| id l Hnotin _ IH]; intros s Hholds.
  - simpl. unfold ret. by rewrite with_sample_mapping_id.
  - rewrite for_each_cons, remove_sample_run.
    destruct (Hholds id) as (h & Hh & Hn); [left |].
    rewrite Hh, decide_True by done. rewrite IH.
    + by rewrite with_sample_mapping_twice.
    + intros id' Hin'. destruct (Hholds id') as (h' & Hh' & Hn'); [by right |].
      exists h'. split; [| done]. simpl.
      rewrite remove_holder_lookup, decide_False; [done |].
      intros ->. done.
Qed.

(** X3.  A node that leaves after it entered.  When no sample is listed
    twice among the custody columns of the node, [remove_samples_on_exit]
    called after [add_samples_on_entry] returns; the node is then a holder
    of none of the samples it has custody of, and the other holders of
    every sample are the ones there were before the node entered. *)
Theorem X3_enter_then_leave n s :
  NoDup (get_custody_columns n) →
  ∃ s1 s2,
    add_samples_on_entry get_custody_columns n s = Ret tt s1
    ∧ remove_samples_on_exit get_custody_columns n s1 = Ret tt s2
    ∧ (∀ id, id ∈ get_custody_columns n → ¬ holds s2 id n)
    ∧ ∀ id m, m ≠ n → holds s2 id m ↔ holds s id m.
Proof.
  intros Hnodup. rewrite add_samples_on_entry_run.
  set (s1 := with_sample_mapping s
               (foldl (add_holder n) (sample_mapping (dht s))
                  (get_custody_columns n))).
  assert (∀ id m, holds s1 id m
                  ↔ holds s id m ∨ m = n ∧ id ∈ get_custody_columns n)
    as Hholds by (intros id m; apply add_samples_holds).
  exists s1. clearbody s1. eexists. split; [done |].
  unfold remove_samples_on_exit. rewrite remove_samples_run;
    [| done | intros id Hin; apply Hholds; by right].
  split; [done |].
  assert (∀ id m,
            holds (with_sample_mapping s1
                     (foldl (remove_holder n) (sample_mapping (dht s1))
                        (get_custody_columns n))) id m
            ↔ holds s1 id m ∧ (id ∈ get_custody_columns n → m ≠ n)) as Hafter.
  { intros id m. unfold holds. simpl. rewrite remove_holders_lookup by done.
    destruct (decide (id ∈ get_custody_columns n)) as [Hin | Hnin].
    - split.
      + intros (h & [= <-] & Hm). apply elem_of_difference in Hm as [Hm Hne].
        split; [| intros _ ->; apply Hne; by apply elem_of_singleton].
        destruct (sample_mapping (dht s1) !! id) as [h |]; [by exists h |].
        by apply not_elem_of_empty in Hm.
      + intros [(h & Hh & Hm) Hne]. eexists. split; [done |].
        rewrite Hh. simpl. apply elem_of_difference. split; [done |].
        intros ->%elem_of_singleton. by apply Hne.
    - split; [intros ?; by split | by intros [? _]]. }
  split.
  - intros id Hin Hn. apply Hafter in Hn as [_ Hne]. by apply Hne.
  - intros id m Hne. rewrite Hafter, Hholds. split.
    + intros [[? | [-> _]] _]; done.
    + intros Hm. split; [by left | done].
Qed.

(** X4.  [remove_samples_on_exit] on a node that is not registered.  When
    none of the custody columns of the node has an entry in the index, the
    call returns and changes nothing; when one of them has an entry that
    does not hold the node, the call raises [KeyError]. *)
Theorem X4_leave_unregistered n s :
  ((∀ id, id ∈ get_custody_columns n → sample_mapping (dht s) !! id = None) →
   remove_samples_on_exit get_custody_columns n s = Ret tt s)
  ∧ ((∃ id h, id ∈ get_custody_columns n
              ∧ sample_mapping (dht s) !! id = Some h ∧ n ∉ h) →
     ∃ s', remove_samples_on_exit get_custody_columns n s = Raise KeyError s').
Proof.
  unfold remove_samples_on_exit.
  generalize (get_custody_columns n) as l. intros l. split.
  - revert s. induction l as [| id l IH]; intros s Hnone; [done |].
    rewrite for_each_cons, remove_sample_run, Hnone by left.
    apply IH. intros id' Hin. apply Hnone. by right.
  - revert s. induction l as [| id0 l IH]; intros s (id & h & Hin & Hh & Hn).
    { by apply elem_of_nil in Hin. }
    rewrite for_each_cons, remove_sample_run.
    destruct (sample_mapping (dht s) !! id0) as [h0 |] eqn:Hh0.
    + destruct (decide (n ∈ h0)) as [Hn0 | Hn0]; [| by eexists].
      apply IH. exists id, h. split; [| split; [| done]].
      * apply elem_of_cons in Hin as [-> | Hin]; [congruence | done].
      * simpl. rewrite remove_holder_lookup, decide_False; [done |].
        intros ->. congruence.
    + apply IH. exists id, h. split; [| done].
      apply elem_of_cons in Hin as [-> | Hin]; [congruence | done].
Qed.

End Custody.

(** *** The discovery graph *)

Lemma peers_response_frame n (peers : list NodeId) s s' :
  final_state (on_get_peers_response n peers s) s' →
  scores (dht s') = scores (dht s)
  ∧ sample_mapping (dht s') = sample_mapping (dht s)
  ∧ own_id s' = own_id s.
Proof.
  apply (on_get_peers_response_final
           (λ s1, scores (dht s1) = scores (dht s)
                  ∧ sample_mapping (dht s1) = sample_mapping (dht s)
                  ∧ own_id s1 = own_id s)); [| | done].
  - intros p s1 s2 HP. rewrite link_peer_run. cbv zeta.
    destruct (<[p := _]> (nodes (dht s1)) !! n); simpl; by intros <-.
  - intros c s1 s2 HP. rewrite unlink_child_run.
    destruct (nodes (dht s1) !! n) as [r |]; [| simpl; by intros <-].
    destruct (list_remove c (children r)) as [cs |]; [| simpl; by intros <-].
    cbv zeta.
    destruct (<[n := _]> (nodes (dht s1)) !! c) as [child |]; [| simpl; by intros <-].
    destruct (list_remove n (parents child)) as [ps |]; simpl; by intros <-.
Qed.

Lemma self_keyed_insert ns (k : NodeId) (r : NodeRecord) :
  self_keyed ns → node_id r = k → self_keyed (<[k := r]> ns).
Proof.
  intros Hinv Hr k' r' Hk'. destruct (decide (k' = k)) as [-> | Hne].
  - rewrite lookup_insert_eq in Hk'. by injection Hk' as <-.
  - rewrite lookup_insert_ne in Hk' by done. by apply Hinv.
Qed.

Lemma self_keyed_delete ns (k : NodeId) :
  self_keyed ns → self_keyed (delete k ns).
Proof.
  intros Hinv k' r' Hk'. apply lookup_delete_Some in Hk' as [_ Hk']. by apply Hinv.
Qed.

Lemma self_keyed_link_peer n (p : NodeId) s s' :
  self_keyed (nodes (dht s)) →
  final_state (link_peer n p s) s' →
  self_keyed (nodes (dht s')).
Proof.
  intros Hinv. rewrite link_peer_run. cbv zeta.
  assert (self_keyed
            (<[p := with_parents (default (mkNodeRecord p [] []) (nodes (dht s) !! p))
                      (parents (default (mkNodeRecord p [] []) (nodes (dht s) !! p))
                       ++ [n])]> (nodes (dht s)))) as H1.
  { apply self_keyed_insert; [done |]. simpl.
    destruct (nodes (dht s) !! p) as [rp |] eqn:Hp; simpl; [by apply Hinv | done]. }
  destruct (<[p := _]> (nodes (dht s)) !! n) as [record |] eqn:Hn; simpl;
    intros <-; rewrite nodes_with_nodes; [| done].
  apply self_keyed_insert; [done |]. simpl. by apply H1 in Hn.
Qed.

Lemma self_keyed_unlink_child n (c : NodeId) s s' :
  self_keyed (nodes (dht s)) →
  final_state (unlink_child n c s) s' →
  self_keyed (nodes (dht s')).
Proof.
  intros Hinv. rewrite unlink_child_run.
  destruct (nodes (dht s) !! n) as [r |] eqn:Hn; [| simpl; by intros <-].
  destruct (list_remove c (children r)) as [cs |]; [| simpl; by intros <-].
  cbv zeta.
  assert (self_keyed (<[n := with_children r cs]> (nodes (dht s)))) as H1.
  { apply self_keyed_insert; [done |]. simpl. by apply Hinv. }
  destruct (<[n := _]> (nodes (dht s)) !! c) as [child |] eqn:Hc;
    [| simpl; by intros <-].
  destruct (list_remove n (parents child)) as [ps |]; simpl; intros <-;
    rewrite ?nodes_with_nodes; [| done].
  assert (self_keyed (<[c := with_parents child ps]>
                        (<[n := with_children r cs]> (nodes (dht s))))) as H2.
  { apply self_keyed_insert; [done |]. simpl. by apply H1 in Hc. }
  destruct (decide (length ps = 0)); [by apply self_keyed_delete | done].
Qed.

(** X5.  In every state reached from a fresh node by calls of
    [on_get_peers_response], returned or raised, every record of the node
    map is stored under its own [node_id], the ledger and the custody
    index are still empty, and [own_id] is the identifier the node was
    created with: the method writes to the node map alone. *)
Theorem X5_reachable_graph_states (id : NodeId) s :
  peers_run id s →
  self_keyed (nodes (dht s))
  ∧ scores (dht s) = ∅
  ∧ sample_mapping (dht s) = ∅
  ∧ own_id s = id.
Proof.
  induction 1 as [| s n peers s' _ (Hkeys & Hsc & Hsm & Hown) Hfin].
  - split; [| done]. intros k r Hk. simpl in Hk.
    by apply lookup_singleton_Some in Hk as [<- <-].
  - destruct (peers_response_frame n peers s s' Hfin) as (-> & -> & ->).
    split; [| done]. revert Hkeys Hfin.
    apply (on_get_peers_response_final (λ s, self_keyed (nodes (dht s)))).
    + intros p s1 s2. apply self_keyed_link_peer.
    + intros c s1 s2. apply self_keyed_unlink_child.
Qed.

Lemma list_remove_is_Some (x : NodeId) (l : list NodeId) :
  x ∈ l → is_Some (list_remove x l).
Proof.
  induction l as [| y l IH]; intros Hin; [by apply elem_of_nil in Hin |].
  simpl. destruct (decide (x = y)) as [-> | Hne]; [done |].
  apply elem_of_cons in Hin as [-> | Hin]; [done |].
  destruct (IH Hin) as [r ->]. done.
Qed.

Lemma list_remove_elem_of (x y : NodeId) (l l' : list NodeId) :
  list_remove x l = Some l' → y ≠ x → y ∈ l → y ∈ l'.
Proof.
  intros Hrm Hne Hin. apply list_remove_occurrences in Hrm as [_ Hother].
  apply occurrences_pos. rewrite Hother by done. by apply occurrences_pos.
Qed.

Lemma linked_under_link_peer n (p q : NodeId) s s' :
  linked_under (nodes (dht s)) n p →
  is_Some (nodes (dht s) !! n) →
  link_peer n q s = Ret tt s' →
  linked_under (nodes (dht s')) n p ∧ is_Some (nodes (dht s') !! n).
Proof.
  intros [(rp & Hp & Hn) Hch] [r0 Hr0]. rewrite link_peer_run. cbv zeta.
  set (peer := default (mkNodeRecord q [] []) (nodes (dht s) !! q)).
  set (ns1 := <[q := with_parents peer (parents peer ++ [n])]> (nodes (dht s))).
  assert (∃ rp1, ns1 !! p = Some rp1 ∧ n ∈ parents rp1) as (rp1 & Hp1 & Hn1).
  { subst ns1. destruct (decide (p = q)) as [-> | Hne].
    - rewrite lookup_insert_eq. eexists. split; [done |]. simpl.
      apply elem_of_app. by right; left.
    - rewrite lookup_insert_ne by done. by exists rp. }
  assert (∀ r, ns1 !! n = Some r → p ∈ children r) as Hch1.
  { subst ns1. intros r. destruct (decide (n = q)) as [-> | Hne].
    - rewrite lookup_insert_eq. intros [= <-]. simpl. subst peer.
      rewrite Hr0. simpl. by apply Hch.
    - rewrite lookup_insert_ne by done. apply Hch. }
  destruct (ns1 !! n) as [record |] eqn:Hrec; [| done].
  intros [= <-]. rewrite nodes_with_nodes. split; [| by rewrite lookup_insert_eq].
  split.
  - destruct (decide (p = n)) as [-> | Hne].
    + rewrite lookup_insert_eq. eexists. split; [done |]. simpl. congruence.
    + rewrite lookup_insert_ne by done. by exists rp1.
  - intros r. rewrite lookup_insert_eq. intros [= <-]. simpl.
    apply elem_of_app. left. by apply Hch1.
Qed.

Lemma link_peer_links n (p : NodeId) s s' :
  link_peer n p s = Ret tt s' →
  linked_under (nodes (dht s')) n p ∧ is_Some (nodes (dht s') !! n).
Proof.
  rewrite link_peer_run. cbv zeta.
  set (peer := default (mkNodeRecord p [] []) (nodes (dht s) !! p)).
  set (ns1 := <[p := with_parents peer (parents peer ++ [n])]> (nodes (dht s))).
  destruct (ns1 !! n) as [record |] eqn:Hrec; [| done].
  intros [= <-]. rewrite nodes_with_nodes. split; [| by rewrite lookup_insert_eq].
  split.
  - destruct (decide (p = n)) as [-> | Hne].
    + rewrite lookup_insert_eq. eexists. split; [done |]. simpl.
      subst ns1. rewrite lookup_insert_eq in Hrec. injection Hrec as <-. simpl.
      apply elem_of_app. by right; left.
    + rewrite lookup_insert_ne by done. subst ns1. rewrite lookup_insert_eq.
      eexists. split; [done |]. simpl. apply elem_of_app. by right; left.
  - intros r. rewrite lookup_insert_eq. intros [= <-]. simpl.
    apply elem_of_app. by right; left.
Qed.

Lemma link_peers_links n (peers : list NodeId) s s1 :
  for_each peers (link_peer n) s = Ret tt s1 →
  (∀ p, linked_under (nodes (dht s)) n p → is_Some (nodes (dht s) !! n) →
        linked_under (nodes (dht s1)) n p)
  ∧ ∀ p, p ∈ peers → linked_under (nodes (dht s1)) n p.
Proof.
  revert s. induction peers as [| q peers IH]; intros s Hret.
  - injection Hret as <-. split; [done |]. intros p Hp. by apply elem_of_nil in Hp.
  - rewrite for_each_cons in Hret.
    destruct (link_peer n q s) as [[] s0 | |] eqn:Hq; [| done | done].
    destruct (IH s0 Hret) as [Hkeep Hnew]. split.
    + intros p Hp Hn.
      destruct (linked_under_link_peer n p q s s0 Hp Hn Hq). by apply Hkeep.
    + intros p Hp. apply elem_of_cons in Hp as [-> | Hp]; [| by apply Hnew].
      destruct (link_peer_links n q s s0 Hq). by apply Hkeep.
Qed.

(** The second loop touches stale children only. *)
Lemma unlink_loop_stale_final (P : Node → Prop) n (peers : list NodeId) :
  (∀ c s s', c ∉ peers → P s → final_state (unlink_child n c s) s' → P s') →
  ∀ fuel lst i s s',
    P s → final_state (unlink_loop fuel n peers lst i s) s' → P s'.
Proof.
  intros Hbody. induction fuel as [| fuel IH]; intros lst i s s' HP Hfin; [done |].
  simpl in Hfin. destruct (lst !! i) as [c |]; [| simpl in Hfin; by subst].
  destruct (decide (c ∈ peers)); [by apply (IH lst (S i) s) |].
  unfold bind in Hfin.
  destruct (unlink_child n c s) as [lst' s1 | e s1 |] eqn:Hc; [| | done].
  - apply (IH lst' (S i) s1); [| done]. apply (Hbody c s); [done | done |].
    by rewrite Hc.
  - simpl in Hfin. subst. apply (Hbody c s); [done | done |]. by rewrite Hc.
Qed.

Lemma linked_under_unlink_child n (p c : NodeId) s s' :
  p ≠ c →
  linked_under (nodes (dht s)) n p →
  final_state (unlink_child n c s) s' →
  linked_under (nodes (dht s')) n p.
Proof.
  intros Hpc Hlinked. pose proof Hlinked as [(rp & Hp & Hn) Hch].
  rewrite unlink_child_run.
  destruct (nodes (dht s) !! n) as [r |] eqn:Hr; [| simpl; by intros <-].
  destruct (list_remove c (children r)) as [cs |] eqn:Hcs; [| simpl; by intros <-].
  cbv zeta. set (ns1 := <[n := with_children r cs]> (nodes (dht s))).
  assert (linked_under ns1 n p) as H1.
  { subst ns1. split.
    - destruct (decide (p = n)) as [-> | Hne].
      + rewrite lookup_insert_eq. eexists. split; [done |]. simpl. congruence.
      + rewrite lookup_insert_ne by done. by exists rp.
    - intros r'. rewrite lookup_insert_eq. intros [= <-]. simpl.
      apply (list_remove_elem_of c p (children r)); [done | done |]. by apply Hch. }
  destruct (ns1 !! c) as [child |] eqn:Hc; [| simpl; by intros <-].
  destruct (list_remove n (parents child)) as [ps |] eqn:Hps; [| simpl; by intros <-].
  simpl. intros <-. rewrite nodes_with_nodes.
  destruct H1 as [(rp1 & Hp1 & Hn1) Hch1].
  set (ns2 := <[c := with_parents child ps]> ns1).
  assert (linked_under ns2 n p) as H2.
  { subst ns2. split.
    - rewrite lookup_insert_ne by done. by exists rp1.
    - intros r'. destruct (decide (n = c)) as [<- | Hne].
      + rewrite lookup_insert_eq. intros [= <-]. simpl. by apply Hch1.
      + rewrite lookup_insert_ne by done. apply Hch1. }
  destruct (decide (length ps = 0)); [| done].
  destruct H2 as [(rp2 & Hp2 & Hn2) Hch2]. split.
  - rewrite lookup_delete_ne by done. by exists rp2.
  - intros r' Hr'. apply lookup_delete_Some in Hr' as [_ Hr']. by apply Hch2.
Qed.

(** X6.  When [on_get_peers_response] returns, every reported peer is in
    the node map with [n] among its parents, and it is among the children
    of [n] if [n] is still in the node map. *)
Theorem X6_reported_peers_linked n (peers : list NodeId) s s' :
  on_get_peers_response n peers s = Ret tt s' →
  ∀ p, p ∈ peers →
    (∃ rp, nodes (dht s') !! p = Some rp ∧ n ∈ parents rp)
    ∧ ∀ r', nodes (dht s') !! n = Some r' → p ∈ children r'.
Proof.
  intros Hret p Hp.
  unfold on_get_peers_response, bind in Hret.
  destruct (for_each peers (link_peer n) s) as [[] s1 | e s1 |] eqn:Hlinks;
    [| done | done].
  destruct (link_peers_links n peers s s1 Hlinks) as [_ Hnew].
  specialize (Hnew p Hp).
  unfold get_nodes, gets, subscript in Hret.
  destruct (nodes (dht s1) !! n) as [record |]; [| done].
  unfold ret in Hret. cbv beta iota in Hret.
  apply (unlink_loop_stale_final (λ s, linked_under (nodes (dht s)) n p) n peers)
    with (fuel := S (length (children record))) (lst := children record) (i := 0)
         (s := s1); [| done | by rewrite Hret].
  intros c s2 s3 Hc. apply linked_under_unlink_child. by intros ->.
Qed.


Lemma link_peers_returns n (peers : list NodeId) s :
  is_Some (nodes (dht s) !! n) →
  ∃ s1, for_each peers (link_peer n) s = Ret tt s1.
Proof.
  revert s. induction peers as [| p peers IH]; intros s [r Hr]; [by eexists |].
  rewrite for_each_cons, link_peer_run. cbv zeta.
  destruct (<[p := _]> (nodes (dht s)) !! n) as [record |] eqn:Hn.
  - apply IH. rewrite nodes_with_nodes, lookup_insert_eq. by eexists.
  - destruct (decide (n = p)) as [-> | Hne].
    + by rewrite lookup_insert_eq in Hn.
    + rewrite lookup_insert_ne in Hn by done. congruence.
Qed.

Lemma link_peer_parents n (q : NodeId) s s' :
  link_peer n q s = Ret tt s' →
  ∀ p, parents_of (nodes (dht s')) p
       = parents_of (nodes (dht s)) p ++ (if decide (p = q) then [n] else []).
Proof.
  rewrite link_peer_run. cbv zeta.
  set (peer := default (mkNodeRecord q [] []) (nodes (dht s) !! q)).
  set (ns1 := <[q := with_parents peer (parents peer ++ [n])]> (nodes (dht s))).
  destruct (ns1 !! n) as [record |] eqn:Hrec; [| done].
  intros [= <-] p. rewrite nodes_with_nodes.
  assert (parents_of (<[n := with_children record (children record ++ [q])]> ns1) p
          = parents_of ns1 p) as ->.
  { rewrite parents_of_insert. destruct (decide (p = n)) as [-> | Hne]; [| done].
    simpl. unfold parents_of. by rewrite Hrec. }
  subst ns1. rewrite parents_of_insert.
  destruct (decide (p = q)) as [-> | Hne].
  - simpl. subst peer. by rewrite parents_of_default.
  - by rewrite app_nil_r.
Qed.

Lemma link_peers_parents n (peers : list NodeId) s s1 :
  for_each peers (link_peer n) s = Ret tt s1 →
  ∀ p, parents_of (nodes (dht s1)) p
       = parents_of (nodes (dht s)) p ++ replicate (occurrences p peers) n.
Proof.
  revert s. induction peers as [| q peers IH]; intros s Hret p.
  - injection Hret as <-. simpl. by rewrite app_nil_r.
  - rewrite for_each_cons in Hret.
    destruct (link_peer n q s) as [[] s0 | |] eqn:Hq; [| done | done].
    rewrite (IH s0 Hret), (link_peer_parents n q s s0 Hq), <- app_assoc.
    f_equal. unfold occurrences. simpl.
    destruct (decide (p = q)) as [-> | Hne].
    + by destruct (NodeId_eq_dec q q).
    + by destruct (NodeId_eq_dec q p) as [-> |].
Qed.

Lemma unlink_loop_no_stale n (peers : list NodeId) (fuel : nat) lst (i : nat) s :
  Forall (.∈ peers) lst →
  0 < fuel →
  length lst < i + fuel →
  unlink_loop fuel n peers lst i s = Ret tt s.
Proof.
  intros Hall. revert i. induction fuel as [| fuel IH]; intros i Hpos Hlen; [lia |].
  simpl. destruct (lst !! i) as [c |] eqn:Hi; [| done].
  rewrite decide_True by (by apply (Forall_lookup_1 _ _ _ _ Hall Hi)).
  apply lookup_lt_Some in Hi. apply IH; lia.
Qed.

(** X8.  A report that drops no child.  When [n] is in the node map and
    each of its children is among the reported peers, the call returns;
    the peers are appended to the children of [n], with no regard for the
    ones that are listed already, and [n] is appended to the parents of a
    node once for each time the node is reported.  Reporting the same
    peers again therefore doubles the links. *)
Theorem X8_report_without_stale n (peers : list NodeId) s (r : NodeRecord) :
  nodes (dht s) !! n = Some r →
  Forall (.∈ peers) (children r) →
  ∃ s', on_get_peers_response n peers s = Ret tt s'
        ∧ (∃ r', nodes (dht s') !! n = Some r'
                 ∧ children r' = children r ++ peers)
        ∧ ∀ p, parents_of (nodes (dht s')) p
               = parents_of (nodes (dht s)) p ++ replicate (occurrences p peers) n.
Proof.
  intros Hr Hall.
  destruct (link_peers_returns n peers s) as [s1 Hlinks]; [by eexists |].
  destruct (link_peers_Ret n peers s s1 r Hlinks Hr) as [(r1 & Hr1 & Hch1) _].
  exists s1. unfold on_get_peers_response, bind.
  rewrite Hlinks. unfold get_nodes, gets, subscript. rewrite Hr1.
  unfold ret. cbv beta iota.
  split; [| split; [by exists r1 | by apply link_peers_parents]].
  apply (unlink_loop_no_stale n peers (S (length (children r1))) (children r1) 0 s1);
    [| lia | lia].
  rewrite Hch1. apply Forall_app. split; [done | by apply Forall_forall].
Qed.

(** X7.  A report by a node that is not in the node map.  With no peers
    the call raises [KeyError] and changes nothing.  When the first peer
    is [n] itself, the first loop creates the record of [n], the call
    returns, and [n] is its own parent and child.  When the first peer is
    another node, the call raises [KeyError] after that peer was given
    [n] as a parent, and created if it was unknown: the state it leaves
    has a parent link to a node that has no record. *)
Theorem X7_unknown_reporter n (peers : list NodeId) s :
  nodes (dht s) !! n = None →
  match peers with
  | [] => on_get_peers_response n peers s = Raise KeyError s
  | p :: _ =>
      if decide (p = n)
      then ∃ s' r, on_get_peers_response n peers s = Ret tt s'
                   ∧ nodes (dht s') !! n = Some r
                   ∧ children r = peers
                   ∧ n ∈ parents r
      else
        let peer := default (mkNodeRecord p [] []) (nodes (dht s) !! p) in
        on_get_peers_response n peers s
        = Raise KeyError
            (with_nodes s
               (<[p := with_parents peer (parents peer ++ [n])]> (nodes (dht s))))
  end.
Proof.
  intros Hn. destruct peers as [| p rest].
  - unfold on_get_peers_response, bind. simpl.
    unfold get_nodes, gets, subscript. by rewrite Hn.
  - destruct (decide (p = n)) as [-> | Hne].
    + unfold on_get_peers_response, bind.
      rewrite for_each_cons, link_peer_run. cbv zeta.
      rewrite Hn. simpl. rewrite lookup_insert_eq.
      set (s0 := with_nodes s _).
      assert (nodes (dht s0) !! n = Some (mkNodeRecord n [n] [n])) as Hn0.
      { subst s0. rewrite nodes_with_nodes. by rewrite lookup_insert_eq. }
      clearbody s0.
      destruct (link_peers_returns n rest s0) as [s1 Hlinks]; [by eexists |].
      destruct (link_peers_Ret n rest s0 s1 _ Hlinks Hn0) as [(r1 & Hr1 & Hch1) _].
      simpl in Hch1.
      pose proof (link_peers_parents n rest s0 s1 Hlinks n) as Hps.
      unfold parents_of in Hps. rewrite Hr1, Hn0 in Hps. simpl in Hps.
      exists s1, r1. rewrite Hlinks. unfold get_nodes, gets, subscript.
      rewrite Hr1. unfold ret. cbv beta iota.
      split; [| split; [done | split; [done | rewrite Hps; left]]].
      apply (unlink_loop_no_stale n (n :: rest) (S (length (children r1)))
               (children r1) 0 s1); [| lia | lia].
      rewrite Hch1. by apply Forall_forall.
    + cbv zeta. unfold on_get_peers_response, bind.
      rewrite for_each_cons, link_peer_run. cbv zeta.
      rewrite lookup_insert_ne by done. by rewrite Hn.
Qed.

Lemma unlink_child_returns n (c : NodeId) s (r : NodeRecord) :
  links_counted (nodes (dht s)) →
  nodes (dht s) !! n = Some r →
  c ∈ children r →
  ∃ cs s', unlink_child n c s = Ret cs s'.
Proof.
  intros Hinv Hr Hc. rewrite unlink_child_run, Hr.
  destruct (list_remove_is_Some c (children r) Hc) as [cs ->]. cbv zeta.
  pose proof (Hinv n r c Hr) as Hcount.
  apply occurrences_pos in Hc.
  assert (n ∈ parents_of (nodes (dht s)) c) as Hin by (apply occurrences_pos; lia).
  unfold parents_of in Hin.
  destruct (nodes (dht s) !! c) as [child |] eqn:Hchild;
    [| by apply elem_of_nil in Hin].
  destruct (decide (c = n)) as [-> | Hne].
  - rewrite lookup_insert_eq. simpl.
    assert (child = r) as -> by congruence.
    destruct (list_remove_is_Some n (parents r) Hin) as [ps ->]. by eexists _, _.
  - rewrite lookup_insert_ne by done. rewrite Hchild.
    destruct (list_remove_is_Some n (parents child) Hin) as [ps ->]. by eexists _, _.
Qed.

Lemma unlink_loop_errors n (peers : list NodeId) (fuel : nat) lst (i : nat) s :
  links_counted (nodes (dht s)) →
  (∀ r, nodes (dht s) !! n = Some r → children r = lst) →
  match unlink_loop fuel n peers lst i s with
  | Raise e _ => e = KeyError
  | _ => True
  end.
Proof.
  revert lst i s. induction fuel as [| fuel IH]; intros lst i s Hinv Hsync; [done |].
  simpl. destruct (lst !! i) as [c |] eqn:Hi; [| done].
  destruct (decide (c ∈ peers)); [by apply IH |].
  unfold bind.
  destruct (nodes (dht s) !! n) as [r |] eqn:Hr.
  - destruct (unlink_child_returns n c s r Hinv Hr) as (cs & s1 & Hret).
    { rewrite (Hsync r eq_refl). by apply list_elem_of_lookup_2 in Hi. }
    rewrite Hret.
    destruct (unlink_child_Ret n c s cs s1 Hret) as (_ & _ & _ & Hsync1 & _).
    apply IH; [| done].
    apply (links_counted_unlink_child n c s); [done |]. by rewrite Hret.
  - rewrite unlink_child_run, Hr. done.
Qed.

(** X9.  In a state reached from a fresh node by calls of
    [on_get_peers_response], a further call returns or raises [KeyError]:
    no [list.remove] fails with [ValueError], since a child a node lists
    is in the node map and lists the node as a parent at least as
    often. *)
Theorem X9_only_key_errors (id : NodeId) s n (peers : list NodeId) :
  peers_run id s →
  ∃ s', on_get_peers_response n peers s = Ret tt s'
        ∨ on_get_peers_response n peers s = Raise KeyError s'.
Proof.
  intros Hrun. apply peers_run_links_counted in Hrun.
  assert (match on_get_peers_response n peers s with
          | Raise e _ => e = KeyError
          | _ => True
          end) as Herr.
  { unfold on_get_peers_response, bind.
    destruct (for_each peers (link_peer n) s) as [[] s1 | e s1 |] eqn:Hlinks;
      [| | done].
    - assert (links_counted (nodes (dht s1))) as Hinv1.
      { apply (for_each_final (λ s, links_counted (nodes (dht s))) peers (link_peer n))
          with (s := s); [| done | by rewrite Hlinks].
        intros p s2 s3. apply links_counted_link_peer. }
      unfold get_nodes, gets, subscript.
      destruct (nodes (dht s1) !! n) as [record |] eqn:Hn; [| done].
      unfold ret. cbv beta iota. apply unlink_loop_errors; [done |].
      intros r Hr. congruence.
    - clear Hrun. revert s Hlinks. induction peers as [| p peers IH]; intros s Hlinks;
        [done |].
      rewrite for_each_cons, link_peer_run in Hlinks. cbv zeta in Hlinks.
      destruct (<[p := _]> (nodes (dht s)) !! n); [by eapply IH | congruence]. }
  pose proof (on_get_peers_response_terminates n peers s) as Hfuel.
  destruct (on_get_peers_response n peers s) as [[] s' | e s' |]; [| | done].
  - exists s'. by left.
  - exists s'. right. by subst.
Qed.

Lemma unlink_loop_returns n (peers : list NodeId) (fuel : nat) lst (i : nat) s :
  links_counted (nodes (dht s)) →
  (∃ r, nodes (dht s) !! n = Some r ∧ children r = lst) →
  (n ∈ lst → n ∈ peers) →
  0 < fuel →
  length lst < i + fuel →
  ∃ s', unlink_loop fuel n peers lst i s = Ret tt s'.
Proof.
  revert lst i s. induction fuel as [| fuel IH];
    intros lst i s Hinv (r & Hr & Hch) Hself Hpos Hlen; [lia |].
  simpl. destruct (lst !! i) as [c |] eqn:Hi; [| by eexists].
  pose proof (lookup_lt_Some _ _ _ Hi) as Hlt.
  destruct (decide (c ∈ peers)) as [Hc | Hc].
  { apply IH; [done | by exists r | done | lia | lia]. }
  assert (c ∈ lst) as Hin by (by apply list_elem_of_lookup_2 in Hi).
  assert (c ≠ n) as Hne by (intros ->; by apply Hc, Hself).
  unfold bind.
  destruct (unlink_child_returns n c s r Hinv Hr) as (cs & s1 & Hret);
    [by rewrite Hch |].
  rewrite Hret.
  assert (links_counted (nodes (dht s1))) as Hinv1.
  { apply (links_counted_unlink_child n c s); [done |]. by rewrite Hret. }
  rewrite unlink_child_run, Hr in Hret.
  destruct (list_remove c (children r)) as [cs0 |] eqn:Hcs; [| done].
  cbv zeta in Hret. rewrite lookup_insert_ne in Hret by done.
  destruct (nodes (dht s) !! c) as [child |]; [| done].
  destruct (list_remove n (parents child)) as [ps |]; [| done].
  injection Hret as <- <-.
  pose proof (list_remove_length c _ _ Hcs) as Hlen1. rewrite Hch in Hlen1.
  apply IH; [done | | | lia | lia].
  - exists (with_children r cs0). split; [| done]. rewrite nodes_with_nodes.
    destruct (decide (length ps = 0)).
    + rewrite lookup_delete_ne by done. rewrite lookup_insert_ne by done.
      by rewrite lookup_insert_eq.
    + rewrite lookup_insert_ne by done. by rewrite lookup_insert_eq.
  - intros Hn. apply Hself. rewrite <- Hch.
    apply list_remove_occurrences in Hcs as [_ Hother].
    apply occurrences_pos. rewrite <- Hother by done. by apply occurrences_pos.
Qed.

(** X10.  In a state reached from a fresh node by calls of
    [on_get_peers_response], a report by a node that is in the node map
    returns, unless the node is a child of itself that the report
    drops. *)
Theorem X10_known_reporter_returns (id : NodeId) s n (peers : list NodeId)
    (r : NodeRecord) :
  peers_run id s →
  nodes (dht s) !! n = Some r →
  (n ∈ children r → n ∈ peers) →
  ∃ s', on_get_peers_response n peers s = Ret tt s'.
Proof.
  intros Hrun Hr Hself. apply peers_run_links_counted in Hrun.
  destruct (link_peers_returns n peers s) as [s1 Hlinks]; [by eexists |].
  destruct (link_peers_Ret n peers s s1 r Hlinks Hr) as [(r1 & Hr1 & Hch1) _].
  assert (links_counted (nodes (dht s1))) as Hinv1.
  { apply (for_each_final (λ s, links_counted (nodes (dht s))) peers (link_peer n))
      with (s := s); [| done | by rewrite Hlinks].
    intros p s2 s3. apply links_counted_link_peer. }
  unfold on_get_peers_response, bind. rewrite Hlinks.
  unfold get_nodes, gets, subscript. rewrite Hr1. unfold ret. cbv beta iota.
  apply unlink_loop_returns; [done | by exists r1 | | lia | lia].
  rewrite Hch1. intros [Hn | Hn]%elem_of_app; [by apply Hself | done].
Qed.

(** *** The ledger *)

Lemma record_update_final (w : ledger) (fuel : nat) (block_root : Root) n
    (sample_id : SampleId) s s' :
  final_state (record_update w fuel block_root n sample_id s) s' →
  s' = s
  ∨ ∃ r sk vis ok,
      nodes (dht s) !! n = Some r
      ∧ (scores (dht s) !! block_root = Some sk
         ∨ scores (dht s) !! block_root = None ∧ sk = mkScoreKeeper ∅ ∅)
      ∧ walk_trace fuel (nodes (dht s)) (list_to_set (parents r)) = Some (vis, ok)
      ∧ s' = put_score_keeper block_root (add_pairs w (n, sample_id) sk vis) s.
Proof.
  destruct w; simpl; intros Hfin.
  - apply on_request_final in Hfin as [[-> _] | (r & vis & ok & Hr & Hw & ->)];
      [by left |].
    right.
    exists r, (default (mkScoreKeeper ∅ ∅) (scores (dht s) !! block_root)), vis, ok.
    split; [done |]. split; [| done]. apply default_score_keeper.
  - apply on_response_final in Hfin as [-> | (r & sk & vis & ok & Hr & Hsk & Hw & ->)];
      [by left |].
    right. exists r, sk, vis, ok. split; [done |]. split; [by left | done].
Qed.

Lemma visit_all_sound ns (l : list NodeId) (new : gset NodeId) :
  (∀ a, a ∈ (visit_all ns l new).1 → a ∈ l)
  ∧ ∀ new', (visit_all ns l new).2 = Some new' →
      (∀ a, a ∈ l → is_Some (ns !! a))
      ∧ (visit_all ns l new).1 = l
      ∧ ∀ p, p ∈ new' ↔ p ∈ new ∨ ∃ a, a ∈ l ∧ parent_step ns a p.
Proof.
  revert new. induction l as [| a0 l IH]; intros new; simpl.
  - split; [done |]. intros new' [= <-]. split; [| split; [done |]].
    + intros a Ha. by apply elem_of_nil in Ha.
    + intros p. split; [by left |]. intros [? | (a & Ha & _)]; [done |].
      by apply elem_of_nil in Ha.
  - destruct (ns !! a0) as [r |] eqn:Hr; simpl.
    + destruct (IH (new ∪ list_to_set (parents r))) as [Hvis Hnew]. split.
      * intros a [-> | Ha]%elem_of_cons; [left | right; by apply Hvis].
      * intros new' Hsome. destruct (Hnew new' Hsome) as (Hknown & Heq & Hiff).
        split; [| split].
        -- intros a [-> | Ha]%elem_of_cons; [by eexists | by apply Hknown].
        -- by rewrite Heq.
        -- intros p. rewrite Hiff. split.
           ++ intros [[Hp | Hp]%elem_of_union | (a & Ha & Hstep)].
              ** by left.
              ** right. exists a0. split; [left |].
                 unfold parent_step, parents_of. rewrite Hr.
                 by apply elem_of_list_to_set in Hp.
              ** right. exists a. split; [by right | done].
           ++ intros [Hp | (a & [-> | Ha]%elem_of_cons & Hstep)].
              ** left. apply elem_of_union. by left.
              ** left. apply elem_of_union. right. apply elem_of_list_to_set.
                 unfold parent_step, parents_of in Hstep. by rewrite Hr in Hstep.
              ** right. by exists a.
    + split; [| done]. intros a Ha. apply elem_of_cons in Ha as [-> | Ha]; [left |].
      by apply elem_of_nil in Ha.
Qed.

(** The walk writes under nodes it reaches only, and, when it returns,
    under every node it can reach. *)
Lemma walk_trace_sound (fuel : nat) ns (cur : gset NodeId) vis ok :
  walk_trace fuel ns cur = Some (vis, ok) →
  (∀ a, a ∈ vis → ∃ c, c ∈ cur ∧ rtc (parent_step ns) c a)
  ∧ (ok = true → ∀ c a, c ∈ cur → rtc (parent_step ns) c a → a ∈ vis).
Proof.
  revert cur vis ok. induction fuel as [| fuel IH]; intros cur vis ok Hw; [done |].
  rewrite walk_trace_S in Hw.
  destruct (decide (cur = ∅)) as [-> | Hne].
  { injection Hw as <- <-. split.
    - intros a Ha. by apply elem_of_nil in Ha.
    - intros _ c a Hc. by apply not_elem_of_empty in Hc. }
  cbv zeta in Hw.
  destruct (visit_all_sound ns (elements cur) ∅) as [Hvis Hnew].
  destruct (visit_all ns (elements cur) ∅) as [l [new' |]] eqn:Hpass; simpl in *.
  - destruct (Hnew new' eq_refl) as (Hknown & -> & Hiff).
    destruct (walk_trace fuel ns new') as [[vis' ok'] |] eqn:Hrest; [| done].
    injection Hw as <- <-. destruct (IH new' vis' ok' Hrest) as [Hsound Hcomplete].
    split.
    + intros a [Ha | Ha]%elem_of_app.
      * exists a. split; [by apply elem_of_elements in Ha | done].
      * destruct (Hsound a Ha) as (p & Hp & Hrtc).
        apply Hiff in Hp as [Hp | (c & Hc & Hstep)];
          [by apply not_elem_of_empty in Hp |].
        exists c. split; [by apply elem_of_elements in Hc |].
        by eapply rtc_l.
    + intros -> c a Hc Hrtc. apply elem_of_app.
      inversion Hrtc as [| ? p ? Hstep Hrtc']; subst.
      * left. by apply elem_of_elements.
      * right. apply (Hcomplete eq_refl p a); [| done].
        apply Hiff. right. exists c. split; [by apply elem_of_elements | done].
  - injection Hw as <- <-. split; [| done].
    intros a Ha. exists a. split; [| done].
    apply elem_of_elements. by apply Hvis.
Qed.

Lemma walk_from_parents (fuel : nat) ns n (r : NodeRecord) vis ok :
  ns !! n = Some r →
  walk_trace fuel ns (list_to_set (parents r)) = Some (vis, ok) →
  (∀ a, a ∈ vis → ancestor ns n a)
  ∧ (ok = true → ∀ a, ancestor ns n a → a ∈ vis).
Proof.
  intros Hr Hw. destruct (walk_trace_sound fuel ns _ vis ok Hw) as [Hsound Hcomplete].
  split.
  - intros a Ha. destruct (Hsound a Ha) as (c & Hc & Hrtc).
    apply elem_of_list_to_set in Hc.
    eapply tc_rtc_r; [| done]. apply tc_once.
    unfold parent_step, parents_of. by rewrite Hr.
  - intros Hok a Ha. apply ancestor_inv in Ha as (p & Hstep & Hrtc).
    apply (Hcomplete Hok p a); [| done]. apply elem_of_list_to_set.
    unfold parent_step, parents_of in Hstep. by rewrite Hr in Hstep.
Qed.

(** What is recorded after a walk was recorded before, or is the pair of
    the walk under a node the walk wrote to. *)
Lemma recorded_after_walk (w w' : ledger) (block_root r : Root)
    (pair p : NodeId * SampleId) sk vis s a :
  (scores (dht s) !! block_root = Some sk
   ∨ scores (dht s) !! block_root = None ∧ sk = mkScoreKeeper ∅ ∅) →
  recorded w' (put_score_keeper block_root (add_pairs w pair sk vis) s) r a p →
  recorded w' s r a p
  ∨ w' = w ∧ r = block_root ∧ p = pair ∧ a ∈ vis.
Proof.
  intros Hsk (sk1 & st & Hsk1 & Hst & Hp).
  rewrite scores_put_score_keeper in Hsk1.
  destruct (decide (r = block_root)) as [-> | Hne].
  - rewrite lookup_insert_eq in Hsk1. injection Hsk1 as <-.
    assert (∀ st0, ledger_get w' sk !! a = Some st0 → p ∈ st0 →
                   recorded w' s block_root a p) as Hold.
    { intros st0 Hst0 Hp0. destruct Hsk as [Hsk | [_ ->]].
      - by exists sk, st0.
      - by destruct w'. }
    assert (w = w' ∨ w ≠ w') as [<- | Hw] by (destruct w, w'; auto).
    + rewrite ledger_get_add_pairs in Hst.
      destruct (decide (a ∈ vis)) as [Ha | Ha]; [| left; by apply (Hold st)].
      injection Hst as <-. apply elem_of_union in Hp as [Hp | Hp].
      * left. destruct (ledger_get w sk !! a) as [st0 |] eqn:Hst0;
          [by apply (Hold st0) | by apply not_elem_of_empty in Hp].
      * right. apply elem_of_singleton in Hp. done.
    + rewrite ledger_get_add_pairs_other in Hst by done.
      left. by apply (Hold st).
  - rewrite lookup_insert_ne in Hsk1 by done. left. by exists sk1, st.
Qed.

(** X11.  What a recording method leaves behind, whether it returned or
    raised.  The node map, the custody index and [own_id] are as they
    were.  Whatever was recorded is still recorded.  What is recorded and
    was not is the pair of the call, in the dictionary the method writes
    to, for the root of the call, under an ancestor of [n]. *)
Theorem X11_walk_writes (w : ledger) (fuel : nat) (block_root : Root) n
    (sample_id : SampleId) s s' :
  final_state (record_update w fuel block_root n sample_id s) s' →
  (nodes (dht s') = nodes (dht s)
   ∧ sample_mapping (dht s') = sample_mapping (dht s)
   ∧ own_id s' = own_id s)
  ∧ (∀ w' r a p, recorded w' s r a p → recorded w' s' r a p)
  ∧ ∀ w' r a p, recorded w' s' r a p →
      recorded w' s r a p
      ∨ w' = w ∧ r = block_root ∧ p = (n, sample_id)
        ∧ ancestor (nodes (dht s)) n a.
Proof.
  intros Hfin.
  apply record_update_final in Hfin
    as [-> | (rec & sk & vis & ok & Hrec & Hsk & Hw & ->)].
  { split; [done |]. split; [done |]. intros w' r a p Hp. by left. }
  split; [done |]. split.
  - intros w' r a p. by apply recorded_put_add_pairs.
  - intros w' r a p Hp.
    apply recorded_after_walk in Hp as [Hp | (-> & -> & -> & Ha)]; [by left | | done].
    right. repeat (split; [done |]).
    by apply (walk_from_parents fuel _ n rec vis ok Hrec Hw).
Qed.

Lemma score_keeper_eq (sk sk' : ScoreKeeper) :
  (∀ w, ledger_get w sk = ledger_get w sk') → sk = sk'.
Proof.
  intros Heq. destruct sk as [c r], sk' as [c' r'].
  pose proof (Heq Contacted) as Hc. pose proof (Heq Replied) as Hr.
  simpl in *. by subst.
Qed.

Lemma add_pairs_idempotent (w : ledger) (pair : NodeId * SampleId) sk vis :
  add_pairs w pair (add_pairs w pair sk vis) vis = add_pairs w pair sk vis.
Proof.
  apply score_keeper_eq. intros w'.
  assert (w = w' ∨ w ≠ w') as [<- | Hw] by (destruct w, w'; auto).
  - apply map_eq. intros a. rewrite !ledger_get_add_pairs.
    destruct (decide (a ∈ vis)); [| done]. simpl.
    f_equal. by rewrite <- (assoc_L (∪)), (idemp_L (∪) {[ pair ]}).
  - by rewrite !ledger_get_add_pairs_other.
Qed.

Lemma record_update_run (w : ledger) (fuel : nat) (block_root : Root) n
    (sample_id : SampleId) s s' :
  record_update w fuel block_root n sample_id s = Ret tt s' →
  ∃ r sk vis,
    nodes (dht s) !! n = Some r
    ∧ (scores (dht s) !! block_root = Some sk
       ∨ w = Contacted ∧ scores (dht s) !! block_root = None
         ∧ sk = mkScoreKeeper ∅ ∅)
    ∧ walk_trace fuel (nodes (dht s)) (list_to_set (parents r)) = Some (vis, true)
    ∧ s' = put_score_keeper block_root (add_pairs w (n, sample_id) sk vis) s.
Proof.
  destruct w; simpl.
  - rewrite on_request_score_update_run.
    destruct (nodes (dht s) !! n) as [r |]; [| done]. cbv zeta.
    destruct (walk_trace _ _ _) as [[vis [|]] |] eqn:Hw; [| done | done].
    intros [= <-].
    exists r, (default (mkScoreKeeper ∅ ∅) (scores (dht s) !! block_root)), vis.
    split; [done |]. split; [| done].
    destruct (scores (dht s) !! block_root) as [sk |]; [by left | by right].
  - rewrite on_response_score_update_run.
    destruct (nodes (dht s) !! n) as [r |]; [| done].
    destruct (scores (dht s) !! block_root) as [sk |]; [| done].
    destruct (walk_trace _ _ _) as [[vis [|]] |] eqn:Hw; [| done | done].
    intros [= <-]. exists r, sk, vis. split; [done |]. split; [by left | done].
Qed.

(** X12.  A recording call that returned, repeated in the state it left
    behind, returns and changes nothing. *)
Theorem X12_recording_idempotent (w : ledger) (fuel : nat) (block_root : Root) n
    (sample_id : SampleId) s s' :
  record_update w fuel block_root n sample_id s = Ret tt s' →
  record_update w fuel block_root n sample_id s' = Ret tt s'.
Proof.
  intros Hret.
  destruct (record_update_run w fuel block_root n sample_id s s' Hret)
    as (r & sk & vis & Hr & _ & Hw & ->).
  destruct w; simpl.
  - rewrite on_request_score_update_run, nodes_put_score_keeper, Hr. cbv zeta.
    rewrite Hw, scores_put_score_keeper, lookup_insert_eq. simpl.
    by rewrite put_score_keeper_twice, add_pairs_idempotent.
  - rewrite on_response_score_update_run, nodes_put_score_keeper, Hr.
    rewrite scores_put_score_keeper, lookup_insert_eq, Hw. cbv zeta.
    by rewrite put_score_keeper_twice, add_pairs_idempotent.
Qed.


(** [compute_descendant_score] as a function of the ledger. *)
Lemma compute_descendant_score_run (block_root : Root) n s :
  compute_descendant_score block_root n s
  = match scores (dht s) !! block_root with
    | None => Raise KeyError s
    | Some sk =>
        match descendants_contacted sk !! n with
        | None => Raise KeyError s
        | Some contacted =>
            if decide (0 < size contacted) then
              match descendants_replied sk !! n with
              | None => Raise KeyError s
              | Some replied => Ret (ratio (size replied) (size contacted)) s
              end
            else Ret 0%Q s
        end
    end.
Proof.
  unfold compute_descendant_score, bind, get_scores, gets, subscript.
  destruct (scores (dht s) !! block_root) as [sk |]; simpl; [| done].
  destruct (descendants_contacted sk !! n) as [contacted |]; simpl; [| done].
  destruct (decide (0 < size contacted)); [| done].
  by destruct (descendants_replied sk !! n).
Qed.

(** X13.  An ancestor that was contacted and has no reply on record has
    no score.  After [on_request_score_update] returned, for an ancestor
    of [n] that had no entry among the replies of the root,
    [compute_descendant_score] raises [KeyError]: the contacted set is not
    empty and the replied dictionary has no entry to divide. *)
Theorem X13_contacted_not_replied (fuel : nat) (block_root : Root) n
    (sample_id : SampleId) s s' a :
  on_request_score_update fuel block_root n sample_id s = Ret tt s' →
  ancestor (nodes (dht s)) n a →
  (∀ sk, scores (dht s) !! block_root = Some sk →
         descendants_replied sk !! a = None) →
  compute_descendant_score block_root a s' = Raise KeyError s'.
Proof.
  intros Hret Ha Hnone.
  destruct (record_update_run Contacted fuel block_root n sample_id s s' Hret)
    as (r & sk & vis & Hr & Hsk & Hw & ->).
  destruct (walk_from_parents fuel _ n r vis true Hr Hw) as [_ Hcomplete].
  specialize (Hcomplete eq_refl a Ha).
  rewrite compute_descendant_score_run, scores_put_score_keeper, lookup_insert_eq.
  change (descendants_contacted ?k) with (ledger_get Contacted k).
  change (descendants_replied ?k) with (ledger_get Replied k).
  rewrite ledger_get_add_pairs, decide_True by done.
  rewrite ledger_get_add_pairs_other by done.
  assert (ledger_get Replied sk !! a = None) as ->.
  { destruct Hsk as [Hsk | (_ & _ & ->)]; [by apply Hnone | done]. }
  rewrite decide_True; [done |].
  pose proof (subseteq_size ({[ (n, sample_id) ]} : gset (NodeId * SampleId))
                (default ∅ (ledger_get Contacted sk !! a) ∪ {[ (n, sample_id) ]})
                (union_subseteq_r _ _)) as Hsize.
  rewrite size_singleton in Hsize. lia.
Qed.

(** X14.  The first exchange for a root.  When the root has no score
    keeper, a request is recorded and then its reply, the descendant
    score of every ancestor of [n] is 1, and [compute_descendant_score]
    raises [KeyError] for every other node. *)
Theorem X14_first_exchange_scores (fuel fuel' : nat) (block_root : Root) n
    (sample_id : SampleId) s s1 s2 :
  scores (dht s) !! block_root = None →
  on_request_score_update fuel block_root n sample_id s = Ret tt s1 →
  on_response_score_update fuel' block_root n sample_id s1 = Ret tt s2 →
  ∀ a,
    (ancestor (nodes (dht s)) n a →
     compute_descendant_score block_root a s2 = Ret 1%Q s2)
    ∧ (¬ ancestor (nodes (dht s)) n a →
       compute_descendant_score block_root a s2 = Raise KeyError s2).
Proof.
  intros Hfresh Hreq Hresp a.
  destruct (record_update_run Contacted fuel block_root n sample_id s s1 Hreq)
    as (r & sk & vis & Hr & Hsk & Hw & ->).
  destruct Hsk as [Hsk | (_ & _ & ->)]; [congruence |].
  destruct (record_update_run Replied fuel' block_root n sample_id _ s2 Hresp)
    as (r' & sk' & vis' & Hr' & Hsk' & Hw' & ->).
  rewrite nodes_put_score_keeper in Hr', Hw'.
  assert (r' = r) as -> by congruence.
  destruct Hsk' as [Hsk' | (? & _)]; [| done].
  rewrite scores_put_score_keeper, lookup_insert_eq in Hsk'. injection Hsk' as <-.
  destruct (walk_from_parents fuel _ n r vis true Hr Hw) as [Hsound Hcomplete].
  destruct (walk_from_parents fuel' _ n r vis' true Hr Hw') as [Hsound' Hcomplete'].
  rewrite compute_descendant_score_run, scores_put_score_keeper, lookup_insert_eq.
  change (descendants_contacted ?k) with (ledger_get Contacted k).
  change (descendants_replied ?k) with (ledger_get Replied k).
  rewrite ledger_get_add_pairs_other by done.
  rewrite !ledger_get_add_pairs.
  rewrite ledger_get_add_pairs_other by done. simpl.
  rewrite !lookup_empty. simpl. rewrite (left_id_L ∅ (∪)).
  split.
  - intros Ha.
    rewrite decide_True by auto. rewrite size_singleton.
    rewrite decide_True by lia. rewrite decide_True by auto.
    by rewrite size_singleton.
  - intros Ha. rewrite decide_False; [done |]. intros Hin. by apply Ha, Hsound.
Qed.

(** *** The node score *)

Lemma for_fold_cons {T U} (x : T) (l : list T) (acc : U) (body : T → U → M U) s :
  for_fold (x :: l) acc body s
  = match body x acc s with
    | Ret acc' s1 => for_fold l acc' body s1
    | Raise e s1 => Raise e s1
    | OutOfFuel => OutOfFuel
    end.
Proof. done. Qed.

(** An invariant of a body that does not write is an invariant of the
    loop. *)
Lemma for_fold_ret_inv {T U} (I : U → Prop) (l : list T) (body : T → U → M U) s :
  (∀ x acc r s', x ∈ l → I acc → body x acc s = Ret r s' → s' = s ∧ I r) →
  ∀ acc r s', I acc → for_fold l acc body s = Ret r s' → s' = s ∧ I r.
Proof.
  induction l as [| x l IH]; intros Hbody acc r s' Hacc Hret.
  - by injection Hret as <- <-.
  - rewrite for_fold_cons in Hret.
    destruct (body x acc s) as [acc1 s1 | |] eqn:Hx; [| done | done].
    destruct (Hbody x acc acc1 s1) as [-> Hacc1]; [left | done | done |].
    apply (IH) with (acc := acc1); [| done | done].
    intros y acc' r' s'' Hy. apply Hbody. by right.
Qed.

Lemma elem_of_dict_set {V} (k k0 : NodeId) (v v0 : V) (d : list (NodeId * V)) :
  (k, v) ∈ dict_set k0 v0 d → (k = k0 ∧ v = v0) ∨ (k, v) ∈ d.
Proof.
  induction d as [| [k1 v1] d IH]; simpl.
  - intros [[= -> ->] | Hin]%elem_of_cons; [by left | by apply elem_of_nil in Hin].
  - destruct (decide (k0 = k1)) as [-> | Hne].
    + intros [[= -> ->] | Hin]%elem_of_cons; [by left | right; by right].
    + intros [[= -> ->] | Hin]%elem_of_cons; [right; left |].
      destruct (IH Hin) as [? | ?]; [by left | right; by right].
Qed.

Lemma compute_descendant_score_bounds (block_root : Root) n s (q : Q) s' :
  compute_descendant_score block_root n s = Ret q s' →
  s' = s ∧ (0 <= q)%Q ∧ (replies_within_contacts s → (q <= 1)%Q).
Proof.
  rewrite compute_descendant_score_run.
  destruct (scores (dht s) !! block_root) as [sk |] eqn:Hsk; [| done].
  destruct (descendants_contacted sk !! n) as [cs |] eqn:Hcs; [| done].
  destruct (decide (0 < size cs)) as [Hpos | _].
  - destruct (descendants_replied sk !! n) as [rs |] eqn:Hrs; [| done].
    intros [= <- <-]. split; [done |]. split; [apply ratio_nonneg |].
    intros Hinv. destruct (Hinv block_root sk n rs Hsk Hrs) as (cs' & Hcs' & Hsub).
    assert (cs' = cs) as -> by congruence.
    apply ratio_le_1; [by apply subseteq_size | done].
  - intros [= <- <-]. done.
Qed.

Lemma py_max_cases (x y : Q) : py_max x y = x ∨ py_max x y = y.
Proof. unfold py_max. destruct (Qlt_bool x y); auto. Qed.

Lemma carried_ancestor s (block_root : Root) n (q0 : Q) (k : NodeId) (v : Q) :
  carried s block_root n q0 k v → ancestor (nodes (dht s)) n k.
Proof. intros [[Hstep _] | [Hanc _]]; [by apply tc_once | done]. Qed.

Lemma visit_parent_inv (block_root : Root) n (q0 : Q) s (k : NodeId) (score : Q)
    (parent : NodeId) acc r s' :
  carried s block_root n q0 k score →
  parent_step (nodes (dht s)) k parent →
  (∀ k' v', (k', v') ∈ acc.1 → carried s block_root n q0 k' v') →
  best_of s block_root n q0 acc.2 →
  visit_parent block_root score parent acc s = Ret r s' →
  s' = s
  ∧ (∀ k' v', (k', v') ∈ r.1 → carried s block_root n q0 k' v')
  ∧ best_of s block_root n q0 r.2.
Proof.
  intros Hk Hstep Hfr Hbest Hret.
  pose proof (read_only_visit_parent block_root score parent acc s) as Hro.
  rewrite Hret in Hro. subst s'. split; [done |].
  unfold visit_parent, bind, gets in Hret.
  destruct (decide (parent = own_id s)) as [-> | Hne].
  - injection Hret as <-. simpl. split; [done |].
    destruct (py_max_cases acc.2 score) as [-> | ->]; [done |].
    right. by exists k.
  - destruct (compute_descendant_score block_root parent s) as [par s1 | |] eqn:Hpar;
      [| done | done].
    apply compute_descendant_score_bounds in Hpar as Hs1. destruct Hs1 as [-> _].
    assert (∀ k' v', (k', v') ∈ dict_set parent par acc.1 →
                     carried s block_root n q0 k' v') as Hset.
    { intros k' v' [[-> ->] | Hin]%elem_of_dict_set; [| by apply Hfr].
      right. split; [| done].
      eapply tc_r; [by eapply carried_ancestor | done]. }
    destruct (dict_get parent acc.1) as [old |].
    + destruct (Qlt_bool old par); injection Hret as <-; by split.
    + injection Hret as <-. by split.
Qed.

Lemma visit_frontier_entry_inv (block_root : Root) n (q0 : Q) s
    (entry : NodeId * Q) acc r s' :
  carried s block_root n q0 entry.1 entry.2 →
  (∀ k' v', (k', v') ∈ acc.1 → carried s block_root n q0 k' v') →
  best_of s block_root n q0 acc.2 →
  visit_frontier_entry block_root entry acc s = Ret r s' →
  s' = s
  ∧ (∀ k' v', (k', v') ∈ r.1 → carried s block_root n q0 k' v')
  ∧ best_of s block_root n q0 r.2.
Proof.
  intros Hentry Hfr Hbest Hret.
  unfold visit_frontier_entry, bind, get_nodes, gets, subscript in Hret.
  destruct (nodes (dht s) !! entry.1) as [record |] eqn:Hrec; [| done].
  unfold ret in Hret. cbv beta iota in Hret.
  apply (for_fold_ret_inv
           (λ acc, (∀ k' v', (k', v') ∈ acc.1 → carried s block_root n q0 k' v')
                   ∧ best_of s block_root n q0 acc.2)
           (parents record) (visit_parent block_root entry.2) s)
    with (acc := acc); [| done | done].
  intros parent acc' r' s'' Hparent [Hfr' Hbest'] Hvisit.
  apply (visit_parent_inv block_root n q0 s entry.1 entry.2 parent acc'); try done.
  unfold parent_step, parents_of. by rewrite Hrec.
Qed.

Lemma path_loop_inv (block_root : Root) n (q0 : Q) s (fuel : nat)
    (cur : list (NodeId * Q)) (best q : Q) s' :
  (∀ k v, (k, v) ∈ cur → carried s block_root n q0 k v) →
  best_of s block_root n q0 best →
  path_loop fuel block_root cur best s = Ret q s' →
  s' = s ∧ best_of s block_root n q0 q.
Proof.
  revert cur best. induction fuel as [| fuel IH]; intros cur best Hcur Hbest Hret;
    [done |].
  simpl in Hret. destruct cur as [| entry cur]; [by injection Hret as <- <- |].
  unfold bind in Hret.
  destruct (for_fold (entry :: cur) ([], best) (visit_frontier_entry block_root) s)
    as [r s1 | |] eqn:Hpass; [| done | done].
  destruct (for_fold_ret_inv
              (λ acc, (∀ k' v', (k', v') ∈ acc.1 → carried s block_root n q0 k' v')
                      ∧ best_of s block_root n q0 acc.2)
              (entry :: cur) (visit_frontier_entry block_root) s)
    with (acc := (([] : list (NodeId * Q)), best)) (r := r) (s' := s1)
    as [-> [Hfr Hbest1]]; [| | done |].
  - intros x acc r' s'' Hx [Hfr' Hbest'] Hvisit.
    apply (visit_frontier_entry_inv block_root n q0 s x acc); try done.
    apply Hcur. by destruct x.
  - split; [| done]. intros k' v' Hin. by apply elem_of_nil in Hin.
  - by apply (IH r.1 r.2).
Qed.

Lemma frontier_entries (score : Q) (l : list NodeId) (d : list (NodeId * Q))
    (k : NodeId) (v : Q) :
  (k, v) ∈ foldl (λ d parent, dict_set parent score d) d l →
  (k, v) ∈ d ∨ k ∈ l ∧ v = score.
Proof.
  revert d. induction l as [| p l IH]; intros d; simpl; [by left |].
  intros Hin. apply IH in Hin as [Hin | [Hk ->]].
  - apply elem_of_dict_set in Hin as [[-> ->] | Hin]; [right | by left].
    split; [left | done].
  - right. split; [by right | done].
Qed.

(** X15.  Where a node score comes from.  When [compute_node_score]
    returns, the score is zero, or the descendant score of [n] itself
    where a parent of [n] lists the local node among its parents, or the
    descendant score of an ancestor of [n] that lists the local node
    among its parents.  It is at least 0, and at most 1 when replies are
    within contacts. *)
Theorem X15_node_score_provenance (fuel : nat) (block_root : Root) n s (q : Q) s' :
  compute_node_score fuel block_root n s = Ret q s' →
  (q = 0%Q
   ∨ (compute_descendant_score block_root n s = Ret q s
      ∧ ∃ p, parent_step (nodes (dht s)) n p
             ∧ parent_step (nodes (dht s)) p (own_id s))
   ∨ ∃ a, ancestor (nodes (dht s)) n a
          ∧ parent_step (nodes (dht s)) a (own_id s)
          ∧ compute_descendant_score block_root a s = Ret q s)
  ∧ (0 <= q)%Q
  ∧ (replies_within_contacts s → (q <= 1)%Q).
Proof.
  intros Hret. unfold compute_node_score, bind in Hret.
  destruct (compute_descendant_score block_root n s) as [q0 s0 | |] eqn:Hq0;
    [| done | done].
  apply compute_descendant_score_bounds in Hq0 as Hs0. destruct Hs0 as (-> & _).
  unfold get_nodes, gets, subscript in Hret.
  destruct (nodes (dht s) !! n) as [record |] eqn:Hrec; [| done].
  unfold ret in Hret. cbv beta iota zeta in Hret.
  apply (path_loop_inv block_root n q0 s) in Hret as [-> Hbest].
  - assert (q = 0%Q
            ∨ (compute_descendant_score block_root n s = Ret q s
               ∧ ∃ p, parent_step (nodes (dht s)) n p
                      ∧ parent_step (nodes (dht s)) p (own_id s))
            ∨ ∃ a, ancestor (nodes (dht s)) n a
                   ∧ parent_step (nodes (dht s)) a (own_id s)
                   ∧ compute_descendant_score block_root a s = Ret q s) as Hq.
    { destruct Hbest as [-> | (k & [[Hstep ->] | [Hanc Hk]] & Hown)]; [by left | |].
      - right. left. split; [done |]. by exists k.
      - right. right. by exists k. }
    split; [rewrite <- Hq0; exact Hq |].
    destruct Hq as [-> | [[Hq _] | (a & _ & _ & Hq)]]; [done | |];
      by apply compute_descendant_score_bounds in Hq as (_ & ? & ?).
  - intros k v Hin. apply frontier_entries in Hin as [Hin | [Hk ->]];
      [by apply elem_of_nil in Hin |].
    left. split; [| done]. unfold parent_step, parents_of. by rewrite Hrec.
  - by left.
Qed.


Lemma path_loop_S (fuel : nat) (block_root : Root) (cur : list (NodeId * Q))
    (best : Q) s :
  path_loop (S fuel) block_root cur best s
  = match cur with
    | [] => Ret best s
    | _ =>
        match for_fold cur ([], best) (visit_frontier_entry block_root) s with
        | Ret r s1 => path_loop fuel block_root r.1 r.2 s1
        | Raise e s1 => Raise e s1
        | OutOfFuel => OutOfFuel
        end
    end.
Proof. by destruct cur. Qed.

Lemma visit_frontier_entry_top (block_root : Root) (entry : NodeId * Q) acc s
    (rp : NodeRecord) :
  nodes (dht s) !! entry.1 = Some rp →
  parents rp = [] →
  visit_frontier_entry block_root entry acc s = Ret acc s.
Proof.
  intros Hrp Hps. unfold visit_frontier_entry, bind, get_nodes, gets, subscript.
  rewrite Hrp. unfold ret. cbv beta iota. by rewrite Hps.
Qed.

Lemma visit_frontier_entry_own (block_root : Root) (entry : NodeId * Q) acc s
    (rp : NodeRecord) :
  nodes (dht s) !! entry.1 = Some rp →
  parents rp = [own_id s] →
  visit_frontier_entry block_root entry acc s
  = Ret (acc.1, py_max acc.2 entry.2) s.
Proof.
  intros Hrp Hps. unfold visit_frontier_entry, bind, get_nodes, gets, subscript.
  rewrite Hrp. unfold ret. cbv beta iota. rewrite Hps. simpl.
  unfold bind, visit_parent, bind, gets. by rewrite decide_True.
Qed.

Lemma pass_top (block_root : Root) (l : list (NodeId * Q)) acc s :
  (∀ e, e ∈ l → ∃ rp, nodes (dht s) !! e.1 = Some rp ∧ parents rp = []) →
  for_fold l acc (visit_frontier_entry block_root) s = Ret acc s.
Proof.
  induction l as [| e l IH]; intros Hl; [done |].
  destruct (Hl e) as (rp & Hrp & Hps); [left |].
  rewrite for_fold_cons, (visit_frontier_entry_top _ _ _ _ rp) by done.
  apply IH. intros e' He'. apply Hl. by right.
Qed.

Lemma pass_own (block_root : Root) (l : list (NodeId * Q)) (best : Q) s :
  (∀ e, e ∈ l → ∃ rp, nodes (dht s) !! e.1 = Some rp
                      ∧ parents rp = [own_id s]) →
  for_fold l ([], best) (visit_frontier_entry block_root) s
  = Ret ([], foldl (λ (m : Q) e, py_max m e.2) best l) s.
Proof.
  revert best. induction l as [| e l IH]; intros best Hl; [done |].
  destruct (Hl e) as (rp & Hrp & Hps); [left |].
  rewrite for_fold_cons, (visit_frontier_entry_own _ _ _ _ rp) by done.
  simpl. apply IH. intros e' He'. apply Hl. by right.
Qed.

Lemma py_max_twice (q : Q) : py_max (py_max 0 q) q = py_max 0 q.
Proof.
  unfold py_max. destruct (Qlt_bool 0 q) eqn:H0.
  - by destruct (Qlt_bool q q).
  - by rewrite H0.
Qed.

Lemma py_max_fold (q0 : Q) (l : list (NodeId * Q)) :
  (∀ e, e ∈ l → e.2 = q0) →
  l ≠ [] →
  foldl (λ (m : Q) e, py_max m e.2) 0%Q l = py_max 0 q0.
Proof.
  destruct l as [| e l]; [done |]. intros Hl _. simpl.
  rewrite (Hl e) by left.
  assert (∀ e', e' ∈ l → e'.2 = q0) as Hl' by (intros e' He'; apply Hl; by right).
  clear Hl. induction l as [| e' l IH]; [done |]. simpl.
  rewrite (Hl' e') by left. rewrite py_max_twice.
  apply IH. intros e'' He''. apply Hl'. by right.
Qed.

Lemma py_max_0_nonneg (q : Q) : (0 <= q)%Q → (py_max 0 q == q)%Q.
Proof.
  intros Hq. unfold py_max, Qlt_bool.
  destruct (Qle_bool q 0) eqn:Hle; simpl; [| reflexivity].
  apply Qle_bool_iff in Hle. by apply Qle_antisym.
Qed.

Lemma dict_set_nonempty {V} (k : NodeId) (v : V) (d : list (NodeId * V)) :
  dict_set k v d ≠ [].
Proof. destruct d as [| [k' v'] d]; simpl; [done |]. by destruct (decide (k = k')). Qed.

Lemma frontier_nonempty (score : Q) (l : list NodeId) (d : list (NodeId * Q)) :
  l ≠ [] ∨ d ≠ [] →
  foldl (λ d parent, dict_set parent score d) d l ≠ [].
Proof.
  revert d. induction l as [| p l IH]; intros d Hne; simpl.
  - by destruct Hne.
  - apply IH. right. apply dict_set_nonempty.
Qed.

(** X16.  A node whose parents have no parents scores zero.  When [n] is
    in the node map, has a descendant score, and each of its parents is in
    the node map with an empty parents list, [compute_node_score] returns
    0 whatever the descendant score is; a direct peer of a local node that
    nobody reported is such a node. *)
Theorem X16_top_level_parents_score_zero (k : nat) (block_root : Root) n s
    (r : NodeRecord) (q0 : Q) :
  nodes (dht s) !! n = Some r →
  compute_descendant_score block_root n s = Ret q0 s →
  (∀ p, p ∈ parents r → ∃ rp, nodes (dht s) !! p = Some rp ∧ parents rp = []) →
  compute_node_score (2 + k) block_root n s = Ret 0%Q s.
Proof.
  intros Hr Hq0 Htop. unfold compute_node_score, bind. rewrite Hq0.
  unfold get_nodes, gets, subscript. rewrite Hr. unfold ret. cbv beta iota zeta.
  change (2 + k) with (S (S k)). rewrite path_loop_S.
  destruct (foldl _ [] (parents r)) as [| e fr] eqn:Hfr; [done |].
  rewrite pass_top; [done |].
  intros [p v] He. rewrite <- Hfr in He.
  apply frontier_entries in He as [He | [Hp _]]; [by apply elem_of_nil in He |].
  by apply Htop.
Qed.

(** X17.  A grandchild of the local node scores what its own descendants
    earned.  When [n] has parents, and each of them is in the node map
    with the local node as its only parent, [compute_node_score] returns
    the larger of 0 and the descendant score of [n], which equals that
    descendant score as a rational; the scores of the parents of [n] are
    not consulted. *)
Theorem X17_grandchild_score (k : nat) (block_root : Root) n s
    (r : NodeRecord) (q0 : Q) :
  nodes (dht s) !! n = Some r →
  parents r ≠ [] →
  compute_descendant_score block_root n s = Ret q0 s →
  (∀ p, p ∈ parents r →
        ∃ rp, nodes (dht s) !! p = Some rp ∧ parents rp = [own_id s]) →
  compute_node_score (2 + k) block_root n s = Ret (py_max 0 q0) s
  ∧ (py_max 0 q0 == q0)%Q.
Proof.
  intros Hr Hne Hq0 Hown. split.
  - unfold compute_node_score, bind. rewrite Hq0.
    unfold get_nodes, gets, subscript. rewrite Hr. unfold ret. cbv beta iota zeta.
    change (2 + k) with (S (S k)). rewrite path_loop_S.
    pose proof (frontier_nonempty q0 (parents r) [] (or_introl Hne)) as Hfrne.
    assert (∀ e, e ∈ foldl (λ d parent, dict_set parent q0 d) [] (parents r) →
                 e.1 ∈ parents r ∧ e.2 = q0) as Hentries.
    { intros [p v] He.
      apply frontier_entries in He as [He | ?]; [by apply elem_of_nil in He | done]. }
    destruct (foldl _ [] (parents r)) as [| e fr] eqn:Hfr; [done |].
    rewrite pass_own.
    + rewrite (py_max_fold q0 (e :: fr)); [done | | done].
      intros e' He'. by apply Hentries.
    + intros e' He'. apply Hown. by apply Hentries.
  - apply py_max_0_nonneg.
    by apply compute_descendant_score_bounds in Hq0 as (_ & ? & _).
Qed.

Lemma compute_descendant_score_terminates (block_root : Root) n s :
  compute_descendant_score block_root n s ≠ OutOfFuel.
Proof.
  rewrite compute_descendant_score_run.
  destruct (scores (dht s) !! block_root) as [sk |]; [| done].
  destruct (descendants_contacted sk !! n) as [cs |]; [| done].
  destruct (decide (0 < size cs)); [| done].
  by destruct (descendants_replied sk !! n).
Qed.

Lemma for_fold_terminates {T U} (l : list T) (body : T → U → M U) :
  (∀ x acc s, body x acc s ≠ OutOfFuel) →
  ∀ acc s, for_fold l acc body s ≠ OutOfFuel.
Proof.
  intros Hbody. induction l as [| x l IH]; intros acc s; [done |].
  rewrite for_fold_cons. pose proof (Hbody x acc s) as Hx.
  destruct (body x acc s) as [acc1 s1 | |]; [apply IH | done | done].
Qed.

Lemma visit_parent_terminates (block_root : Root) (score : Q) (parent : NodeId)
    acc s :
  visit_parent block_root score parent acc s ≠ OutOfFuel.
Proof.
  unfold visit_parent, bind, gets.
  destruct (decide (parent = own_id s)); [done |].
  pose proof (compute_descendant_score_terminates block_root parent s) as Hpar.
  destruct (compute_descendant_score block_root parent s) as [par s1 | |];
    [| done | done].
  destruct (dict_get parent acc.1) as [old |]; [| done].
  by destruct (Qlt_bool old par).
Qed.

Lemma visit_frontier_entry_terminates (block_root : Root) (entry : NodeId * Q)
    acc s :
  visit_frontier_entry block_root entry acc s ≠ OutOfFuel.
Proof.
  unfold visit_frontier_entry, bind, get_nodes, gets, subscript.
  destruct (nodes (dht s) !! entry.1) as [record |]; [| done].
  unfold ret. cbv beta iota. apply for_fold_terminates.
  intros x acc' s'. apply visit_parent_terminates.
Qed.

(** The keys of the next frontier are parents of keys of this one. *)
Lemma visit_parent_keys (P : NodeId → Prop) (block_root : Root) (score : Q)
    (parent : NodeId) acc s r s' :
  P parent →
  (∀ k v, (k, v) ∈ acc.1 → P k) →
  visit_parent block_root score parent acc s = Ret r s' →
  s' = s ∧ ∀ k v, (k, v) ∈ r.1 → P k.
Proof.
  intros Hparent Hacc Hret.
  pose proof (read_only_visit_parent block_root score parent acc s) as Hro.
  rewrite Hret in Hro. subst s'. split; [done |].
  unfold visit_parent, bind, gets in Hret.
  destruct (decide (parent = own_id s)); [by injection Hret as <- |].
  destruct (compute_descendant_score block_root parent s) as [par s1 | |];
    [| done | done].
  assert (∀ k v, (k, v) ∈ dict_set parent par acc.1 → P k) as Hset.
  { intros k v [[-> _] | Hin]%elem_of_dict_set; [done | by eapply Hacc]. }
  destruct (dict_get parent acc.1) as [old |].
  - destruct (Qlt_bool old par); by injection Hret as <-.
  - by injection Hret as <-.
Qed.

Lemma pass_keys (block_root : Root) (cur : list (NodeId * Q)) (best : Q) s r s' :
  for_fold cur ([], best) (visit_frontier_entry block_root) s = Ret r s' →
  s' = s
  ∧ ∀ k v, (k, v) ∈ r.1 →
      ∃ c, c ∈ cur.*1 ∧ parent_step (nodes (dht s)) c k.
Proof.
  apply (for_fold_ret_inv
           (λ acc, ∀ k v, (k, v) ∈ acc.1 →
              ∃ c, c ∈ cur.*1 ∧ parent_step (nodes (dht s)) c k)).
  - intros x acc r' s'' Hx Hacc Hvisit.
    unfold visit_frontier_entry, bind, get_nodes, gets, subscript in Hvisit.
    destruct (nodes (dht s) !! x.1) as [record |] eqn:Hrec; [| done].
    unfold ret in Hvisit. cbv beta iota in Hvisit.
    revert Hacc Hvisit.
    apply (for_fold_ret_inv
             (λ acc, ∀ k v, (k, v) ∈ acc.1 →
                ∃ c, c ∈ cur.*1 ∧ parent_step (nodes (dht s)) c k)).
    intros parent acc' r'' s3 Hparent Hacc' Hvisit.
    apply (visit_parent_keys _ block_root x.2 parent acc' s r'' s3); [| done | done].
    exists x.1. split; [by apply list_elem_of_fmap_2 |].
    unfold parent_step, parents_of. by rewrite Hrec.
  - intros k v Hin. by apply elem_of_nil in Hin.
Qed.

Lemma path_loop_terminates (block_root : Root) s (d : nat)
    (cur : list (NodeId * Q)) (best : Q) :
  (∀ k, k ∈ cur.*1 → height_le (nodes (dht s)) d k) →
  path_loop (S d) block_root cur best s ≠ OutOfFuel.
Proof.
  revert cur best. induction d as [| d IH]; intros cur best Hcur;
    rewrite path_loop_S.
  - destruct cur as [| [k v] cur]; [done |].
    assert (height_le (nodes (dht s)) 0 k) as Hk by (apply Hcur; left).
    inversion Hk.
  - destruct cur as [| e cur]; [done |].
    pose proof (for_fold_terminates (e :: cur) (visit_frontier_entry block_root)
                  (visit_frontier_entry_terminates block_root)
                  ([], best) s) as Hpass.
    destruct (for_fold (e :: cur) ([], best) (visit_frontier_entry block_root) s)
      as [r s1 | |] eqn:Hfold; [| done | done].
    apply pass_keys in Hfold as [-> Hkeys].
    apply IH. intros k Hk. apply list_elem_of_fmap in Hk as ([k' v] & -> & Hin).
    destruct (Hkeys k' v Hin) as (c & Hc & Hstep).
    specialize (Hcur c Hc). inversion Hcur as [? ? Hparents]; subst. auto.
Qed.

Lemma path_loop_more_fuel (block_root : Root) (fuel fuel' : nat)
    (cur : list (NodeId * Q)) (best : Q) s :
  fuel ≤ fuel' →
  path_loop fuel block_root cur best s ≠ OutOfFuel →
  path_loop fuel' block_root cur best s = path_loop fuel block_root cur best s.
Proof.
  revert fuel' cur best s. induction fuel as [| fuel IH];
    intros fuel' cur best s Hle Hterm; [done |].
  destruct fuel' as [| fuel']; [lia |].
  rewrite !path_loop_S in *. destruct cur as [| e cur]; [done |].
  destruct (for_fold (e :: cur) ([], best) (visit_frontier_entry block_root) s)
    as [r s1 | |]; [| done | done].
  apply IH; [lia | done].
Qed.

(** X18.  When no infinite chain of parent links starts at [n], the
    [while] loop of [compute_node_score] ends: some amount of fuel lets
    the call return or raise, and any larger amount gives the same
    outcome. *)
Theorem X18_node_score_terminates (block_root : Root) n s :
  acyclic_above (nodes (dht s)) n →
  ∃ fuel0,
    compute_node_score fuel0 block_root n s ≠ OutOfFuel
    ∧ ∀ fuel, fuel0 ≤ fuel →
        compute_node_score fuel block_root n s
        = compute_node_score fuel0 block_root n s.
Proof.
  intros Hacyc. destruct (acyclic_above_height _ n Hacyc) as [d Hd].
  inversion Hd as [d' ? Hparents]; subst.
  assert (∀ (q0 : Q) (r : NodeRecord), nodes (dht s) !! n = Some r →
            path_loop (S d') block_root
              (foldl (λ d parent, dict_set parent q0 d) [] (parents r)) 0%Q s
            ≠ OutOfFuel) as Hloop.
  { intros q0 r Hr. apply path_loop_terminates.
    intros k Hk. apply list_elem_of_fmap in Hk as ([k' v] & -> & Hin).
    apply frontier_entries in Hin as [Hin | [Hin _]]; [by apply elem_of_nil in Hin |].
    apply Hparents. unfold parent_step, parents_of. by rewrite Hr. }
  exists (S d'). split.
  - unfold compute_node_score, bind.
    pose proof (compute_descendant_score_terminates block_root n s) as Hq0.
    destruct (compute_descendant_score block_root n s) as [q0 s0 | |] eqn:Hcds;
      [| done | done].
    apply compute_descendant_score_bounds in Hcds as [-> _].
    unfold get_nodes, gets, subscript.
    destruct (nodes (dht s) !! n) as [r |] eqn:Hr; [| done].
    unfold ret. cbv beta iota zeta. by apply Hloop.
  - intros fuel Hle. unfold compute_node_score, bind.
    destruct (compute_descendant_score block_root n s) as [q0 s0 | |] eqn:Hcds;
      [| done | done].
    apply compute_descendant_score_bounds in Hcds as [-> _].
    unfold get_nodes, gets, subscript.
    destruct (nodes (dht s) !! n) as [r |] eqn:Hr; [| done].
    unfold ret. cbv beta iota zeta.
    apply path_loop_more_fuel; [done | by apply Hloop].
Qed.

(** *** The peer filter *)

Section Filtering.

Variable iter_node_id : NodeId → option (list Item).

Lemma filter_loop_S (fuel : nat) (block_root : Root) (sample_id : SampleId)
    (seen : list (NodeId * Q)) (t : Q) (filtered : gset Item)
    (evicted : gset NodeId) s :
  filter_loop iter_node_id (S fuel) block_root sample_id seen t filtered evicted s
  = if decide (size filtered = 0) then
      match sample_mapping (dht s) !! sample_id with
      | None => Raise KeyError s
      | Some candidates =>
          match for_fold (elements candidates) (seen, filtered)
                  (filter_candidate iter_node_id fuel block_root t evicted) s with
          | Ret r s1 =>
              match mean_minus_tenth r.1 s1 with
              | Ret t' s2 =>
                  filter_loop iter_node_id fuel block_root sample_id r.1 t' r.2
                    evicted s2
              | Raise e s2 => Raise e s2
              | OutOfFuel => OutOfFuel
              end
          | Raise e s1 => Raise e s1
          | OutOfFuel => OutOfFuel
          end
      end
    else Ret filtered s.
Proof.
  simpl. destruct (decide (size filtered = 0)); [| done].
  unfold bind, get_sample_mapping, gets, subscript.
  by destruct (sample_mapping (dht s) !! sample_id).
Qed.

(** X19.  [filter_nodes] for a sample that nobody holds.  When the sample
    has no entry in the custody index the call raises [KeyError]; when
    its entry is the empty set the first pass scores nobody and the
    average that follows raises [ZeroDivisionError]. *)
Theorem X19_filter_without_candidates (k : nat) (block_root : Root)
    (sample_id : SampleId) s :
  (sample_mapping (dht s) !! sample_id = None →
   filter_nodes iter_node_id (S k) block_root sample_id s = Raise KeyError s)
  ∧ (sample_mapping (dht s) !! sample_id = Some ∅ →
     filter_nodes iter_node_id (S k) block_root sample_id s
     = Raise ZeroDivisionError s).
Proof.
  unfold filter_nodes. rewrite filter_loop_S, decide_True by apply size_empty.
  split; intros ->; [done |]. by rewrite elements_empty.
Qed.

Lemma filter_candidate_Ret (fuel : nat) (block_root : Root) (t : Q)
    (c : NodeId) acc s r s1 :
  filter_candidate iter_node_id fuel block_root t ∅ c acc s = Ret r s1 →
  s1 = s
  ∧ ∃ (q : Q) items,
      compute_node_score fuel block_root c s = Ret q s
      ∧ Qle_bool t q = true
      ∧ iter_node_id c = Some items
      ∧ r = (acc.1 ++ [(c, q)], acc.2 ∪ list_to_set items).
Proof.
  unfold filter_candidate, bind.
  pose proof (read_only_compute_node_score fuel block_root c s) as Hro.
  destruct (compute_node_score fuel block_root c s) as [q s0 | |]; [| done | done].
  subst s0.
  destruct (decide (Qle_bool t q = true ∧ c ∉ (∅ : gset NodeId))) as [[Hle _] | Hno].
  - destruct (iter_node_id c) as [items |] eqn:Hiter; [| done].
    intros [= <- <-]. split; [done |]. by exists q, items.
  - destruct (Qlt_bool q t) eqn:Hlt.
    + unfold get_nodes, gets, subscript.
      by destruct (nodes (dht s) !! c).
    + destruct Hno. split; [| apply not_elem_of_empty].
      unfold Qlt_bool in Hlt. by destruct (Qle_bool t q).
Qed.

Lemma pass_Ret (fuel : nat) (block_root : Root) (t : Q) (l : list NodeId)
    acc s r s1 :
  for_fold l acc (filter_candidate iter_node_id fuel block_root t ∅) s = Ret r s1 →
  s1 = s
  ∧ (∀ c, c ∈ l →
       ∃ (q : Q) items,
         compute_node_score fuel block_root c s = Ret q s
         ∧ Qle_bool t q = true
         ∧ iter_node_id c = Some items)
  ∧ (∀ x, x ∈ r.2 ↔
       x ∈ acc.2 ∨ ∃ c items, c ∈ l ∧ iter_node_id c = Some items ∧ x ∈ items)
  ∧ (l ≠ [] → r.1 ≠ []).
Proof.
  revert acc. induction l as [| c l IH]; intros acc Hret.
  - injection Hret as <- <-. split; [done |]. split; [| split; [| done]].
    + intros c Hc. by apply elem_of_nil in Hc.
    + intros x. split; [by left |]. intros [? | (c & items & Hc & _)]; [done |].
      by apply elem_of_nil in Hc.
  - rewrite for_fold_cons in Hret.
    destruct (filter_candidate iter_node_id fuel block_root t ∅ c acc s)
      as [acc1 s0 | |] eqn:Hc; [| done | done].
    apply filter_candidate_Ret in Hc as (-> & q & items & Hq & Hle & Hiter & ->).
    destruct (IH _ Hret) as (-> & Hall & Hiff & Hne). simpl in *.
    split; [done |]. split; [| split].
    + intros c' [-> | Hc']%elem_of_cons; [by exists q, items | by apply Hall].
    + intros x. rewrite Hiff. split.
      * intros [[Hx | Hx]%elem_of_union | (c' & items' & Hc' & Hiter' & Hx)].
        -- by left.
        -- right. exists c, items. split; [left |]. split; [done |].
           by apply elem_of_list_to_set in Hx.
        -- right. exists c', items'. split; [by right | done].
      * intros [Hx | (c' & items' & [-> | Hc']%elem_of_cons & Hiter' & Hx)].
        -- left. apply elem_of_union. by left.
        -- left. apply elem_of_union. right. apply elem_of_list_to_set.
           congruence.
        -- right. by exists c', items'.
    + intros _. destruct l as [| c' l]; [| by apply Hne].
      injection Hret as <-. simpl. by destruct acc.1.
Qed.

Lemma mean_minus_tenth_Ret (l : list (NodeId * Q)) s (t : Q) s' :
  mean_minus_tenth l s = Ret t s' → s' = s.
Proof. destruct l; [done |]. by intros [= _ <-]. Qed.

(** The loop returns only what iterating over all the candidates yields. *)
Lemma filter_loop_Ret (fuel : nat) (block_root : Root) (sample_id : SampleId)
    (seen : list (NodeId * Q)) (t : Q) s (r : gset Item) s' :
  filter_loop iter_node_id fuel block_root sample_id seen t ∅ ∅ s = Ret r s' →
  s' = s
  ∧ ∃ candidates,
      sample_mapping (dht s) !! sample_id = Some candidates
      ∧ r ≠ ∅
      ∧ ∀ x, x ∈ r ↔
          ∃ c items, c ∈ candidates ∧ iter_node_id c = Some items ∧ x ∈ items.
Proof.
  revert seen t. induction fuel as [| fuel IH]; intros seen t Hret; [done |].
  rewrite filter_loop_S, decide_True in Hret by apply size_empty.
  destruct (sample_mapping (dht s) !! sample_id) as [candidates |] eqn:Hcand;
    [| done].
  destruct (for_fold _ _ _ s) as [r1 s1 | |] eqn:Hpass; [| done | done].
  apply pass_Ret in Hpass as (-> & _ & Hiff & _).
  destruct (mean_minus_tenth r1.1 s) as [t' s2 | |] eqn:Hmean; [| done | done].
  apply mean_minus_tenth_Ret in Hmean as ->.
  destruct (decide (size r1.2 = 0)) as [Hempty | Hfull].
  - apply size_empty_inv in Hempty. apply leibniz_equiv in Hempty.
    rewrite Hempty in Hret. by apply (IH r1.1 t').
  - destruct fuel as [| fuel]; [done |].
    rewrite filter_loop_S, decide_False in Hret by done.
    injection Hret as <- <-. split; [done |]. exists candidates.
    split; [done |]. split.
    + intros Hr. apply Hfull. rewrite Hr. apply size_empty.
    + intros x. rewrite Hiff. simpl. split.
      * intros [Hx | (c & items & Hc & Hiter & Hx)];
          [by apply not_elem_of_empty in Hx |].
        exists c, items. split; [by apply elem_of_elements in Hc | done].
      * intros (c & items & Hc & Hiter & Hx). right.
        exists c, items. split; [by apply elem_of_elements | done].
Qed.

(** X21.  [filter_nodes] filters nobody out.  When it returns, every
    holder of the sample has a node score of at least 9/10, the initial
    threshold, and the result is what iterating over the identifiers of
    all the holders yields, which is not empty: a call in which a holder
    scores less does not return, and the lowered threshold never lets a
    call return. *)
Theorem X21_filter_returns_everybody (fuel : nat) (block_root : Root)
    (sample_id : SampleId) s (r : gset Item) s' :
  filter_nodes iter_node_id fuel block_root sample_id s = Ret r s' →
  ∃ candidates fuel',
    fuel = S fuel'
    ∧ sample_mapping (dht s) !! sample_id = Some candidates
    ∧ (∀ c, c ∈ candidates →
         ∃ (q : Q) items,
           compute_node_score fuel' block_root c s = Ret q s
           ∧ (9 # 10 <= q)%Q
           ∧ iter_node_id c = Some items)
    ∧ r ≠ ∅
    ∧ ∀ x, x ∈ r ↔
        ∃ c items, c ∈ candidates ∧ iter_node_id c = Some items ∧ x ∈ items.
Proof.
  intros Hret. unfold filter_nodes in Hret.
  destruct (filter_loop_Ret _ _ _ _ _ _ _ _ Hret)
    as (-> & candidates & Hcand & Hne & Hiff).
  destruct fuel as [| fuel']; [done |].
  exists candidates, fuel'. split; [done |]. split; [done |].
  split; [| by split].
  rewrite filter_loop_S, decide_True, Hcand in Hret by apply size_empty.
  destruct (for_fold _ _ _ s) as [r1 s1 | |] eqn:Hpass; [| done | done].
  apply pass_Ret in Hpass as (_ & Hall & _).
  intros c Hc. destruct (Hall c) as (q & items & Hq & Hle & Hiter);
    [by apply elem_of_elements |].
  exists q, items. split; [done |]. split; [by apply Qle_bool_iff | done].
Qed.

End Filtering.

Section Leaving.

Variable iter_node_id : NodeId → option (list Item).
Variable get_custody_columns : NodeId → list SampleId.

(** X20.  After the last holder left.  When a node enters and leaves
    again for a sample that had no holder, the custody index keeps the
    entry of the sample with no holder in it, and [filter_nodes] for that
    sample raises [ZeroDivisionError]. *)
Theorem X20_filter_after_last_holder_left (k : nat) (block_root : Root)
    (sample_id : SampleId) n s s1 s2 :
  NoDup (get_custody_columns n) →
  sample_id ∈ get_custody_columns n →
  (∀ m, ¬ holds s sample_id m) →
  add_samples_on_entry get_custody_columns n s = Ret tt s1 →
  remove_samples_on_exit get_custody_columns n s1 = Ret tt s2 →
  sample_mapping (dht s2) !! sample_id = Some ∅
  ∧ filter_nodes iter_node_id (S k) block_root sample_id s2
    = Raise ZeroDivisionError s2.
Proof.
  intros Hnodup Hin Hnone Hadd Hremove.
  rewrite add_samples_on_entry_run in Hadd. injection Hadd as <-.
  unfold remove_samples_on_exit in Hremove.
  rewrite remove_samples_run in Hremove; [| done |].
  - injection Hremove as <-.
    assert (sample_mapping
              (dht (with_sample_mapping
                      (with_sample_mapping s
                         (foldl (add_holder n) (sample_mapping (dht s))
                            (get_custody_columns n)))
                      (foldl (remove_holder n)
                         (foldl (add_holder n) (sample_mapping (dht s))
                            (get_custody_columns n))
                         (get_custody_columns n)))) !! sample_id
            = Some ∅) as Hempty.
    { simpl. rewrite remove_holders_lookup, decide_True by done.
      rewrite add_holders_lookup, decide_True by done. simpl. f_equal.
      apply leibniz_equiv. apply elem_of_equiv_empty. intros m Hm.
      apply elem_of_difference in Hm as [Hm Hne].
      apply elem_of_union in Hm as [Hm | Hm]; [| done].
      destruct (sample_mapping (dht s) !! sample_id) as [h |] eqn:Hh.
      - apply (Hnone m). by exists h.
      - by apply not_elem_of_empty in Hm. }
    split; [done |].
    unfold filter_nodes. rewrite filter_loop_S, decide_True by apply size_empty.
    rewrite Hempty. by rewrite elements_empty.
  - intros id Hid. apply add_samples_holds. by right.
Qed.

End Leaving.

(** *** Walks that do not return *)

Lemma visit_all_None ns (l : list NodeId) (new : gset NodeId) :
  (visit_all ns l new).2 = None →
  ∃ a, a ∈ (visit_all ns l new).1 ∧ ns !! a = None.
Proof.
  revert new. induction l as [| a0 l IH]; intros new; simpl; [done |].
  destruct (ns !! a0) as [r |] eqn:Hr; simpl.
  - intros Hnone. destruct (IH _ Hnone) as (a & Ha & Hna).
    exists a. split; [by right | done].
  - intros _. exists a0. split; [left | done].
Qed.

(** A walk that raises wrote under a node that has no record. *)
Lemma walk_trace_failed (fuel : nat) ns (cur : gset NodeId) vis :
  walk_trace fuel ns cur = Some (vis, false) →
  ∃ a, a ∈ vis ∧ ns !! a = None.
Proof.
  revert cur vis. induction fuel as [| fuel IH]; intros cur vis Hw; [done |].
  rewrite walk_trace_S in Hw. destruct (decide (cur = ∅)); [done |].
  cbv zeta in Hw.
  destruct (visit_all ns (elements cur) ∅).2 as [new' |] eqn:Hpass.
  - destruct (walk_trace fuel ns new') as [[vis' ok'] |] eqn:Hrest; [| done].
    injection Hw as <- ->. destruct (IH new' vis' Hrest) as (a & Ha & Hna).
    exists a. split; [| done]. apply elem_of_app. by right.
  - injection Hw as <-. by apply visit_all_None.
Qed.

(** A walk that returns met known nodes only. *)
Lemma walk_trace_returned (fuel : nat) ns (cur : gset NodeId) vis :
  walk_trace fuel ns cur = Some (vis, true) →
  ∀ a, a ∈ vis → is_Some (ns !! a).
Proof.
  revert cur vis. induction fuel as [| fuel IH]; intros cur vis Hw; [done |].
  rewrite walk_trace_S in Hw. destruct (decide (cur = ∅)) as [-> | Hne].
  { injection Hw as <-. intros a Ha. by apply elem_of_nil in Ha. }
  cbv zeta in Hw.
  destruct (visit_all_sound ns (elements cur) ∅) as [_ Hnew].
  destruct (visit_all ns (elements cur) ∅) as [l [new' |]] eqn:Hpass; simpl in *;
    [| done].
  destruct (Hnew new' eq_refl) as (Hknown & -> & _).
  destruct (walk_trace fuel ns new') as [[vis' ok'] |] eqn:Hrest; [| done].
  injection Hw as <- ->. intros a [Ha | Ha]%elem_of_app; [by apply Hknown |].
  by apply (IH new' vis').
Qed.

(** Bounded height is enough for the walk to end, one way or the other. *)
Lemma walk_trace_bounded ns (d : nat) (cur : gset NodeId) :
  (∀ c, c ∈ cur → height_le ns d c) →
  ∃ vis ok, walk_trace (S d) ns cur = Some (vis, ok).
Proof.
  revert cur. induction d as [| d IH]; intros cur Hcur; rewrite walk_trace_S.
  - destruct (decide (cur = ∅)) as [-> | Hne]; [by eexists _, _ |].
    apply set_choose_L in Hne as [c Hc]. specialize (Hcur c Hc). inversion Hcur.
  - destruct (decide (cur = ∅)) as [-> | Hne]; [by eexists _, _ |].
    cbv zeta.
    destruct (visit_all_sound ns (elements cur) ∅) as [_ Hnew].
    destruct (visit_all ns (elements cur) ∅) as [l [new' |]] eqn:Hpass; simpl in *;
      [| by eexists _, _].
    destruct (Hnew new' eq_refl) as (_ & _ & Hiff).
    destruct (IH new') as (vis & ok & ->); [| by eexists _, _].
    intros p Hp. apply Hiff in Hp as [Hp | (c & Hc & Hstep)];
      [by apply not_elem_of_empty in Hp |].
    apply elem_of_elements in Hc. specialize (Hcur c Hc).
    inversion Hcur as [? ? Hparents]; subst. auto.
Qed.

(** X22.  A dangling ancestor makes the recording methods fail.  When
    [n] is in the node map, no infinite chain of parent links starts at
    [n], and some ancestor of [n] has no record, the call raises
    [KeyError], given enough fuel, and leaves the pair recorded under an
    ancestor that has no record: the ledger is written before the record
    is looked up.  For [on_response_score_update] the score keeper of the
    root is assumed to exist. *)
Theorem X22_dangling_ancestor (w : ledger) (block_root : Root) n
    (sample_id : SampleId) s (r : NodeRecord) a :
  nodes (dht s) !! n = Some r →
  acyclic_above (nodes (dht s)) n →
  ancestor (nodes (dht s)) n a →
  nodes (dht s) !! a = None →
  (w = Replied → is_Some (scores (dht s) !! block_root)) →
  ∃ fuel0, ∀ fuel, fuel0 ≤ fuel →
    ∃ s' a',
      record_update w fuel block_root n sample_id s = Raise KeyError s'
      ∧ ancestor (nodes (dht s)) n a'
      ∧ nodes (dht s') !! a' = None
      ∧ recorded w s' block_root a' (n, sample_id).
Proof.
  intros Hr Hacyc Ha Hna Hsk.
  destruct (acyclic_above_height _ n Hacyc) as [d Hd].
  inversion Hd as [d' ? Hparents]; subst.
  destruct (walk_trace_bounded (nodes (dht s)) d' (list_to_set (parents r)))
    as (vis & ok & Hw).
  { intros c Hc. apply elem_of_list_to_set in Hc. apply Hparents.
    unfold parent_step, parents_of. by rewrite Hr. }
  destruct (walk_from_parents (S d') _ n r vis ok Hr Hw) as [Hsound Hcomplete].
  assert (ok = false) as ->.
  { destruct ok; [| done].
    pose proof (walk_trace_returned _ _ _ _ Hw a (Hcomplete eq_refl a Ha)) as [? ?].
    congruence. }
  destruct (walk_trace_failed _ _ _ _ Hw) as (a' & Ha' & Hna').
  exists (S d'). intros fuel Hle.
  apply (walk_trace_more_fuel (S d') fuel) in Hw; [| done].
  destruct w; simpl.
  - rewrite on_request_score_update_run, Hr. cbv zeta. rewrite Hw.
    eexists _, a'. split; [done |]. split; [by apply Hsound |].
    split; [done |]. by apply recorded_add_pairs.
  - destruct (Hsk eq_refl) as [sk Hsk'].
    rewrite on_response_score_update_run, Hr, Hsk', Hw. cbv zeta.
    eexists _, a'. split; [done |]. split; [by apply Hsound |].
    split; [done |]. by apply recorded_add_pairs.
Qed.

(** A frontier from which a cycle can be reached, in a graph with no
    dangling reference above it, is never exhausted. *)
Lemma walk_trace_cycle (fuel : nat) ns (cur : gset NodeId) :
  (∀ c a, c ∈ cur → rtc (parent_step ns) c a → is_Some (ns !! a)) →
  (∃ c a, c ∈ cur ∧ rtc (parent_step ns) c a ∧ tc (parent_step ns) a a) →
  walk_trace fuel ns cur = None.
Proof.
  revert cur. induction fuel as [| fuel IH]; intros cur Hknown Hcycle; [done |].
  rewrite walk_trace_S.
  destruct Hcycle as (c & a & Hc & Hrtc & Htc).
  rewrite decide_False by (intros ->; by apply not_elem_of_empty in Hc).
  cbv zeta.
  destruct (visit_all_known ns (elements cur) ∅) as (new' & Hpass & Hiff).
  { intros a' Ha'. apply elem_of_elements in Ha'. by apply (Hknown a' a'). }
  rewrite Hpass. simpl. rewrite IH; [done | |].
  - intros p a' Hp Hrtc'. apply Hiff in Hp as [Hp | (c' & Hc' & Hstep)];
      [by apply not_elem_of_empty in Hp |].
    apply elem_of_elements in Hc'. apply (Hknown c' a'); [done |].
    by eapply rtc_l.
  - assert (∃ p, parent_step ns c p ∧ rtc (parent_step ns) p a) as (p & Hstep & Hpa).
    { inversion Hrtc as [| ? p ? Hstep Hrest]; subst.
      - inversion Htc as [? ? Hstep | ? p ? Hstep Hrest]; subst.
        + by exists a.
        + exists p. split; [done |]. by apply tc_rtc.
      - by exists p. }
    exists p, a. split; [| done]. apply Hiff. right. exists c.
    split; [by apply elem_of_elements | done].
Qed.

(** X23.  A cycle above [n] makes the recording methods run forever.
    When [n] and all its ancestors are in the node map and some ancestor
    of [n] is its own ancestor, the walk does not end, whatever the fuel:
    the frontier is never empty.  For [on_response_score_update] the
    score keeper of the root is assumed to exist. *)
Theorem X23_cycle_never_returns (w : ledger) (fuel : nat) (block_root : Root) n
    (sample_id : SampleId) s a :
  is_Some (nodes (dht s) !! n) →
  ancestors_known (nodes (dht s)) n →
  ancestor (nodes (dht s)) n a →
  ancestor (nodes (dht s)) a a →
  (w = Replied → is_Some (scores (dht s) !! block_root)) →
  record_update w fuel block_root n sample_id s = OutOfFuel.
Proof.
  intros [r Hr] Hknown Ha Hcycle Hsk.
  assert (walk_trace fuel (nodes (dht s)) (list_to_set (parents r)) = None) as Hw.
  { apply walk_trace_cycle.
    - intros c a' Hc Hrtc. apply Hknown. apply elem_of_list_to_set in Hc.
      eapply tc_rtc_r; [| done]. apply tc_once.
      unfold parent_step, parents_of. by rewrite Hr.
    - apply ancestor_inv in Ha as (p & Hstep & Hrtc).
      exists p, a. split; [| done]. apply elem_of_list_to_set.
      unfold parent_step, parents_of in Hstep. by rewrite Hr in Hstep. }
  destruct w; simpl.
  - by rewrite on_request_score_update_run, Hr, Hw.
  - destruct (Hsk eq_refl) as [sk Hsk'].
    by rewrite on_response_score_update_run, Hr, Hsk', Hw.
Qed.

End Further.

(** ** The further properties on the concrete network *)

Section FurtherConcrete.

Import Scenario.

(** X3 applied to [A] entering and leaving the chain. *)
Lemma X3_enter_then_leave_witness :
  NoDup (custody A)
  ∧ ∃ s1 s2,
      add_samples_on_entry custody A chain = Ret tt s1
      ∧ remove_samples_on_exit custody A s1 = Ret tt s2
      ∧ (∀ id, id ∈ custody A → ¬ holds s2 id A)
      ∧ ∀ id m, m ≠ A → holds s2 id m ↔ holds chain id m.
Proof.
  assert (NoDup (custody A)) as Hnodup by apply NoDup_singleton.
  split; [done |].
  exact (X3_enter_then_leave custody A chain Hnodup).
Defined.

(** X4 applied to [A] leaving the chain it never entered, and to [B]
    leaving when [A] alone holds the sample. *)
Lemma X4_leave_unregistered_witness :
  ((∀ id, id ∈ custody A → sample_mapping (dht chain) !! id = None)
   ∧ ∃ id h, id ∈ custody B
             ∧ sample_mapping (dht chain_custody) !! id = Some h ∧ B ∉ h)
  ∧ remove_samples_on_exit custody A chain = Ret tt chain
  ∧ ∃ s', remove_samples_on_exit custody B chain_custody = Raise KeyError s'.
Proof.
  assert (∀ id, id ∈ custody A → sample_mapping (dht chain) !! id = None)
    as Hnone by (intros id _; reflexivity).
  assert (∃ id h, id ∈ custody B
                  ∧ sample_mapping (dht chain_custody) !! id = Some h ∧ B ∉ h)
    as Hother.
  { exists sample, {[ A ]}. split; [left |]. split; [reflexivity |].
    intros Hin. apply elem_of_singleton in Hin. discriminate. }
  split; [done |].
  split.
  - exact (proj1 (X4_leave_unregistered custody A chain) Hnone).
  - exact (proj2 (X4_leave_unregistered custody B chain_custody) Hother).
Defined.

(** X5 applied to the chain. *)
Lemma X5_reachable_graph_states_witness :
  peers_run L chain
  ∧ self_keyed (nodes (dht chain))
  ∧ scores (dht chain) = ∅
  ∧ sample_mapping (dht chain) = ∅
  ∧ own_id chain = L.
Proof.
  split; [apply chain_peers_run |].
  exact (X5_reachable_graph_states L chain chain_peers_run).
Defined.

(** X6 applied to the call in which [A] reports [B]. *)
Lemma X6_reported_peers_linked_witness :
  on_get_peers_response A [B] (after (on_get_peers_response L [A]) (new_node L))
  = Ret tt chain
  ∧ ∀ p, p ∈ [B] →
      (∃ rp, nodes (dht chain) !! p = Some rp ∧ A ∈ parents rp)
      ∧ ∀ r', nodes (dht chain) !! A = Some r' → p ∈ children r'.
Proof.
  assert (on_get_peers_response A [B]
            (after (on_get_peers_response L [A]) (new_node L)) = Ret tt chain)
    as Hret by (vm_compute; reflexivity).
  split; [exact Hret |].
  exact (X6_reported_peers_linked A [B] _ chain Hret).
Defined.

(** X7 applied to a fresh node to which the unknown [A] reports [B]. *)
Lemma X7_unknown_reporter_witness :
  nodes (dht (new_node L)) !! A = None
  ∧ on_get_peers_response A [B] (new_node L)
    = Raise KeyError
        (with_nodes (new_node L)
           (<[B := mkNodeRecord B [] [A]]> (nodes (dht (new_node L))))).
Proof.
  assert (nodes (dht (new_node L)) !! A = None) as Hnone by reflexivity.
  split; [exact Hnone |].
  exact (X7_unknown_reporter A [B] (new_node L) Hnone).
Defined.

(** X8 applied to [A] reporting [B] a second time in the chain. *)
Lemma X8_report_without_stale_witness :
  (nodes (dht chain) !! A = Some (mkNodeRecord A [B] [L])
   ∧ Forall (.∈ [B]) (children (mkNodeRecord A [B] [L])))
  ∧ ∃ s', on_get_peers_response A [B] chain = Ret tt s'
          ∧ (∃ r', nodes (dht s') !! A = Some r'
                   ∧ children r' = children (mkNodeRecord A [B] [L]) ++ [B])
          ∧ ∀ p, parents_of (nodes (dht s')) p
                 = parents_of (nodes (dht chain)) p
                   ++ replicate (occurrences p [B]) A.
Proof.
  assert (nodes (dht chain) !! A = Some (mkNodeRecord A [B] [L])) as Hr
    by reflexivity.
  assert (Forall (.∈ [B]) (children (mkNodeRecord A [B] [L]))) as Hall
    by (apply Forall_singleton; left).
  split; [by split |].
  exact (X8_report_without_stale A [B] chain _ Hr Hall).
Defined.

(** X9 applied to [L] reporting no peer in the chain. *)
Lemma X9_only_key_errors_witness :
  peers_run L chain
  ∧ ∃ s', on_get_peers_response L [] chain = Ret tt s'
          ∨ on_get_peers_response L [] chain = Raise KeyError s'.
Proof.
  split; [apply chain_peers_run |].
  exact (X9_only_key_errors L chain L [] chain_peers_run).
Defined.

(** X10 applied to [A] reporting [L] in the chain. *)
Lemma X10_known_reporter_returns_witness :
  (peers_run L chain
   ∧ nodes (dht chain) !! A = Some (mkNodeRecord A [B] [L])
   ∧ (A ∈ children (mkNodeRecord A [B] [L]) → A ∈ [L]))
  ∧ ∃ s', on_get_peers_response A [L] chain = Ret tt s'.
Proof.
  assert (nodes (dht chain) !! A = Some (mkNodeRecord A [B] [L])) as Hr
    by reflexivity.
  assert (A ∈ children (mkNodeRecord A [B] [L]) → A ∈ [L]) as Hself.
  { simpl. intros Hin. apply elem_of_cons in Hin as [Heq | Hin]; [discriminate |].
    by apply elem_of_nil in Hin. }
  split; [split; [apply chain_peers_run | by split] |].
  exact (X10_known_reporter_returns L chain A [L] _ chain_peers_run Hr Hself).
Defined.

(** X11 applied to the request recorded for [B] in the chain. *)
Lemma X11_walk_writes_witness :
  final_state (record_update Contacted 3 root B sample chain) chain_contacted
  ∧ (nodes (dht chain_contacted) = nodes (dht chain)
     ∧ sample_mapping (dht chain_contacted) = sample_mapping (dht chain)
     ∧ own_id chain_contacted = own_id chain)
  ∧ (∀ w' r a p, recorded w' chain r a p → recorded w' chain_contacted r a p)
  ∧ ∀ w' r a p, recorded w' chain_contacted r a p →
      recorded w' chain r a p
      ∨ w' = Contacted ∧ r = root ∧ p = (B, sample)
        ∧ ancestor (nodes (dht chain)) B a.
Proof.
  assert (final_state (record_update Contacted 3 root B sample chain)
            chain_contacted) as Hfin by (vm_compute; reflexivity).
  split; [exact Hfin |].
  exact (X11_walk_writes Contacted 3 root B sample chain chain_contacted Hfin).
Defined.

(** X12 applied to the same request. *)
Lemma X12_recording_idempotent_witness :
  record_update Contacted 3 root B sample chain = Ret tt chain_contacted
  ∧ record_update Contacted 3 root B sample chain_contacted
    = Ret tt chain_contacted.
Proof.
  assert (record_update Contacted 3 root B sample chain = Ret tt chain_contacted)
    as Hret by (vm_compute; reflexivity).
  split; [exact Hret |].
  exact (X12_recording_idempotent Contacted 3 root B sample chain chain_contacted
           Hret).
Defined.

(** X13 applied to [A] once the request to [B] is recorded. *)
Lemma X13_contacted_not_replied_witness :
  (on_request_score_update 3 root B sample chain = Ret tt chain_contacted
   ∧ ancestor (nodes (dht chain)) B A
   ∧ ∀ sk, scores (dht chain) !! root = Some sk →
           descendants_replied sk !! A = None)
  ∧ compute_descendant_score root A chain_contacted
    = Raise KeyError chain_contacted.
Proof.
  assert (on_request_score_update 3 root B sample chain = Ret tt chain_contacted)
    as Hret by (vm_compute; reflexivity).
  assert (ancestor (nodes (dht chain)) B A) as Hanc.
  { apply tc_once. unfold parent_step.
    replace (parents_of (nodes (dht chain)) B) with [A] by reflexivity. left. }
  assert (∀ sk, scores (dht chain) !! root = Some sk →
                descendants_replied sk !! A = None) as Hnone.
  { intros sk Hsk.
    assert (scores (dht chain) !! root = None) as Hfresh by reflexivity.
    congruence. }
  split; [by split |].
  exact (X13_contacted_not_replied 3 root B sample chain chain_contacted A
           Hret Hanc Hnone).
Defined.

(** X14 applied to the request to [B] and its reply. *)
Lemma X14_first_exchange_scores_witness :
  (scores (dht chain) !! root = None
   ∧ on_request_score_update 3 root B sample chain = Ret tt chain_contacted
   ∧ on_response_score_update 3 root B sample chain_contacted
     = Ret tt chain_replied)
  ∧ ∀ a,
      (ancestor (nodes (dht chain)) B a →
       compute_descendant_score root a chain_replied = Ret 1%Q chain_replied)
      ∧ (¬ ancestor (nodes (dht chain)) B a →
         compute_descendant_score root a chain_replied
         = Raise KeyError chain_replied).
Proof.
  assert (scores (dht chain) !! root = None) as Hfresh by reflexivity.
  assert (on_request_score_update 3 root B sample chain = Ret tt chain_contacted)
    as Hreq by (vm_compute; reflexivity).
  assert (on_response_score_update 3 root B sample chain_contacted
          = Ret tt chain_replied) as Hresp by (vm_compute; reflexivity).
  split; [by split |].
  exact (X14_first_exchange_scores 3 3 root B sample chain chain_contacted
           chain_replied Hfresh Hreq Hresp).
Defined.

(** X15 applied to [B] in the longer chain. *)
Lemma X15_node_score_provenance_witness :
  compute_node_score 4 root B long_chain_replied = Ret 1%Q long_chain_replied
  ∧ (1%Q = 0%Q
     ∨ (compute_descendant_score root B long_chain_replied
        = Ret 1%Q long_chain_replied
        ∧ ∃ p, parent_step (nodes (dht long_chain_replied)) B p
               ∧ parent_step (nodes (dht long_chain_replied)) p
                   (own_id long_chain_replied))
     ∨ ∃ a, ancestor (nodes (dht long_chain_replied)) B a
            ∧ parent_step (nodes (dht long_chain_replied)) a
                (own_id long_chain_replied)
            ∧ compute_descendant_score root a long_chain_replied
              = Ret 1%Q long_chain_replied)
  ∧ (0 <= 1)%Q
  ∧ (replies_within_contacts long_chain_replied → (1 <= 1)%Q).
Proof.
  assert (compute_node_score 4 root B long_chain_replied
          = Ret 1%Q long_chain_replied) as Hret by (vm_compute; reflexivity).
  split; [exact Hret |].
  exact (X15_node_score_provenance 4 root B long_chain_replied 1%Q
           long_chain_replied Hret).
Defined.

(** X16 applied to [A], the direct peer of [L], in the chain. *)
Lemma X16_top_level_parents_score_zero_witness :
  (nodes (dht chain_replied) !! A = Some (mkNodeRecord A [B] [L])
   ∧ compute_descendant_score root A chain_replied = Ret 1%Q chain_replied
   ∧ ∀ p, p ∈ parents (mkNodeRecord A [B] [L]) →
          ∃ rp, nodes (dht chain_replied) !! p = Some rp ∧ parents rp = [])
  ∧ compute_node_score (2 + 0) root A chain_replied = Ret 0%Q chain_replied.
Proof.
  assert (nodes (dht chain_replied) !! A = Some (mkNodeRecord A [B] [L])) as Hr
    by reflexivity.
  assert (compute_descendant_score root A chain_replied = Ret 1%Q chain_replied)
    as Hq0 by (vm_compute; reflexivity).
  assert (∀ p, p ∈ parents (mkNodeRecord A [B] [L]) →
               ∃ rp, nodes (dht chain_replied) !! p = Some rp ∧ parents rp = [])
    as Htop.
  { intros p Hp.
    assert (p = L) as ->.
    { clear -Hp. simpl in Hp. apply elem_of_cons in Hp as [Heq | Hp]; [exact Heq |].
      inversion Hp. }
    exists (mkNodeRecord L [A] []). split; reflexivity. }
  split; [by split |].
  exact (X16_top_level_parents_score_zero 0 root A chain_replied _ 1%Q
           Hr Hq0 Htop).
Defined.

(** X17 applied to [B], a grandchild of [L], in the longer chain. *)
Lemma X17_grandchild_score_witness :
  (nodes (dht long_chain_replied) !! B = Some (mkNodeRecord B [C] [A])
   ∧ parents (mkNodeRecord B [C] [A]) ≠ []
   ∧ compute_descendant_score root B long_chain_replied
     = Ret 1%Q long_chain_replied
   ∧ ∀ p, p ∈ parents (mkNodeRecord B [C] [A]) →
          ∃ rp, nodes (dht long_chain_replied) !! p = Some rp
                ∧ parents rp = [own_id long_chain_replied])
  ∧ compute_node_score (2 + 0) root B long_chain_replied
    = Ret (py_max 0 1) long_chain_replied
  ∧ (py_max 0 1 == 1)%Q.
Proof.
  assert (nodes (dht long_chain_replied) !! B = Some (mkNodeRecord B [C] [A]))
    as Hr by reflexivity.
  assert (parents (mkNodeRecord B [C] [A]) ≠ []) as Hne by done.
  assert (compute_descendant_score root B long_chain_replied
          = Ret 1%Q long_chain_replied) as Hq0 by (vm_compute; reflexivity).
  assert (∀ p, p ∈ parents (mkNodeRecord B [C] [A]) →
               ∃ rp, nodes (dht long_chain_replied) !! p = Some rp
                     ∧ parents rp = [own_id long_chain_replied]) as Hown.
  { intros p Hp.
    assert (p = A) as ->.
    { clear -Hp. simpl in Hp. apply elem_of_cons in Hp as [Heq | Hp]; [exact Heq |].
      inversion Hp. }
    exists (mkNodeRecord A [B] [L]). split; reflexivity. }
  split; [by repeat split |].
  exact (X17_grandchild_score 0 root B long_chain_replied _ 1%Q Hr Hne Hq0 Hown).
Defined.

(** X18 applied to [B] in the chain. *)
Lemma X18_node_score_terminates_witness :
  acyclic_above (nodes (dht chain)) B
  ∧ ∃ fuel0,
      compute_node_score fuel0 root B chain ≠ OutOfFuel
      ∧ ∀ fuel, fuel0 ≤ fuel →
          compute_node_score fuel root B chain
          = compute_node_score fuel0 root B chain.
Proof.
  split; [apply chain_acyclic_above_B |].
  exact (X18_node_score_terminates root B chain chain_acyclic_above_B).
Defined.

(** X19 applied to the chain, where nobody is registered, and to the
    chain that [A] entered and left. *)
Lemma X19_filter_without_candidates_witness :
  (sample_mapping (dht chain) !! sample = None
   ∧ sample_mapping (dht chain_vacated) !! sample = Some ∅)
  ∧ filter_nodes iter_self (S 0) root sample chain = Raise KeyError chain
  ∧ filter_nodes iter_self (S 0) root sample chain_vacated
    = Raise ZeroDivisionError chain_vacated.
Proof.
  assert (sample_mapping (dht chain) !! sample = None) as Hnone by reflexivity.
  assert (sample_mapping (dht chain_vacated) !! sample = Some ∅) as Hempty
    by (vm_compute; reflexivity).
  split; [by split |]. split.
  - exact (proj1 (X19_filter_without_candidates iter_self 0 root sample chain)
             Hnone).
  - exact (proj2 (X19_filter_without_candidates iter_self 0 root sample
                    chain_vacated) Hempty).
Defined.

(** X20 applied to [A] entering and leaving the chain. *)
Lemma X20_filter_after_last_holder_left_witness :
  (NoDup (custody A)
   ∧ sample ∈ custody A
   ∧ (∀ m, ¬ holds chain_replied sample m)
   ∧ add_samples_on_entry custody A chain_replied = Ret tt chain_custody
   ∧ remove_samples_on_exit custody A chain_custody = Ret tt chain_vacated)
  ∧ sample_mapping (dht chain_vacated) !! sample = Some ∅
  ∧ filter_nodes iter_self (S 0) root sample chain_vacated
    = Raise ZeroDivisionError chain_vacated.
Proof.
  assert (NoDup (custody A)) as Hnodup by apply NoDup_singleton.
  assert (sample ∈ custody A) as Hin by left.
  assert (∀ m, ¬ holds chain_replied sample m) as Hnone.
  { intros m (h & Hh & _).
    assert (sample_mapping (dht chain_replied) !! sample = None) as Hfresh
      by reflexivity.
    congruence. }
  assert (add_samples_on_entry custody A chain_replied = Ret tt chain_custody)
    as Hadd by (vm_compute; reflexivity).
  assert (remove_samples_on_exit custody A chain_custody = Ret tt chain_vacated)
    as Hremove by (vm_compute; reflexivity).
  split; [by repeat split |].
  exact (X20_filter_after_last_holder_left iter_self custody 0 root sample A
           chain_replied chain_custody chain_vacated
           Hnodup Hin Hnone Hadd Hremove).
Defined.

(** X21 applied to the longer chain, where [B] alone holds the sample. *)
Lemma X21_filter_returns_everybody_witness :
  filter_nodes iter_self 4 root sample long_chain_custody
  = Ret {[ B ]} long_chain_custody
  ∧ ∃ candidates fuel',
      4 = S fuel'
      ∧ sample_mapping (dht long_chain_custody) !! sample = Some candidates
      ∧ (∀ c, c ∈ candidates →
           ∃ (q : Q) items,
             compute_node_score fuel' root c long_chain_custody
             = Ret q long_chain_custody
             ∧ (9 # 10 <= q)%Q
             ∧ iter_self c = Some items)
      ∧ ({[ B ]} : gset Item) ≠ ∅
      ∧ ∀ x, x ∈ ({[ B ]} : gset Item) ↔
          ∃ c items, c ∈ candidates ∧ iter_self c = Some items ∧ x ∈ items.
Proof.
  assert (filter_nodes iter_self 4 root sample long_chain_custody
          = Ret {[ B ]} long_chain_custody) as Hret by (vm_compute; reflexivity).
  split; [exact Hret |].
  exact (X21_filter_returns_everybody iter_self 4 root sample long_chain_custody
           {[ B ]} long_chain_custody Hret).
Defined.

(** X22 applied to [B] once [A], its parent, was deleted. *)
Lemma X22_dangling_ancestor_witness :
  (nodes (dht dangling) !! B = Some (mkNodeRecord B [] [A])
   ∧ acyclic_above (nodes (dht dangling)) B
   ∧ ancestor (nodes (dht dangling)) B A
   ∧ nodes (dht dangling) !! A = None
   ∧ (Contacted = Replied → is_Some (scores (dht dangling) !! root)))
  ∧ ∃ fuel0, ∀ fuel, fuel0 ≤ fuel →
      ∃ s' a',
        record_update Contacted fuel root B sample dangling = Raise KeyError s'
        ∧ ancestor (nodes (dht dangling)) B a'
        ∧ nodes (dht s') !! a' = None
        ∧ recorded Contacted s' root a' (B, sample).
Proof.
  assert (nodes (dht dangling) !! B = Some (mkNodeRecord B [] [A])) as Hr
    by reflexivity.
  assert (ancestor (nodes (dht dangling)) B A) as Hanc.
  { apply tc_once. unfold parent_step.
    replace (parents_of (nodes (dht dangling)) B) with [A] by reflexivity. left. }
  assert (nodes (dht dangling) !! A = None) as Hna by reflexivity.
  assert (Contacted = Replied → is_Some (scores (dht dangling) !! root)) as Hsk
    by discriminate.
  split; [exact (conj Hr (conj dangling_acyclic_above_B (conj Hanc (conj Hna Hsk)))) |].
  exact (X22_dangling_ancestor Contacted root B sample dangling _ A
           Hr dangling_acyclic_above_B Hanc Hna Hsk).
Defined.

(** X23 applied to the two nodes that reported each other. *)
Lemma X23_cycle_never_returns_witness :
  (is_Some (nodes (dht mutual) !! L)
   ∧ ancestors_known (nodes (dht mutual)) L
   ∧ ancestor (nodes (dht mutual)) L A
   ∧ ancestor (nodes (dht mutual)) A A
   ∧ (Contacted = Replied → is_Some (scores (dht mutual) !! root)))
  ∧ record_update Contacted 5 root L sample mutual = OutOfFuel.
Proof.
  assert (is_Some (nodes (dht mutual) !! L)) as Hn
    by (exists (mkNodeRecord L [A] [A]); reflexivity).
  assert (parents_of (nodes (dht mutual)) L = [A]) as HL by reflexivity.
  assert (parents_of (nodes (dht mutual)) A = [L]) as HA by reflexivity.
  assert (∀ x y, parent_step (nodes (dht mutual)) x y →
                 x = L ∨ x = A → y = L ∨ y = A) as Hclosed.
  { intros x y Hstep [-> | ->]; unfold parent_step in Hstep.
    - rewrite HL in Hstep. apply elem_of_cons in Hstep as [-> | Hstep]; [by right |].
      by apply elem_of_nil in Hstep.
    - rewrite HA in Hstep. apply elem_of_cons in Hstep as [-> | Hstep]; [by left |].
      by apply elem_of_nil in Hstep. }
  assert (ancestors_known (nodes (dht mutual)) L) as Hknown.
  { intros a Ha.
    assert (a = L ∨ a = A) as [-> | ->];
      [| exact Hn | exists (mkNodeRecord A [L] [L]); reflexivity].
    assert (∀ x y, tc (parent_step (nodes (dht mutual))) x y →
                   x = L ∨ x = A → y = L ∨ y = A) as Htc.
    { intros x y Hxy. induction Hxy as [x y Hstep | x y z Hstep _ IH];
        intros Hx; [by eapply Hclosed |].
      apply IH. by eapply Hclosed. }
    apply (Htc L a Ha). by left. }
  assert (ancestor (nodes (dht mutual)) L A) as Hanc.
  { apply tc_once. unfold parent_step. rewrite HL. left. }
  assert (ancestor (nodes (dht mutual)) A A) as Hcycle.
  { apply (tc_l _ A L A); [unfold parent_step; rewrite HA; left | exact Hanc]. }
  assert (Contacted = Replied → is_Some (scores (dht mutual) !! root)) as Hsk
    by discriminate.
  split; [exact (conj Hn (conj Hknown (conj Hanc (conj Hcycle Hsk)))) |].
  exact (X23_cycle_never_returns Contacted 5 root L sample mutual A
           Hn Hknown Hanc Hcycle Hsk).
Defined.

End FurtherConcrete.
